(** * MEGAHIT iterate_edges: a shallow embedding of [src/iterate_edges.cpp]

    The development follows the source top to bottom: option checking
    ([ParseOptions]), start-up ([InitGlobalData]), the contig pass
    ([ReadContigsAndBuildHash]: crucial k-mer index, header, packed edges
    with the sliding update), the read pass ([ReadReadsAndProcess]: anchor
    labelling, edge emission into the iterative-edge map, the final write
    of the iterative edges) and [main].  Machine integers are [Z] with the
    wrap-around written out where the source stores into a fixed-width
    word; a [double] is a binary64 [float]; the two hash maps are [gmap]s
    keyed by k-mers; reads, contigs and k-mers are lists of 2-bit base
    symbols (A=0, C=1, G=2, T=3). *)

From Stdlib Require Import ZArith String Ascii Lia Floats QArith Qround.
From stdpp Require Import gmap list.

Local Open Scope Z_scope.

(** ** Constants of [definitions.h] and fixed-width stores *)

(** Modelled from the spec: [kMaxMulti_t] is declared in [definitions.h],
    which is not part of the sources at hand; the spec gives
    [MULTI_MAX = 2^16 - 1]. *)
Definition kMaxMulti_t : Z := 65535.

(** Modelled from the spec: [kBitsPerEdgeChar] of [definitions.h]; a base
    takes two bits of a packed edge. *)
Definition kBitsPerEdgeChar : Z := 2.

(** Modelled from the spec: [kBitsPerMulti_t] of [definitions.h]; the
    multiplicity takes the low sixteen bits of the last word. *)
Definition kBitsPerMulti_t : Z := 16.

(** A store into a [uint16_t] keeps the low 16 bits. *)
Definition u16 (x : Z) : Z := x mod 2 ^ 16.

(** A store into a [uint32_t] keeps the low 32 bits. *)
Definition u32 (x : Z) : Z := x mod 2 ^ 32.

(** A store into a [uint64_t] keeps the low 64 bits. *)
Definition u64 (x : Z) : Z := x mod 2 ^ 64.

(** ** The k-mer value *)

(** Modelled from the spec: the class [Kmer] lives in a header that is not
    part of the sources at hand.  Following section 3 of the spec a k-mer is
    its sequence of base symbols, leftmost base first; [ShiftAppend] appends
    on the right and discards the leftmost base, [ShiftPreappend] prepends on
    the left and discards the rightmost base, [ReverseComplement] reverses
    and maps every base to [3 - base], [resize] keeps the leftmost bases
    (unused positions are zero), and the order is lexicographic. *)
Module Kmer.

(** Modelled from the spec: the constructor [Kmer(size)], [size] bases, all
    zero. *)
Definition make (size : Z) : list Z := replicate (Z.to_nat size) 0.

(** Modelled from the spec: [ShiftAppend(c)] appends [c] on the right and
    discards the leftmost base. *)
Definition ShiftAppend (kmer : list Z) (c : Z) : list Z :=
  match kmer with
  | [] => []
  | _ :: rest => rest ++ [c]
  end.

(** Modelled from the spec: [ShiftPreappend(c)] prepends [c] on the left
    and discards the rightmost base. *)
Definition ShiftPreappend (kmer : list Z) (c : Z) : list Z :=
  match kmer with
  | [] => []
  | _ :: _ => c :: removelast kmer
  end.

(** Modelled from the spec: [ReverseComplement()] reverses the sequence and
    maps each base to [3 - base]. *)
Definition ReverseComplement (kmer : list Z) : list Z :=
  map (fun b => 3 - b) (rev kmer).

(** Modelled from the spec: [resize(n')] changes the length and keeps the
    leftmost [min(n, n')] bases; positions beyond them are zero. *)
Definition resize (kmer : list Z) (new_size : Z) : list Z :=
  take (Z.to_nat new_size)
       (kmer ++ replicate (Z.to_nat new_size - length kmer) 0).

(** Modelled from the spec: [operator<], the lexicographic order, base by
    base from position 0. *)
Fixpoint lt (a b : list Z) : bool :=
  match a, b with
  | [], [] => false
  | [], _ :: _ => true
  | _ :: _, [] => false
  | x :: a', y :: b' =>
      if x <? y then true
      else if y <? x then false
      else lt a' b'
  end.

(** [a <= b], that is not [b < a]. *)
Definition le (a b : list Z) : bool := negb (lt b a).

End Kmer.

(** ** Option checking: [ParseOptions] *)

Record Options : Type := mkOptions {
  contigs_file : string;
  contigs_multi_file : string;
  addi_contig_file : string;
  addi_multi_file : string;
  read_file : string;
  read_format : string;
  num_cpu_threads : Z;
  kmer_k : Z;
  step : Z;
  max_read_len : Z;
  output_prefix : string
}.

(** What [ParseOptions] does to the process: either it returns with the
    options in force, or the [catch] block prints the message and the usage
    summary on the error stream and calls [exit(1)]. *)
Inductive parse_result : Type :=
| Parsed (o : Options)
| UsageExit (message : string) (status : Z).

Definition is_empty_string (s : string) : bool :=
  match s with
  | EmptyString => true
  | String _ _ => false
  end.

Definition set_num_cpu_threads (o : Options) (n : Z) : Options :=
  mkOptions (contigs_file o) (contigs_multi_file o) (addi_contig_file o)
            (addi_multi_file o) (read_file o) (read_format o) n
            (kmer_k o) (step o) (max_read_len o) (output_prefix o).

(** The body of the [try] block, applied to the record that [desc.Parse] has
    filled.  [max_size] is [Kmer<KMER_NUM_UINT64>::max_size()] and
    [omp_max_threads] is the value of [omp_get_max_threads()]; both come
    from outside this file.  The first test adds two [int]s (line 92); the
    sum is written here without wrap-around, which is the sum of the source
    as long as it fits an [int].  Outside that range the addition of the
    source overflows, which C++ leaves undefined, and statements about what
    [ParseOptions] accepts and rejects are made for sums that fit. *)
Definition ParseOptions (max_size omp_max_threads : Z) (o : Options)
  : parse_result :=
  if max_size <=? step o + kmer_k o then
    UsageExit "kmer_k + step must less than max_size" 1
  else if is_empty_string (contigs_file o) then
    UsageExit "No contig file!" 1
  else if is_empty_string (contigs_multi_file o) then
    UsageExit "No contig's multiplicity file!" 1
  else if is_empty_string (read_file o) then
    UsageExit "No reads file!" 1
  else if kmer_k o <=? 0 then
    UsageExit "Invalid kmer size!" 1
  else if step o <=? 0 then
    UsageExit "Invalid step size!" 1
  else if is_empty_string (output_prefix o) then
    UsageExit "No output prefix!" 1
  else if negb (String.eqb (read_format o) "binary")
          && negb (String.eqb (read_format o) "fasta")
          && negb (String.eqb (read_format o) "fastq") then
    UsageExit "Invalid read format!" 1
  else if max_read_len o =? 0 then
    UsageExit "Invalid max read length!" 1
  else if num_cpu_threads o =? 0 then
    Parsed (set_num_cpu_threads o omp_max_threads)
  else
    Parsed o.

Definition rejected (r : parse_result) : Prop :=
  match r with
  | Parsed _ => False
  | UsageExit _ status => status <> 0
  end.

(** ** Start-up: the [Options] methods and [InitGlobalData] *)

(** [Options::output_edges_file()] and [Options::output_read_file()]
    (lines 66-72): the prefix followed by the name, with nothing in
    between. *)
Definition Options_output_edges_file (o : Options) : string :=
  (output_prefix o ++ "edges.0")%string.

Definition Options_output_read_file (o : Options) : string :=
  (output_prefix o ++ "rr.pb")%string.

(** Lines 149-155: the table from input bytes to base symbols.  All 256
    entries are set to 2, then those of [A], [C], [G] and [T] to 0, 1, 2
    and 3. *)
Definition dna_map : list Z :=
  <[nat_of_ascii "T" := 3]>
    (<[nat_of_ascii "G" := 2]>
       (<[nat_of_ascii "C" := 1]>
          (<[nat_of_ascii "A" := 0]> (replicate 256 2)))).

(** The enumeration [IterateGlobalData::kFastq], [kFasta], [kBinary]. *)
Inductive ReadFormat : Type := kFastq | kFasta | kBinary.

(** Lines 162-171: the read format of the globals; [None] stands for the
    branch that prints [Cannot identify read format!] and calls
    [exit(1)]. *)
Definition InitGlobalData_read_format (format : string) : option ReadFormat :=
  if String.eqb format "fastq" then Some kFastq
  else if String.eqb format "fasta" then Some kFasta
  else if String.eqb format "binary" then Some kBinary
  else None.

(** Lines 195-196: the names of the two output files [InitGlobalData]
    opens. *)
Definition InitGlobalData_edge_file_name (o : Options) : string :=
  (output_prefix o ++ ".edges.0")%string.

Definition InitGlobalData_read_file_name (o : Options) : string :=
  (output_prefix o ++ ".rr.pb")%string.

(** What the calls of lines 173-196 find: whether [gzopen] opens the named
    file for reading, whether [gzdopen] opens the standard input, and
    whether [OpenFileAndCheck] hands back a stream for the named output
    file.

    Modelled from the spec: [OpenFileAndCheck] is declared in
    [io-utility.h], which is not part of the sources at hand; a failure to
    open is fatal (section 7 of the spec), and it is taken here to show as
    the [NULL] that the asserts of lines 197-198 test for. *)
Record Files : Type := mkFiles {
  gzopen : string -> bool;
  gzdopen_stdin : bool;
  OpenFileAndCheck : string -> bool
}.

(** [gzopen(name, "r") != NULL]; no file has the empty name. *)
Definition gzopen_not_NULL (files : Files) (name : string) : bool :=
  negb (is_empty_string name) && gzopen files name.

(** Lines 173-198: the files [InitGlobalData] opens and the seven asserts on
    them; [true] when every assert reached holds, [false] when one fails and
    the process aborts.  The two additional files are opened, and asserted,
    when [addi_contig_file] is given, whether or not [addi_multi_file]
    is. *)
Definition InitGlobalData_asserts (files : Files) (o : Options) : bool :=
  let contigs_file_not_NULL := gzopen_not_NULL files (contigs_file o) in
  let contigs_multi_file_not_NULL :=
    gzopen_not_NULL files (contigs_multi_file o) in
  let read_file_not_NULL :=
    if String.eqb (read_file o) "-" then gzdopen_stdin files
    else gzopen_not_NULL files (read_file o) in
  contigs_file_not_NULL && contigs_multi_file_not_NULL && read_file_not_NULL
  && (if is_empty_string (addi_contig_file o) then true
      else gzopen_not_NULL files (addi_multi_file o)
           && gzopen_not_NULL files (addi_contig_file o))
  && OpenFileAndCheck files (InitGlobalData_edge_file_name o)
  && OpenFileAndCheck files (InitGlobalData_read_file_name o).

(** ** The contig pass: [ReadContigsAndBuildHash] *)

(** Modelled from the spec: [ContigPackage] and [ReadPackage] are declared
    outside the sources at hand; a package is the list of its sequences,
    and [cur_package.CharAt(i, j)] is base [j] of sequence [i] (any base
    when [j] is out of range, which the read pass checks for). *)
Definition CharAt (seq : list Z) (j : Z) : Z := nth (Z.to_nat j) seq 0.

(** A contig of a package: its bases and the multiplicity read from the
    multiplicity file (a [double] once line 325 has read it; the type is
    left open, for examples on integer counts). *)
Record contig (M : Type) : Type := mkContig {
  seq : list Z;
  multiplicity_prev : M
}.
Arguments mkContig {M} _ _.
Arguments seq {M} _.
Arguments multiplicity_prev {M} _.

(** *** Crucial k-mers (source lines 276-307) *)

(** The extension hint: base [j] at bits [(31 - j) * 2], the length in the
    low bits.  The loop runs while [j < step && j < s_length].  For
    [step <= 32] every shift count is in [0, 62]; for [step >= 33] and a
    long enough contig the source shifts by a negative count at [j > 31],
    which C++ leaves undefined: there the value below (the base dropped, by
    the 64-bit store) is not what a build need compute, and statements
    about the value of a hint are made for [step <= 32]. *)
Definition pack_hint (s s_length : Z) (base : Z -> Z) : Z :=
  let s_seq :=
    foldl (fun s_seq j => Z.lor s_seq (u64 (Z.shiftl (base j) ((31 - j) * 2))))
          0 (seqZ 0 (Z.min s s_length)) in
  Z.lor s_seq s_length.

Definition prefix_kmer (k : Z) (seq : list Z) : list Z :=
  foldl Kmer.ShiftAppend (Kmer.make k) (CharAt seq <$> seqZ 0 k).

Definition suffix_rc_kmer (k : Z) (seq : list Z) : list Z :=
  let len := Z.of_nat (length seq) in
  foldl Kmer.ShiftAppend (prefix_kmer k seq)
        ((fun j => 3 - CharAt seq (len - 1 - j)) <$> seqZ 0 k).

Definition prefix_hint (k s : Z) (seq : list Z) : Z :=
  let len := Z.of_nat (length seq) in
  pack_hint s (Z.min s (len - k)) (fun j => CharAt seq (j + k)).

Definition suffix_rc_hint (k s : Z) (seq : list Z) : Z :=
  let len := Z.of_nat (length seq) in
  pack_hint s (Z.min s (len - k)) (fun j => 3 - CharAt seq (len - k - 1 - j)).

(** One iteration of the parallel loop over the contigs of a package.  The
    iterations only write to the map, so they are run here in package
    order. *)
Definition add_crusial_kmers (k s : Z) (crusial_kmers : gmap (list Z) Z)
    (seq : list Z) : gmap (list Z) Z :=
  let len := Z.of_nat (length seq) in
  if len <? k then crusial_kmers
  else
    let crusial_kmers :=
      <[prefix_kmer k seq := prefix_hint k s seq]> crusial_kmers in
    if k <? len then
      <[suffix_rc_kmer k seq := suffix_rc_hint k s seq]> crusial_kmers
    else crusial_kmers.

(** *** Packed edges (source lines 317-371) *)

(** All operands below are non-negative, where C's truncating [/] and [%]
    agree with [Z.div] and [Z.modulo]. *)
Definition kWordsPerEdge (k s : Z) : Z :=
  ((k + s + 1) * kBitsPerEdgeChar + kBitsPerMulti_t + 31) / 32.

Definition last_shift (next_k : Z) : Z :=
  let r := (next_k + 1) mod 16 in
  (if r =? 0 then 0 else 16 - r) * 2.

(** The loop [for (j = 0; j < next_k + 1; )] that folds the window into the
    words, [n] iterations left; [off] is the window's first position (0 for
    the first edge of a contig). *)
Fixpoint fill_words (seq : list Z) (off next_k : Z) (n : nat) (j w : Z)
    (end_word : nat) (packed_edge : list Z) : Z * nat * list Z :=
  match n with
  | O => (w, end_word, packed_edge)
  | S n' =>
      let w := u32 (Z.lor (Z.shiftl w 2) (CharAt seq (off + (next_k - j)))) in
      let j := j + 1 in
      if j mod 16 =? 0
      then fill_words seq off next_k n' j 0 (S end_word)
                      (<[end_word := w]> packed_edge)
      else fill_words seq off next_k n' j w end_word packed_edge
  end.

(** Assembling the edge of the window at [off] from scratch, as lines
    341-355 do for the first window. *)
Definition assemble_edge (k s : Z) (seq : list Z) (off multiplicity : Z)
  : list Z :=
  let next_k := k + s in
  let W := Z.to_nat (kWordsPerEdge k s) in
  let packed_edge := replicate W 0 in
  let '(w, end_word, packed_edge) :=
    fill_words seq off next_k (Z.to_nat (next_k + 1)) 0 0 0%nat packed_edge in
  let packed_edge :=
    <[end_word := u32 (Z.shiftl w (last_shift next_k))]> packed_edge in
  alter (fun x => Z.lor x multiplicity) (W - 1)%nat packed_edge.

(** The inner loop [for (k = kWordsPerEdge - 1; k > 0; --k)]. *)
Fixpoint shift_words (i : nat) (packed_edge : list Z) : list Z :=
  match i with
  | O => packed_edge
  | S i' =>
      let packed_edge := alter (fun x => Z.shiftr x 2) i packed_edge in
      let packed_edge :=
        alter (fun x => Z.lor x (u32 (Z.shiftl (packed_edge !!! i') 30))) i
              packed_edge in
      shift_words i' packed_edge
  end.

(** The body of the loop of lines 359-371 up to (not including) the
    [fwrite]: the sliding update for the next base [c]. *)
Definition slide_before_multi (k s : Z) (packed_edge : list Z)
    (c multiplicity : Z) : list Z :=
  let next_k := k + s in
  let W := Z.to_nat (kWordsPerEdge k s) in
  let packed_edge := alter (fun x => Z.lxor x multiplicity) (W - 1)%nat packed_edge in
  let packed_edge :=
    alter (fun x => Z.land x (u32 (Z.lnot (Z.shiftl 3 ((15 - next_k mod 16) * 2)))))
          (Z.to_nat (next_k / 16)) packed_edge in
  let packed_edge := shift_words (W - 1)%nat packed_edge in
  let packed_edge := alter (fun x => Z.shiftr x 2) 0%nat packed_edge in
  alter (fun x => Z.lor x (u32 (Z.shiftl c 30))) 0%nat packed_edge.

Definition slide_edge (k s : Z) (packed_edge : list Z) (c multiplicity : Z)
  : list Z :=
  let W := Z.to_nat (kWordsPerEdge k s) in
  alter (fun x => Z.lor x multiplicity) (W - 1)%nat
        (slide_before_multi k s packed_edge c multiplicity).

(** The edges written for one contig whose converted multiplicity is
    [multiplicity]: none when the contig is shorter than [next_k + 1],
    otherwise the first edge followed by one sliding update per further
    base. *)
Fixpoint slide_loop (k s : Z) (seq : list Z) (multiplicity : Z)
    (js : list Z) (packed_edge : list Z) : list (list Z) :=
  match js with
  | [] => []
  | j :: js' =>
      let packed_edge := slide_edge k s packed_edge (CharAt seq j) multiplicity in
      packed_edge :: slide_loop k s seq multiplicity js' packed_edge
  end.

Definition contig_edges (k s : Z) (seq : list Z) (multiplicity : Z)
  : list (list Z) :=
  let next_k := k + s in
  let len := Z.of_nat (length seq) in
  if len <? next_k + 1 then []
  else
    let packed_edge := assemble_edge k s seq 0 multiplicity in
    packed_edge ::
      slide_loop k s seq multiplicity
                 (seqZ (next_k + 1) (len - (next_k + 1))) packed_edge.

(** *** The batch loop and the output stream *)

(** One [fwrite] to [edges.0]: a header word or the words of one edge. *)
Inductive edge_write : Type :=
| HeaderWord (w : Z)
| EdgeWords (packed_edge : list Z).

Definition words_of_write (x : edge_write) : list Z :=
  match x with
  | HeaderWord w => [w]
  | EdgeWords packed_edge => packed_edge
  end.

(** The 32-bit words of the file, in write order. *)
Definition edge_stream (ws : list edge_write) : list Z :=
  concat (words_of_write <$> ws).

(** The part of [IterateGlobalData] that the passes change.  The two hash
    maps are finite maps keyed by the base sequence of the k-mer:
    [crusial_kmers[kmer] = v] inserts or overwrites, [find] looks up. *)
Record IterateGlobalData : Type := mkGlobals {
  crusial_kmers : gmap (list Z) Z;
  iterative_edges : gmap (list Z) Z;
  output_edge_file : list edge_write;
  output_read_file : list (list Z)
}.

Definition InitGlobalData : IterateGlobalData :=
  mkGlobals ∅ ∅ [] [].

(** Lines 329-333: the integer quantities the conversion of the
    multiplicity starts from, for a contig of [len] bases: the number of
    its k-mers and of its windows of [next_k + 1] bases, the largest number
    of windows a k-mer lies in, and the numbers of k-mers near the ends and
    in between. *)
Definition num_kmer (k len : Z) : Z := len - k + 1.

Definition num_nextk1 (k s len : Z) : Z := len - (k + s + 1) + 1.

Definition internal_max (k s len : Z) : Z :=
  Z.min (k + s + 1 - k + 1) (num_nextk1 k s len).

Definition num_external (k s len : Z) : Z := internal_max k s len - 1.

Definition num_internal (k s len : Z) : Z :=
  num_kmer k len - num_external k s len * 2.

(** [(double)n] for an [int] [n]; exact, an [int] having at most 31
    significant bits. *)
Definition double_of_int (n : Z) : float :=
  if n <? 0 then PrimFloat.opp (PrimFloat.of_uint63 (Uint63.of_Z (- n)))
  else PrimFloat.of_uint63 (Uint63.of_Z n).

(** [int(x)] for a [double] [x]: the fractional part is discarded.  When
    [x] is not a number, is infinite, or its integer part does not fit an
    [int], C++ leaves the conversion undefined: [None]. *)
Definition int_of_double (x : float) : option Z :=
  match Prim2SF x with
  | S754_zero _ => Some 0
  | S754_finite sign m e =>
      let t := Z.shiftl (Z.pos m) e in
      let t := if sign then - t else t in
      if (- 2 ^ 31 <=? t) && (t <? 2 ^ 31) then Some t else None
  | S754_infinity _ | S754_nan => None
  end.

(** Lines 334-335: the initial value of [exp_num_kmer].  Every operation
    is one binary64 operation, rounded to nearest, in the order in which
    the expression of the source associates: the first summand is
    [((double)num_external * (num_external + 1)) / (s + 2)], the second
    [((double)internal_max / (s + 2)) * num_internal]. *)
Definition exp_num_kmer (k s len : Z) : float :=
  (double_of_int (num_external k s len)
     * double_of_int (num_external k s len + 1)
     / double_of_int (k + s + 1 - k + 1)
   + double_of_int (internal_max k s len)
     / double_of_int (k + s + 1 - k + 1)
     * double_of_int (num_internal k s len))%float.

(** Lines 336-338: the value that is truncated,
    [exp_num_kmer * kmer_k / (next_k + 1) / num_nextk1 + 0.5] after
    [exp_num_kmer *= multiplicity_prev]. *)
Definition multiplicity_before_truncation (k s len : Z)
    (multiplicity_prev : float) : float :=
  let exp_num_kmer := (exp_num_kmer k s len * multiplicity_prev)%float in
  (exp_num_kmer * double_of_int k / double_of_int (k + s + 1)
   / double_of_int (num_nextk1 k s len) + 0.5)%float.

(** Lines 325-339: the conversion of a contig's multiplicity from [k] to
    [k + s + 1]: the value of line 338, [std::min(int(...), kMaxMulti_t)],
    stored in the [uint16_t] [multiplicity]; [None] where the conversion to
    [int] is undefined. *)
Definition converted_multiplicity (k s len : Z) (multiplicity_prev : float)
  : option Z :=
  t ← int_of_double (multiplicity_before_truncation k s len multiplicity_prev);
  Some (u16 (Z.min t kMaxMulti_t)).

(** The conversion as the contig pass uses it.  Where the conversion to
    [int] is undefined the value is 0 (what the x86-64 build stores: the
    conversion instruction yields the least [int], whose low sixteen bits
    are clear); nothing is stated about the code there. *)
Definition convert_multiplicity_binary64 (k s len : Z)
    (multiplicity_prev : float) : Z :=
  default 0 (converted_multiplicity k s len multiplicity_prev).

Section ContigPass.

Context {M : Type}.

(** The pass is written for any representation [M] of the multiplicity
    read from the file and any conversion of it (lines 325-339) to the
    16-bit value stored in the edges; the conversion of the source is
    [convert_multiplicity_binary64], on [M = float]. *)
Variable convert_multiplicity : Z -> Z -> Z -> M -> Z.

Definition write_contig_edges (k s : Z) (out : list edge_write)
    (c : contig M) : list edge_write :=
  out ++ (EdgeWords <$>
            contig_edges k s (seq c)
              (convert_multiplicity k s (Z.of_nat (length (seq c)))
                                    (multiplicity_prev c))).

(** One round of the [while (true)] loop on the package just read. *)
Definition process_contig_package (k s : Z) (is_addi_contigs : bool)
    (is_first_round : bool) (cur_package : list (contig M))
    (g : IterateGlobalData) : IterateGlobalData :=
  let crusial :=
    if is_addi_contigs then crusial_kmers g
    else foldl (fun m c => add_crusial_kmers k s m (seq c))
               (crusial_kmers g) cur_package in
  let out :=
    if is_first_round
    then output_edge_file g
           ++ [HeaderWord (u32 (k + s)); HeaderWord (u32 (kWordsPerEdge k s))]
    else output_edge_file g in
  let out := foldl (write_contig_edges k s) out cur_package in
  mkGlobals crusial (iterative_edges g) out (output_read_file g).

(** The [while (true)] loop: the input thread hands over one package per
    round; the loop is left when the reader is at end of file with an
    empty package, that is when no package is left. *)
Fixpoint contig_rounds (k s : Z) (is_addi_contigs is_first_round : bool)
    (packages : list (list (contig M))) (g : IterateGlobalData)
  : IterateGlobalData :=
  match packages with
  | [] => g
  | cur_package :: rest =>
      contig_rounds k s is_addi_contigs false rest
        (process_contig_package k s is_addi_contigs is_first_round
                                cur_package g)
  end.

Definition ReadContigsAndBuildHash (k s : Z) (is_addi_contigs : bool)
    (packages : list (list (contig M))) (g : IterateGlobalData)
  : IterateGlobalData :=
  contig_rounds k s is_addi_contigs (negb is_addi_contigs) packages g.

(** The two calls of [main]: the primary contigs, then the additional
    contigs when [addi_multi_file] is given. *)
Definition contig_passes (k s : Z) (primary : list (list (contig M)))
    (addi : option (list (list (contig M)))) : IterateGlobalData :=
  let g := ReadContigsAndBuildHash k s false primary InitGlobalData in
  match addi with
  | Some packages => ReadContigsAndBuildHash k s true packages g
  | None => g
  end.

End ContigPass.

(** ** The read pass: [ReadReadsAndProcess] *)

(** Every access to the read and to [kmer_exist] is checked; loops whose
    trip count is not fixed in advance carry fuel. *)
Inductive outcome (A : Type) : Type :=
| Done (a : A)
| OutOfBounds
| OutOfFuel.
Arguments Done {A} _.
Arguments OutOfBounds {A}.
Arguments OutOfFuel {A}.

#[global] Instance outcome_fmap : FMap outcome := fun _ _ f m =>
  match m with
  | Done a => Done (f a)
  | OutOfBounds => OutOfBounds
  | OutOfFuel => OutOfFuel
  end.
#[global] Instance outcome_ret : MRet outcome := fun _ a => Done a.
#[global] Instance outcome_bind : MBind outcome := fun _ _ f m =>
  match m with
  | Done a => f a
  | OutOfBounds => OutOfBounds
  | OutOfFuel => OutOfFuel
  end.

Definition in_range (j len : Z) : bool := (0 <=? j) && (j <? len).

(** [cur_package.CharAt(i, j)] on read [i], checked. *)
Definition read_CharAt (R : list Z) (j : Z) : outcome Z :=
  if in_range j (Z.of_nat (length R)) then Done (CharAt R j) else OutOfBounds.

(** [kmer_exist[j]], checked. *)
Definition exist_get (kmer_exist : list bool) (j : Z) : outcome bool :=
  if in_range j (Z.of_nat (length kmer_exist))
  then Done (nth (Z.to_nat j) kmer_exist false)
  else OutOfBounds.

(** [kmer_exist[j] = true], checked. *)
Definition exist_set (kmer_exist : list bool) (j : Z) : outcome (list bool) :=
  if in_range j (Z.of_nat (length kmer_exist))
  then Done (<[Z.to_nat j := true]> kmer_exist)
  else OutOfBounds.

(** Base [j] of a hint: [(s_seq >> (31 - j) * 2) & 3].  For [j <= 31] the
    shift count is in [0, 62]; for [j > 31] the source shifts by a negative
    count, which C++ leaves undefined: there the value below (0, the shift
    turning to the left and the two low bits being clear) is not what a
    build need compute, and statements about the bases of a hint are made
    for hints of length at most 32. *)
Definition hint_base (s_seq j : Z) : Z :=
  Z.land (Z.shiftr s_seq ((31 - j) * 2)) 3.

(** [s_seq & 63]. *)
Definition hint_length (s_seq : Z) : Z := Z.land s_seq 63.

(** [kmer.ShiftAppend(CharAt(i, x))] for the positions [xs] in turn. *)
Fixpoint append_chars (R : list Z) (xs : list Z) (kmer : list Z)
  : outcome (list Z) :=
  match xs with
  | [] => Done kmer
  | x :: xs' =>
      c ← read_CharAt R x;
      append_chars R xs' (Kmer.ShiftAppend kmer c)
  end.

(** [kmer.ShiftAppend(c); rev_kmer.ShiftPreappend(3 - c)] for the positions
    [xs] in turn. *)
Fixpoint append_chars_both (R : list Z) (xs : list Z) (kmer rev_kmer : list Z)
  : outcome (list Z * list Z) :=
  match xs with
  | [] => Done (kmer, rev_kmer)
  | x :: xs' =>
      c ← read_CharAt R x;
      append_chars_both R xs' (Kmer.ShiftAppend kmer c)
                        (Kmer.ShiftPreappend rev_kmer (3 - c))
  end.

(** *** Phase 1: anchor labelling (source lines 447-501) *)

Record scan_state : Type := mkScan {
  cur_pos : Z;
  last_marked_pos : Z;
  kmer_exist : list bool;
  kmer : list Z;
  rev_kmer : list Z
}.

(** Lines 447-455. *)
Definition scan_init (k : Z) (R : list Z) : outcome scan_state :=
  kmer ← append_chars R (seqZ 0 k) (Kmer.make k);
  Done (mkScan 0 (-1) (replicate (length R) false) kmer
               (Kmer.ReverseComplement kmer)).

(** The loop of lines 466-472; returns the final [j] and the vector. *)
Fixpoint forward_match (fuel : nat) (k : Z) (R : list Z) (p s_seq : Z)
    (j : Z) (exist : list bool) : outcome (Z * list bool) :=
  if (j <? hint_length s_seq) && (p + k + j <? Z.of_nat (length R)) then
    match fuel with
    | O => OutOfFuel
    | S fuel' =>
        c ← read_CharAt R (p + k + j);
        if c =? hint_base s_seq j then
          exist ← exist_set exist (p + j + 1);
          forward_match fuel' k R p s_seq (j + 1) exist
        else Done (j, exist)
    end
  else Done (j, exist).

(** The loop of lines 481-487; returns the final [j] and the vector. *)
Fixpoint backward_match (fuel : nat) (R : list Z) (p last_marked s_seq : Z)
    (j : Z) (exist : list bool) : outcome (Z * list bool) :=
  if (j <? hint_length s_seq) && (last_marked <? p - 1 - j) then
    match fuel with
    | O => OutOfFuel
    | S fuel' =>
        c ← read_CharAt R (p - 1 - j);
        if 3 - c =? hint_base s_seq j then
          exist ← exist_set exist (p - 1 - j);
          backward_match fuel' R p last_marked s_seq (j + 1) exist
        else Done (j, exist)
    end
  else Done (j, exist).

(** Lines 458-489: the probe at [cur_pos]; returns the state with the new
    labels and [last_marked_pos], and [next_pos]. *)
Definition probe (k : Z) (crusial : gmap (list Z) Z) (R : list Z)
    (st : scan_state) : outcome (scan_state * Z) :=
  let p := cur_pos st in
  let next_pos := p + 1 in
  e ← exist_get (kmer_exist st) p;
  if (e : bool) then Done (st, next_pos)
  else
    match crusial !! kmer st with
    | Some s_seq =>
        exist ← exist_set (kmer_exist st) p;
        '(j, exist) ← forward_match 64 k R p s_seq 0 exist;
        let last_marked := p + j in
        Done (mkScan p last_marked exist (kmer st) (rev_kmer st),
              last_marked + 1)
    | None =>
        match crusial !! rev_kmer st with
        | Some s_seq =>
            exist ← exist_set (kmer_exist st) p;
            '(j, exist) ← backward_match 64 R p (last_marked_pos st) s_seq 0 exist;
            Done (mkScan p (last_marked_pos st) exist (kmer st) (rev_kmer st),
                  next_pos)
        | None => Done (st, next_pos)
        end
    end.

(** The loop of lines 492-497. *)
Fixpoint advance (fuel : nat) (k : Z) (R : list Z) (next_pos : Z)
    (st : scan_state) : outcome scan_state :=
  if cur_pos st <? next_pos then
    match fuel with
    | O => OutOfFuel
    | S fuel' =>
        let p := cur_pos st + 1 in
        c ← read_CharAt R (p + k - 1);
        advance fuel' k R next_pos
                (mkScan p (last_marked_pos st) (kmer_exist st)
                        (Kmer.ShiftAppend (kmer st) c)
                        (Kmer.ShiftPreappend (rev_kmer st) (3 - c)))
    end
  else Done st.

Inductive loop_exit (A : Type) : Type :=
| Continue (a : A)
| Break (a : A).
Arguments Continue {A} _.
Arguments Break {A} _.

(** One round of the [while (cur_pos + kmer_k <= length)] loop. *)
Definition anchor_round (k : Z) (crusial : gmap (list Z) Z) (R : list Z)
    (st : scan_state) : outcome (loop_exit scan_state) :=
  '(st, next_pos) ← probe k crusial R st;
  if next_pos + k <=? Z.of_nat (length R) then
    st ← advance (length R) k R next_pos st;
    Done (Continue st)
  else Done (Break st).

Fixpoint label_anchors (fuel : nat) (k : Z) (crusial : gmap (list Z) Z)
    (R : list Z) (st : scan_state) : outcome scan_state :=
  if cur_pos st + k <=? Z.of_nat (length R) then
    match fuel with
    | O => OutOfFuel
    | S fuel' =>
        r ← anchor_round k crusial R st;
        match r with
        | Continue st => label_anchors fuel' k crusial R st
        | Break st => Done st
        end
    end
  else Done st.

(** Phase 1 of a read of length at least [k + s + 1]. *)
Definition phase1 (k : Z) (crusial : gmap (list Z) Z) (R : list Z)
  : outcome scan_state :=
  st ← scan_init k R;
  label_anchors (S (length R)) k crusial R st.

(** *** Phase 2: edge emission (source lines 503-542) *)

(** Modelled from the spec: the concurrent map behind
    [globals.iterative_edges] is declared outside the sources at hand.
    [get_ref_with_lock] hands out a reference to the counter of the key,
    which starts at zero when the key is new; the critical section is the
    increment [if (multi < kMaxMulti_t) ++multi]. *)
Definition increment_edge (edges : gmap (list Z) Z) (key : list Z)
  : gmap (list Z) Z :=
  let multi := default 0 (edges !! key) in
  <[key := if multi <? kMaxMulti_t then multi + 1 else multi]> edges.

Record emit_state : Type := mkEmit {
  last_j : Z;
  acc_exist : Z;
  e_kmer : list Z;
  e_rev_kmer : list Z;
  edges : gmap (list Z) Z;
  aligned : bool;
  (** the keys incremented so far, oldest first (a log, not in the source) *)
  increments : list (list Z)
}.

(** One iteration of the loop of line 506, at index [j]. *)
Definition emit_round (k s : Z) (R : list Z) (exist : list bool)
    (st : emit_state) (j : Z) : outcome emit_state :=
  e ← exist_get exist j;
  let acc := if (e : bool) then acc_exist st + 1 else 0 in
  if s + 2 <=? acc then
    '(kmer, rev_kmer) ←
      (if j - last_j st <? 8 then
         append_chars_both R ((fun x => x + k - 1) <$> seqZ (last_j st + 1) (j - last_j st))
                           (e_kmer st) (e_rev_kmer st)
       else if j - last_j st <? k + s + 1 then
         kmer ← append_chars R ((fun x => x + k - 1) <$> seqZ (last_j st + 1) (j - last_j st))
                             (e_kmer st);
         Done (kmer, Kmer.ReverseComplement kmer)
       else
         kmer ← append_chars R (seqZ (j - s - 1) (k + s + 1)) (e_kmer st);
         Done (kmer, Kmer.ReverseComplement kmer));
    let key := if Kmer.lt kmer rev_kmer then kmer else rev_kmer in
    Done (mkEmit j acc kmer rev_kmer (increment_edge (edges st) key) true
                 (increments st ++ [key]))
  else
    Done (mkEmit (last_j st) acc (e_kmer st) (e_rev_kmer st) (edges st)
                 (aligned st) (increments st)).

Fixpoint emit_rounds (k s : Z) (R : list Z) (exist : list bool)
    (js : list Z) (st : emit_state) : outcome emit_state :=
  match js with
  | [] => Done st
  | j :: js' =>
      st ← emit_round k s R exist st j;
      emit_rounds k s R exist js' st
  end.

(** Lines 503-542 after phase 1 has ended in [sc]. *)
Definition phase2 (k s : Z) (R : list Z) (sc : scan_state)
    (iter_edges : gmap (list Z) Z) : outcome emit_state :=
  emit_rounds k s R (kmer_exist sc)
    (seqZ 0 (Z.of_nat (length R) - k + 1))
    (mkEmit (- k) 0 (Kmer.resize (kmer sc) (k + s + 1))
            (Kmer.resize (rev_kmer sc) (k + s + 1)) iter_edges false []).

(** The body of the parallel loop over the reads of a package: the new
    map, whether the read is aligned, and the keys it incremented. *)
Definition process_read (k s : Z) (crusial : gmap (list Z) Z)
    (iter_edges : gmap (list Z) Z) (R : list Z)
  : outcome (gmap (list Z) Z * bool * list (list Z)) :=
  if Z.of_nat (length R) <? k + s + 1 then Done (iter_edges, false, [])
  else
    sc ← phase1 k crusial R;
    st ← phase2 k s R sc iter_edges;
    Done (edges st, aligned st, increments st).

(** One package: the reads are scanned (the increments commute, so package
    order is used), then the aligned reads are written to [rr.pb] in read
    order.  The packed form of a read is opaque here: the record written
    is the read. *)
Fixpoint process_read_package (k s : Z) (crusial : gmap (list Z) Z)
    (cur_package : list (list Z)) (iter_edges : gmap (list Z) Z)
  : outcome (gmap (list Z) Z * list (list Z)) :=
  match cur_package with
  | [] => Done (iter_edges, [])
  | R :: rest =>
      '(iter_edges, is_aligned, _) ← process_read k s crusial iter_edges R;
      '(iter_edges, written) ← process_read_package k s crusial rest iter_edges;
      Done (iter_edges, if (is_aligned : bool) then R :: written else written)
  end.

(** The [while (true)] loop of lines 427-562: it is left at the first
    package without reads. *)
Fixpoint read_rounds (k s : Z) (packages : list (list (list Z)))
    (g : IterateGlobalData) : outcome IterateGlobalData :=
  match packages with
  | [] => Done g
  | [] :: _ => Done g
  | cur_package :: rest =>
      '(iter_edges, written) ←
        process_read_package k s (crusial_kmers g) cur_package (iterative_edges g);
      read_rounds k s rest
        (mkGlobals (crusial_kmers g) iter_edges (output_edge_file g)
                   (output_read_file g ++ written))
  end.

(** Lines 565-586: the iterative edges are packed as the first edge of a
    contig is ([get_base(i)] of a key is base [i] of its sequence), in the
    enumeration order of the map. *)
Definition write_iterative_edges (k s : Z) (g : IterateGlobalData)
  : IterateGlobalData :=
  mkGlobals (crusial_kmers g) (iterative_edges g)
    (output_edge_file g ++
       ((fun kv => EdgeWords (assemble_edge k s kv.1 0 kv.2))
          <$> map_to_list (iterative_edges g)))
    (output_read_file g).

Definition ReadReadsAndProcess (k s : Z) (packages : list (list (list Z)))
    (g : IterateGlobalData) : outcome IterateGlobalData :=
  g ← read_rounds k s packages g;
  Done (write_iterative_edges k s g).

(** [main] after [ParseOptions]. *)
Definition run {M : Type} (convert_multiplicity : Z -> Z -> Z -> M -> Z)
    (k s : Z) (primary : list (list (contig M)))
    (addi : option (list (list (contig M))))
    (reads : list (list (list Z))) : outcome IterateGlobalData :=
  ReadReadsAndProcess k s reads
    (contig_passes convert_multiplicity k s primary addi).

(** The packages the read pass processes: those before the first package
    without reads, where the loop of line 427 is left. *)
Fixpoint packages_read (packages : list (list (list Z)))
  : list (list (list Z)) :=
  match packages with
  | [] => []
  | [] :: _ => []
  | cur_package :: rest => cur_package :: packages_read rest
  end.

(** Line 442, [assert(length <= cur_package.max_read_len)], over the whole
    read pass: [true] when it holds of every read of every package
    processed.

    Modelled from the spec: [ReadPackage] is declared outside the sources
    at hand; [cur_package.max_read_len] is the value [init] was given at
    lines 400-401, [globals.max_read_len]. *)
Definition ReadReadsAndProcess_asserts (max_read_len : Z)
    (packages : list (list (list Z))) : bool :=
  forallb (fun R => Z.of_nat (length R) <=? max_read_len)
          (concat (packages_read packages)).

(** How the process ends: through [exit] with a status, through a failed
    [assert] (which aborts), or by reaching [return 0] with the globals the
    passes have left (or failing in a checked access of the read pass). *)
Inductive main_result : Type :=
| Exited (status : Z)
| Aborted
| Returned (r : outcome IterateGlobalData).

(** [main] (lines 127-143).  [files] says which files open; [primary],
    [addi] and [reads] are the packages the readers yield on the primary
    contigs, the additional contigs and the reads.  The additional pass
    runs when [addi_multi_file] is given.  An assert of [InitGlobalData]
    that fails aborts before any pass; the assert of line 442 aborts in the
    read pass, after the contig passes, at the first package with a read
    longer than [max_read_len]. *)
Definition main {M : Type} (convert_multiplicity : Z -> Z -> Z -> M -> Z)
    (files : Files) (max_size omp_max_threads : Z) (o : Options)
    (primary addi : list (list (contig M)))
    (reads : list (list (list Z))) : main_result :=
  match ParseOptions max_size omp_max_threads o with
  | UsageExit _ status => Exited status
  | Parsed o =>
      match InitGlobalData_read_format (read_format o) with
      | None => Exited 1
      | Some _ =>
          if negb (InitGlobalData_asserts files o) then Aborted
          else if negb (ReadReadsAndProcess_asserts (max_read_len o) reads)
          then Aborted
          else
            Returned
              (run convert_multiplicity (kmer_k o) (step o) primary
                   (if is_empty_string (addi_multi_file o) then None
                    else Some addi)
                   reads)
      end
  end.

(** ** Notions used in the statements *)

(** The [n] bases of a sequence from position [p] on. *)
Definition window (R : list Z) (p n : Z) : list Z := CharAt R <$> seqZ p n.

(** The canonical form of a k-mer: the smaller of it and its reverse
    complement. *)
Definition canonical (x : list Z) : list Z :=
  if Kmer.lt x (Kmer.ReverseComplement x) then x
  else Kmer.ReverseComplement x.

(** The states phase 1 can be in at the head of its [while] loop. *)
Inductive reachable (k : Z) (crusial : gmap (list Z) Z) (R : list Z)
  : scan_state -> Prop :=
| reachable_init st :
    scan_init k R = Done st -> reachable k crusial R st
| reachable_round st st' :
    reachable k crusial R st ->
    anchor_round k crusial R st = Done (Continue st') ->
    reachable k crusial R st'.

(** What holds of every such state. *)
Record scan_inv (k : Z) (R : list Z) (st : scan_state) : Prop := mkScanInv {
  inv_guard : 0 <= cur_pos st /\ cur_pos st + k <= Z.of_nat (length R);
  inv_marked : -1 <= last_marked_pos st < cur_pos st;
  inv_length : length (kmer_exist st) = length R;
  inv_fresh : forall i : nat,
      cur_pos st <= Z.of_nat i -> nth i (kmer_exist st) false = false;
  inv_kmer : kmer st = window R (cur_pos st) k;
  inv_rev_kmer : rev_kmer st = Kmer.ReverseComplement (kmer st)
}.

(** The positions at which phase 2 emits an edge, read off the labels: the
    indices [j] of [js] at which the run of labelled positions ending at
    [j] has length at least [s + 2]; [acc] is the length of the run before
    the first index. *)
Fixpoint emit_positions (s : Z) (exist : list bool) (js : list Z) (acc : Z)
  : list Z :=
  match js with
  | [] => []
  | j :: js' =>
      let acc := if nth (Z.to_nat j) exist false then acc + 1 else 0 in
      if s + 2 <=? acc then j :: emit_positions s exist js' acc
      else emit_positions s exist js' acc
  end.

(** The key phase 2 is to increment at index [j]: the canonical form of the
    window of [k + s + 1] bases that ends with the k-mer at [j]. *)
Definition key_at (k s : Z) (R : list Z) (j : Z) : list Z :=
  canonical (window R (j - s - 1) (k + s + 1)).

(** What holds of the state of phase 2 before index [j]. *)
Record emit_inv (k s : Z) (R : list Z) (j : Z) (st : emit_state) : Prop :=
  mkEmitInv {
  ei_kmer_length : length (e_kmer st) = Z.to_nat (k + s + 1);
  ei_rev_kmer_length : length (e_rev_kmer st) = Z.to_nat (k + s + 1);
  ei_acc : 0 <= acc_exist st <= j;
  ei_last : last_j st = - k
            \/ (s + 1 <= last_j st < j
                /\ e_kmer st = window R (last_j st - s - 1) (k + s + 1)
                /\ e_rev_kmer st = Kmer.ReverseComplement (e_kmer st))
}.

(** Every counter of the map is a 16-bit count. *)
Definition counters_bounded (m : gmap (list Z) Z) : Prop :=
  map_Forall (fun _ v => 0 <= v <= kMaxMulti_t) m.

(** The keys a pass over [reads] increments: canonical forms of windows of
    [k + s + 1] bases of these reads. *)
Definition window_keys (k s : Z) (reads : list (list Z))
    (keys : list (list Z)) : Prop :=
  Forall (fun key =>
            exists R p,
              R ∈ reads /\ 0 <= p
              /\ p + (k + s + 1) <= Z.of_nat (length R)
              /\ key = canonical (window R p (k + s + 1)))
         keys.

(** [edges.0] begins with the two header words, [next_k] then the number
    of words per edge, and every later record is an edge. *)
Definition header_exactly_once (k s : Z) (out : list edge_write) : Prop :=
  exists es : list (list Z),
    out = HeaderWord (u32 (k + s))
            :: HeaderWord (u32 (kWordsPerEdge k s))
            :: (EdgeWords <$> es).

(** The words of a packed edge read as one number, word 0 most
    significant. *)
Definition words_value (ws : list Z) : Z :=
  foldl (fun acc w => acc * 2 ^ 32 + w) 0 ws.

(** Every word is a 32-bit pattern. *)
Definition words_ok (ws : list Z) : Prop :=
  Forall (fun w => 0 <= w < 2 ^ 32) ws.

(** The bases of a window as one number, the first base least
    significant: the packed edge holds the window last base first. *)
Fixpoint le4 (cs : list Z) : Z :=
  match cs with
  | [] => 0
  | c :: cs' => c + 4 * le4 cs'
  end.

(** Every base is one of the four symbols. *)
Definition bases_ok (cs : list Z) : Prop :=
  Forall (fun c => 0 <= c < 4) cs.

(** The 2-bit field [i] of a packed edge, addressed as line 361 addresses
    the field it clears: word [i / 16], bits [(15 - i % 16) * 2] and the
    next. *)
Definition edge_slot (packed_edge : list Z) (i : Z) : Z :=
  Z.land (Z.shiftr (packed_edge !!! Z.to_nat (i / 16)) ((15 - i mod 16) * 2)) 3.

(** The multiplicity field of a packed edge: the low sixteen bits of its
    last word, as the asserts of lines 368 and 583 mask them. *)
Definition edge_multiplicity (packed_edge : list Z) : Z :=
  Z.land (packed_edge !!! (length packed_edge - 1)%nat) kMaxMulti_t.

(** The edge records of a list of contigs, contig by contig. *)
Definition contig_records {M : Type}
    (convert_multiplicity : Z -> Z -> Z -> M -> Z) (k s : Z)
    (contigs : list (contig M)) : list (list Z) :=
  contigs ≫= (fun c =>
    contig_edges k s (seq c)
      (convert_multiplicity k s (Z.of_nat (length (seq c)))
                            (multiplicity_prev c))).

(** An entry of the crucial-k-mer map that an end of the contig [seq]
    accounts for. *)
Definition crusial_entry (k s : Z) (seq x : list Z) (v : Z) : Prop :=
  (k <= Z.of_nat (length seq)
   /\ x = prefix_kmer k seq /\ v = prefix_hint k s seq)
  \/ (k < Z.of_nat (length seq)
      /\ x = suffix_rc_kmer k seq /\ v = suffix_rc_hint k s seq).

(** No k-mer of the read, in either strand, is a key of the map. *)
Definition no_anchor (k : Z) (crusial : gmap (list Z) Z) (R : list Z) : Prop :=
  forall p, 0 <= p -> p + k <= Z.of_nat (length R) ->
    crusial !! window R p k = None
    /\ crusial !! Kmer.ReverseComplement (window R p k) = None.

(** The keys a read increments, read off its run on the empty map. *)
Definition read_increments (k s : Z) (crusial : gmap (list Z) Z)
    (R : list Z) : list (list Z) :=
  match process_read k s crusial ∅ R with
  | Done (_, _, keys) => keys
  | _ => []
  end.

(** How often [x] occurs in a list of keys. *)
Definition occurrences (x : list Z) (keys : list (list Z)) : Z :=
  Z.of_nat (length (filter (fun y => y = x) keys)).

(** The [s + 2] positions [j - s - 1 .. j] are all labelled. *)
Definition run_labelled (exist : list bool) (s j : Z) : Prop :=
  forall i, j - s - 1 <= i <= j -> nth (Z.to_nat i) exist false = true.

(** What [acc_exist] holds before index [j0]: the length of the run of
    labelled positions that ends just before [j0]. *)
Definition run_before (exist : list bool) (j0 acc : Z) : Prop :=
  0 <= acc <= j0
  /\ (forall i, j0 - acc <= i < j0 -> nth (Z.to_nat i) exist false = true)
  /\ (acc < j0 -> nth (Z.to_nat (j0 - acc - 1)) exist false = false).

(** A k-mer of one of the contigs, in either strand. *)
Definition contig_kmer {M : Type} (k : Z) (contigs : list (contig M))
    (x : list Z) : Prop :=
  exists c a,
    c ∈ contigs /\ 0 <= a /\ a + k <= Z.of_nat (length (seq c))
    /\ (x = window (seq c) a k
        \/ x = Kmer.ReverseComplement (window (seq c) a k)).

(** Every entry of the map is accounted for by an end of one of the
    contigs. *)
Definition crusial_from {M : Type} (k s : Z) (contigs : list (contig M))
    (crusial : gmap (list Z) Z) : Prop :=
  forall x v, crusial !! x = Some v ->
    exists c, c ∈ contigs /\ bases_ok (seq c) /\ crusial_entry k s (seq c) x v.

(** Every label stands on a k-mer of a contig. *)
Definition labels_sound {M : Type} (k : Z) (contigs : list (contig M))
    (R : list Z) (exist : list bool) : Prop :=
  forall q : nat,
    nth q exist false = true -> contig_kmer k contigs (window R (Z.of_nat q) k).

(** The multiplicity of section 4.3 of the spec, in the spec's words and
    in exact arithmetic: [n_k = L - k + 1], [n' = L - (k + s + 1) + 1],
    [W = s + 2], [M = min(W, n')], [E = M - 1], [I = n_k - 2 E]; the number
    that is rounded, and its rounding to the nearest integer (a half goes
    up) capped at [MULTI_MAX]. *)
Definition spec_expected (k s L : Z) (m_k : Q) : Q :=
  let n_k := L - k + 1 in
  let n' := L - (k + s + 1) + 1 in
  let W := s + 2 in
  let M := Z.min W n' in
  let E := M - 1 in
  let I := n_k - 2 * E in
  ((inject_Z (E * (E + 1)) / inject_Z W
    + (inject_Z M / inject_Z W) * inject_Z I)
   * m_k * inject_Z k / inject_Z ((k + s + 1) * n'))%Q.

Definition spec_round (q : Q) : Z := Qfloor (q + (1 # 2))%Q.

Definition spec_multiplicity (k s L : Z) (m_k : Q) : Z :=
  Z.min kMaxMulti_t (spec_round (spec_expected k s L m_k)).

(** ** Concrete inputs *)

(** Every file opens. *)
Definition files_all_open : Files :=
  mkFiles (fun _ => true) true (fun _ => true).

(** Options with [step = 30], everything else in order. *)
Definition options_step_30 : Options :=
  mkOptions "contigs.fa" "contigs.multi" EmptyString EmptyString
            "reads.fq" "fastq" 8 21 30 100 "out".

(** Seven bases, for [k = 1] and [s = 4]; four bases, for [k = 1] and
    [s = 2]. *)
Definition contig_ACGTACG : list Z := [0; 1; 2; 3; 0; 1; 2].
Definition contig_ACGT : list Z := [0; 1; 2; 3].

(** A conversion for examples whose multiplicities are already 16-bit
    counts. *)
Definition keep_multiplicity (k s len m : Z) : Z := Z.min m kMaxMulti_t.

(** The contig [AAACCCGGG] and the read [AAACCCGG], its first eight bases
    ([k = 3], [s = 1]). *)
Definition contig_AAACCCGGG : list Z := [0; 0; 0; 1; 1; 1; 2; 2; 2].
Definition read_AAACCCGG : list Z := [0; 0; 0; 1; 1; 1; 2; 2].

(** The contig [ACTGAATCGGCATTAG] and the read [TGAATCG], its bases 2 to 8:
    no k-mer of the read is at an end of the contig. *)
Definition contig_ACTGAATCGGCATTAG : list Z :=
  [0; 1; 3; 2; 0; 0; 3; 1; 2; 2; 1; 0; 3; 3; 0; 2].
Definition read_TGAATCG : list Z := [3; 2; 0; 0; 3; 1; 2].

(** The contig [AAAA] and the read [AAAAA]: every k-mer of the read is the
    leading k-mer of the contig. *)
Definition contig_AAAA : list Z := [0; 0; 0; 0].
Definition read_AAAAA : list Z := [0; 0; 0; 0; 0].

(** The contig [ACTGAA] and a read [CTGAAA] that runs over its end. *)
Definition contig_ACTGAA : list Z := [0; 1; 3; 2; 0; 0].
Definition read_CTGAAA : list Z := [1; 3; 2; 0; 0; 0].

(** A contig of exactly [k = 3] bases, [AAC]. *)
Definition contig_AAC : list Z := [0; 0; 1].

(** The state of phase 1 on [CTGAAA] at position 2, where the k-mer
    [GAA] is the trailing k-mer of the contig. *)
Definition scan_at_GAA : scan_state :=
  mkScan 2 (-1) (replicate 6 false) [2; 0; 0] [3; 3; 1].

(** The crucial k-mers of a single primary contig. *)
Definition crusial_of (k s : Z) (c : list Z) : gmap (list Z) Z :=
  crusial_kmers
    (contig_passes keep_multiplicity k s [[mkContig c 5]] None).

(** * Properties *)

(** ** K-mer algebra *)

Lemma ShiftAppend_drop (kmer : list Z) (c : Z) :
  Kmer.ShiftAppend kmer c = drop 1 (kmer ++ [c]).
Proof. destruct kmer; reflexivity. Qed.

Lemma ShiftPreappend_take (kmer : list Z) (c : Z) :
  Kmer.ShiftPreappend kmer c = take (length kmer) (c :: kmer).
Proof.
  destruct kmer as [|x kmer]; [reflexivity|].
  unfold Kmer.ShiftPreappend.
  rewrite (removelast_firstn_len (x :: kmer)). reflexivity.
Qed.

Lemma length_ShiftAppend (kmer : list Z) (c : Z) :
  length (Kmer.ShiftAppend kmer c) = length kmer.
Proof. destruct kmer; cbn; [reflexivity|]. rewrite length_app. cbn. lia. Qed.

Lemma length_ReverseComplement (kmer : list Z) :
  length (Kmer.ReverseComplement kmer) = length kmer.
Proof. unfold Kmer.ReverseComplement. now rewrite length_map, length_rev. Qed.

Lemma ReverseComplement_involutive (kmer : list Z) :
  Kmer.ReverseComplement (Kmer.ReverseComplement kmer) = kmer.
Proof.
  unfold Kmer.ReverseComplement.
  rewrite <- map_rev, rev_involutive, map_map.
  rewrite <- (map_id kmer) at 2. apply map_ext. intros; lia.
Qed.

Lemma ReverseComplement_app (a b : list Z) :
  Kmer.ReverseComplement (a ++ b)
  = Kmer.ReverseComplement b ++ Kmer.ReverseComplement a.
Proof. unfold Kmer.ReverseComplement. now rewrite rev_app_distr, map_app. Qed.

(** Appending on the one strand is prepending the complement on the
    other. *)
Lemma ReverseComplement_ShiftAppend (kmer : list Z) (c : Z) :
  Kmer.ReverseComplement (Kmer.ShiftAppend kmer c)
  = Kmer.ShiftPreappend (Kmer.ReverseComplement kmer) (3 - c).
Proof.
  rewrite ShiftPreappend_take, length_ReverseComplement.
  destruct kmer as [|x kmer]; [reflexivity|].
  cbn [Kmer.ShiftAppend].
  change (x :: kmer) with ([x] ++ kmer).
  rewrite !ReverseComplement_app.
  change (Kmer.ReverseComplement [c]) with [3 - c].
  cbn [app length take]. f_equal.
  rewrite <- (length_ReverseComplement kmer).
  now rewrite take_app_length.
Qed.

Lemma foldl_ShiftAppend (cs kmer : list Z) :
  foldl Kmer.ShiftAppend kmer cs = drop (length cs) (kmer ++ cs).
Proof.
  revert kmer. induction cs as [|c cs IH]; intros kmer; cbn [foldl length].
  - now rewrite app_nil_r.
  - rewrite IH, ShiftAppend_drop.
    destruct kmer as [|x kmer]; cbn [app drop]; [reflexivity|].
    now rewrite drop_0, <- app_assoc.
Qed.

Lemma length_resize (kmer : list Z) (n : Z) :
  length (Kmer.resize kmer n) = Z.to_nat n.
Proof.
  unfold Kmer.resize. rewrite length_take, length_app, length_replicate. lia.
Qed.

Lemma length_make (n : Z) : length (Kmer.make n) = Z.to_nat n.
Proof. apply length_replicate. Qed.

(** The order is asymmetric. *)
Lemma lt_asym (a b : list Z) : Kmer.lt a b = true -> Kmer.lt b a = false.
Proof.
  revert b. induction a as [|x a IH]; intros [|y b]; cbn; try congruence.
  destruct (Z.ltb_spec x y), (Z.ltb_spec y x); try congruence; try lia.
  apply IH.
Qed.

Lemma canonical_le_rc (x : list Z) :
  Kmer.le (canonical x) (Kmer.ReverseComplement (canonical x)) = true.
Proof.
  unfold canonical, Kmer.le.
  destruct (Kmer.lt x (Kmer.ReverseComplement x)) eqn:E.
  - now rewrite (lt_asym _ _ E).
  - now rewrite ReverseComplement_involutive, E.
Qed.
(** ** Checked accesses and windows *)

Lemma read_CharAt_in (R : list Z) (j : Z) :
  0 <= j < Z.of_nat (length R) -> read_CharAt R j = Done (CharAt R j).
Proof.
  intros H. unfold read_CharAt, in_range.
  destruct (Z.leb_spec 0 j), (Z.ltb_spec j (Z.of_nat (length R))); try lia.
  reflexivity.
Qed.

Lemma exist_get_in (e : list bool) (j : Z) :
  0 <= j < Z.of_nat (length e) ->
  exist_get e j = Done (nth (Z.to_nat j) e false).
Proof.
  intros H. unfold exist_get, in_range.
  destruct (Z.leb_spec 0 j), (Z.ltb_spec j (Z.of_nat (length e))); try lia.
  reflexivity.
Qed.

Lemma exist_set_in (e : list bool) (j : Z) :
  0 <= j < Z.of_nat (length e) ->
  exist_set e j = Done (<[Z.to_nat j := true]> e).
Proof.
  intros H. unfold exist_set, in_range.
  destruct (Z.leb_spec 0 j), (Z.ltb_spec j (Z.of_nat (length e))); try lia.
  reflexivity.
Qed.

Lemma nth_insert_true (e : list bool) (i j : nat) :
  (j < length e)%nat ->
  nth i (<[j := true]> e) false = (if decide (i = j) then true else nth i e false).
Proof.
  intros H. rewrite !nth_lookup.
  destruct (decide (i = j)) as [->|Hne].
  - now rewrite list_lookup_insert_eq.
  - now rewrite list_lookup_insert_ne.
Qed.

Lemma append_chars_spec (R xs kmer : list Z) :
  Forall (fun x => 0 <= x < Z.of_nat (length R)) xs ->
  append_chars R xs kmer
  = Done (foldl Kmer.ShiftAppend kmer (CharAt R <$> xs)).
Proof.
  intros H. revert kmer. induction H as [|x xs Hx _ IH]; intros kmer.
  - reflexivity.
  - cbn [append_chars]. rewrite (read_CharAt_in _ _ Hx). cbn. apply IH.
Qed.

Lemma append_chars_both_spec (R xs kmer rev_kmer : list Z) :
  Forall (fun x => 0 <= x < Z.of_nat (length R)) xs ->
  append_chars_both R xs kmer rev_kmer
  = Done (foldl Kmer.ShiftAppend kmer (CharAt R <$> xs),
          foldl Kmer.ShiftPreappend rev_kmer
                ((fun x => 3 - CharAt R x) <$> xs)).
Proof.
  intros H. revert kmer rev_kmer.
  induction H as [|x xs Hx _ IH]; intros kmer rev_kmer.
  - reflexivity.
  - cbn [append_chars_both]. rewrite (read_CharAt_in _ _ Hx). cbn. apply IH.
Qed.

(** Maintained in step, the second strand stays the reverse complement of
    the first. *)
Lemma foldl_both_ReverseComplement (f : Z -> Z) (xs kmer : list Z) :
  foldl Kmer.ShiftPreappend (Kmer.ReverseComplement kmer)
        ((fun x => 3 - f x) <$> xs)
  = Kmer.ReverseComplement (foldl Kmer.ShiftAppend kmer (f <$> xs)).
Proof.
  revert kmer. induction xs as [|x xs IH]; intros kmer; [reflexivity|].
  cbn [fmap list_fmap foldl].
  rewrite <- ReverseComplement_ShiftAppend. apply IH.
Qed.

Lemma foldl_ShiftPreappend (ds rev_kmer : list Z) :
  foldl Kmer.ShiftPreappend rev_kmer ds
  = take (length rev_kmer) (rev ds ++ rev_kmer).
Proof.
  revert rev_kmer. induction ds as [|d ds IH]; intros rev_kmer.
  - cbn. now rewrite firstn_all.
  - cbn [foldl rev]. rewrite IH, ShiftPreappend_take.
    rewrite length_take. cbn [length].
    rewrite Nat.min_l by lia.
    rewrite <- app_assoc. cbn [app].
    destruct (le_lt_dec (length rev_kmer) (length (rev ds))) as [Hle|Hlt].
    + rewrite !take_app_le by lia. reflexivity.
    + rewrite !take_app_ge by lia. f_equal.
      rewrite take_take. f_equal. lia.
Qed.

Lemma window_app (R : list Z) (a m1 m2 : Z) :
  0 <= m1 -> 0 <= m2 ->
  window R a (m1 + m2) = window R a m1 ++ window R (a + m1) m2.
Proof.
  intros H1 H2. unfold window. now rewrite seqZ_app, fmap_app.
Qed.

Lemma length_window (R : list Z) (a m : Z) :
  length (window R a m) = Z.to_nat m.
Proof. unfold window. now rewrite length_fmap, length_seqZ. Qed.

Lemma drop_window (R : list Z) (a m i : Z) :
  0 <= i <= m ->
  drop (Z.to_nat i) (window R a m) = window R (a + i) (m - i).
Proof.
  intros H. replace m with (i + (m - i)) at 1 by lia.
  rewrite window_app by lia.
  rewrite <- (length_window R a i) at 1. apply drop_app_length.
Qed.

(** A window is the corresponding substring. *)
Lemma window_substring (R : list Z) (a m : Z) :
  0 <= a -> 0 <= m -> a + m <= Z.of_nat (length R) ->
  window R a m = take (Z.to_nat m) (drop (Z.to_nat a) R).
Proof.
  intros Ha Hm Hl. apply list_eq. intros i.
  unfold window. rewrite list_lookup_fmap.
  destruct (decide (Z.of_nat i < m)) as [Hi|Hi].
  - rewrite lookup_seqZ_lt by lia. cbn.
    rewrite lookup_take_lt by lia. rewrite lookup_drop.
    unfold CharAt. rewrite nth_lookup.
    replace (Z.to_nat (a + Z.of_nat i)) with (Z.to_nat a + i)%nat by lia.
    destruct (lookup_lt_is_Some_2 R (Z.to_nat a + i)) as [x Hx]; [lia|].
    now rewrite Hx.
  - rewrite lookup_seqZ_ge by lia. cbn.
    symmetry. apply lookup_ge_None. rewrite length_take. lia.
Qed.

Lemma seqZ_in_range (R : list Z) (a m : Z) :
  0 <= a -> a + m <= Z.of_nat (length R) ->
  Forall (fun x => 0 <= x < Z.of_nat (length R)) (seqZ a m).
Proof. intros Ha Hm. apply Forall_seqZ. intros; lia. Qed.

Lemma fmap_shift_seqZ (d a m : Z) :
  (fun x => x + d) <$> seqZ a m = seqZ (a + d) m.
Proof.
  transitivity (Z.add d <$> seqZ a m).
  - apply list_fmap_ext. intros; lia.
  - now rewrite fmap_add_seqZ, Z.add_comm.
Qed.
(** ** Phase 1: the matching loops *)

Lemma hint_length_bound (s_seq : Z) : 0 <= hint_length s_seq < 64.
Proof.
  unfold hint_length. change 63 with (Z.ones 6).
  rewrite Z.land_ones by lia. apply Z.mod_pos_bound. lia.
Qed.

(** The forward loop ends, stays inside the read and the vector, and labels
    nothing beyond [p + j']. *)
Lemma forward_match_total (fuel : nat) (k : Z) (R : list Z) (p s_seq j : Z)
    (exist : list bool) :
  0 < k -> 0 <= p -> 0 <= j ->
  length exist = length R ->
  hint_length s_seq - j < Z.of_nat fuel ->
  exists j' exist',
    forward_match fuel k R p s_seq j exist = Done (j', exist')
    /\ j <= j'
    /\ length exist' = length R
    /\ (forall i : nat, p + j' < Z.of_nat i ->
          nth i exist' false = nth i exist false).
Proof.
  intros Hk Hp. revert j exist.
  induction fuel as [|fuel IH]; intros j exist Hj Hlen Hfuel.
  - cbn [forward_match].
    destruct (Z.ltb_spec j (hint_length s_seq)); [lia|]. cbn.
    exists j, exist. repeat split; auto; lia.
  - cbn [forward_match].
    destruct ((j <? hint_length s_seq) && (p + k + j <? Z.of_nat (length R)))
      eqn:Hcond.
    2:{ exists j, exist. repeat split; auto; lia. }
    apply andb_true_iff in Hcond as [_ Hin%Z.ltb_lt].
    rewrite read_CharAt_in by lia. cbn.
    destruct (CharAt R (p + k + j) =? hint_base s_seq j).
    2:{ exists j, exist. repeat split; auto; lia. }
    rewrite exist_set_in by lia. cbn.
    destruct (IH (j + 1) (<[Z.to_nat (p + j + 1) := true]> exist))
      as (j' & exist' & Hrun & Hle & Hlen' & Hfresh);
      [lia | now rewrite length_insert | lia |].
    exists j', exist'. repeat split; auto; try lia.
    intros i Hi. rewrite Hfresh by lia.
    rewrite nth_insert_true by lia.
    destruct (decide (i = Z.to_nat (p + j + 1))); [lia | reflexivity].
Qed.

(** The backward loop, in full: it ends at some [j'], having seen a match
    at every [j < j'] above [last_marked], and stops for one of the three
    reasons; the positions [p - j' .. p - 1 - j] are the new labels. *)
Lemma backward_match_spec (fuel : nat) (R : list Z) (p last_marked s_seq j : Z)
    (exist : list bool) :
  -1 <= last_marked -> p <= Z.of_nat (length R) -> 0 <= j ->
  length exist = length R ->
  hint_length s_seq - j < Z.of_nat fuel ->
  exists j' exist',
    backward_match fuel R p last_marked s_seq j exist = Done (j', exist')
    /\ j <= j'
    /\ (forall i, j <= i < j' ->
          i < hint_length s_seq /\ last_marked < p - 1 - i
          /\ hint_base s_seq i = 3 - CharAt R (p - 1 - i))
    /\ (hint_length s_seq <= j' \/ p - 1 - j' <= last_marked
        \/ hint_base s_seq j' <> 3 - CharAt R (p - 1 - j'))
    /\ length exist' = length R
    /\ (forall i : nat,
          nth i exist' false
          = (if decide (p - j' <= Z.of_nat i <= p - 1 - j) then true
             else nth i exist false)).
Proof.
  intros Hlm Hp. revert j exist.
  induction fuel as [|fuel IH]; intros j exist Hj Hlen Hfuel.
  - cbn [backward_match].
    destruct (Z.ltb_spec j (hint_length s_seq)); [lia|]. cbn.
    exists j, exist. repeat split; auto; try lia.
    intros i. destruct (decide _); [lia | reflexivity].
  - cbn [backward_match].
    destruct ((j <? hint_length s_seq) && (last_marked <? p - 1 - j))
      eqn:Hcond.
    2:{ exists j, exist. repeat split; auto; try lia.
        intros i. destruct (decide _); [lia | reflexivity]. }
    apply andb_true_iff in Hcond as [Hjl%Z.ltb_lt Hin%Z.ltb_lt].
    rewrite read_CharAt_in by lia. cbn.
    destruct (Z.eqb_spec (3 - CharAt R (p - 1 - j)) (hint_base s_seq j))
      as [Heq|Hne].
    2:{ exists j, exist. repeat split; auto; try lia.
        intros i. destruct (decide _); [lia | reflexivity]. }
    rewrite exist_set_in by lia. cbn.
    destruct (IH (j + 1) (<[Z.to_nat (p - 1 - j) := true]> exist))
      as (j' & exist' & Hrun & Hle & Hall & Hstop & Hlen' & Hnth);
      [lia | now rewrite length_insert | lia |].
    exists j', exist'.
    split; [exact Hrun|]. split; [lia|]. split.
    { intros i Hi. destruct (decide (i = j)) as [->|Hne].
      - repeat split; [lia | lia | congruence].
      - apply Hall; lia. }
    split; [exact Hstop|]. split; [exact Hlen'|].
    intros i. rewrite Hnth, nth_insert_true by lia.
    repeat destruct (decide _); try reflexivity; lia.
Qed.
(** ** Phase 1: the invariant of the [while] loop *)

Lemma window_ShiftAppend (R : list Z) (p k : Z) :
  0 <= k ->
  Kmer.ShiftAppend (window R p k) (CharAt R (p + k)) = window R (p + 1) k.
Proof.
  intros Hk. rewrite ShiftAppend_drop.
  change [CharAt R (p + k)] with (window R (p + k) 1).
  rewrite <- window_app by lia.
  change 1%nat with (Z.to_nat 1). rewrite drop_window by lia.
  f_equal. lia.
Qed.

Lemma fill_from_make (R : list Z) (a n : Z) :
  foldl Kmer.ShiftAppend (Kmer.make n) (window R a n) = window R a n.
Proof.
  rewrite foldl_ShiftAppend, length_window, <- (length_make n).
  apply drop_app_length.
Qed.

Lemma scan_init_inv (k : Z) (R : list Z) :
  0 < k -> k <= Z.of_nat (length R) ->
  exists st, scan_init k R = Done st /\ scan_inv k R st.
Proof.
  intros Hk HL. unfold scan_init.
  rewrite append_chars_spec by (apply seqZ_in_range; lia). cbn.
  eexists. split; [reflexivity|].
  constructor; cbn; try lia.
  - apply length_replicate.
  - intros i _. rewrite nth_lookup.
    destruct (replicate (length R) false !! i) eqn:E; [|reflexivity].
    apply lookup_replicate in E as [-> _]. reflexivity.
  - apply fill_from_make.
  - reflexivity.
Qed.

Lemma advance_spec (fuel : nat) (k : Z) (R : list Z) (next_pos : Z)
    (st : scan_state) :
  0 <= k -> 0 <= cur_pos st <= next_pos ->
  next_pos + k <= Z.of_nat (length R) ->
  next_pos - cur_pos st <= Z.of_nat fuel ->
  kmer st = window R (cur_pos st) k ->
  rev_kmer st = Kmer.ReverseComplement (kmer st) ->
  advance fuel k R next_pos st
  = Done (mkScan next_pos (last_marked_pos st) (kmer_exist st)
                 (window R next_pos k)
                 (Kmer.ReverseComplement (window R next_pos k))).
Proof.
  intros Hk. revert st.
  induction fuel as [|fuel IH]; intros st Hp HL Hfuel Hkm Hrev.
  - cbn [advance]. destruct (Z.ltb_spec (cur_pos st) next_pos); [lia|].
    assert (cur_pos st = next_pos) as Heq by lia.
    destruct st; cbn in *; subst. reflexivity.
  - cbn [advance]. destruct (Z.ltb_spec (cur_pos st) next_pos).
    + rewrite read_CharAt_in by lia. cbn.
      replace (cur_pos st + 1 + k - 1) with (cur_pos st + k) by lia.
      rewrite IH; cbn; try lia.
      * reflexivity.
      * rewrite Hkm. apply window_ShiftAppend; lia.
      * rewrite Hrev. symmetry. apply ReverseComplement_ShiftAppend.
    + assert (cur_pos st = next_pos) as Heq by lia.
      destruct st; cbn in *; subst. reflexivity.
Qed.

(** The probe of a state at the loop head: it stays in bounds, leaves the
    two strands alone, labels nothing at or beyond the next probe position
    and keeps [last_marked_pos] below it. *)
Lemma probe_total (k : Z) (crusial : gmap (list Z) Z) (R : list Z)
    (st : scan_state) :
  0 < k -> scan_inv k R st ->
  exists exist' last_marked' next_pos,
    probe k crusial R st
    = Done (mkScan (cur_pos st) last_marked' exist' (kmer st) (rev_kmer st),
            next_pos)
    /\ cur_pos st < next_pos
    /\ -1 <= last_marked' < next_pos
    /\ length exist' = length R
    /\ (forall i : nat, next_pos <= Z.of_nat i -> nth i exist' false = false).
Proof.
  intros Hk [[Hp HL] Hlm Hlen Hfresh Hkm Hrev].
  unfold probe. rewrite exist_get_in by lia.
  rewrite Hfresh by lia. cbn [mbind outcome_bind].
  destruct (crusial !! kmer st) as [s_seq|] eqn:Efwd.
  - rewrite exist_set_in by lia. cbn [mbind outcome_bind].
    destruct (forward_match_total 64 k R (cur_pos st) s_seq 0
                (<[Z.to_nat (cur_pos st) := true]> (kmer_exist st)))
      as (j' & exist' & Hrun & Hle & Hlen' & Hfr); try lia.
    { now rewrite length_insert. }
    { pose proof (hint_length_bound s_seq). lia. }
    rewrite Hrun. cbn [mbind outcome_bind].
    exists exist', (cur_pos st + j'), (cur_pos st + j' + 1).
    split; [reflexivity|]. repeat split; try lia.
    intros i Hi. rewrite Hfr by lia.
    rewrite nth_insert_true by lia.
    destruct (decide _); [lia|]. apply Hfresh. lia.
  - destruct (crusial !! rev_kmer st) as [s_seq|] eqn:Erev.
    + rewrite exist_set_in by lia. cbn [mbind outcome_bind].
      destruct (backward_match_spec 64 R (cur_pos st) (last_marked_pos st)
                  s_seq 0 (<[Z.to_nat (cur_pos st) := true]> (kmer_exist st)))
        as (j' & exist' & Hrun & Hle & _ & _ & Hlen' & Hnth); try lia.
      { now rewrite length_insert. }
      { pose proof (hint_length_bound s_seq). lia. }
      rewrite Hrun. cbn [mbind outcome_bind].
      exists exist', (last_marked_pos st), (cur_pos st + 1).
      split; [reflexivity|]. repeat split; try lia.
      intros i Hi. rewrite Hnth, nth_insert_true by lia.
      repeat destruct (decide _); try lia. apply Hfresh. lia.
    + exists (kmer_exist st), (last_marked_pos st), (cur_pos st + 1).
      destruct st; cbn in *.
      split; [reflexivity|]. repeat split; try lia.
      intros i Hi. apply Hfresh. lia.
Qed.

Lemma anchor_round_inv (k : Z) (crusial : gmap (list Z) Z) (R : list Z)
    (st : scan_state) :
  0 < k -> scan_inv k R st ->
  exists r, anchor_round k crusial R st = Done r
    /\ match r with
       | Continue st' => scan_inv k R st' /\ cur_pos st < cur_pos st'
       | Break st' => length (kmer_exist st') = length R
       end.
Proof.
  intros Hk Hinv.
  destruct (probe_total k crusial R st Hk Hinv)
    as (exist' & lm' & next_pos & Hprobe & Hnext & Hlm' & Hlen' & Hfresh').
  destruct Hinv as [[Hp HL] Hlm Hlen Hfresh Hkm Hrev].
  unfold anchor_round. rewrite Hprobe. cbn.
  destruct (Z.leb_spec (next_pos + k) (Z.of_nat (length R))) as [Hin|Hout].
  - rewrite advance_spec; cbn; try lia; auto.
    eexists. split; [reflexivity|]. cbn. split; [|lia].
    constructor; cbn; auto; lia.
  - eexists. split; [reflexivity|]. exact Hlen'.
Qed.

Lemma reachable_inv (k : Z) (crusial : gmap (list Z) Z) (R : list Z)
    (st : scan_state) :
  0 < k -> k <= Z.of_nat (length R) ->
  reachable k crusial R st -> scan_inv k R st.
Proof.
  intros Hk HL Hreach. induction Hreach as [st Hinit|st st' _ IH Hround].
  - destruct (scan_init_inv k R Hk HL) as (st0 & Hst0 & Hinv). congruence.
  - destruct (anchor_round_inv k crusial R st Hk IH) as (r & Hr & Hpost).
    rewrite Hround in Hr. injection Hr as <-. apply Hpost.
Qed.

Lemma label_anchors_total (fuel : nat) (k : Z) (crusial : gmap (list Z) Z)
    (R : list Z) (st : scan_state) :
  0 < k -> scan_inv k R st ->
  Z.of_nat (length R) - k - cur_pos st < Z.of_nat fuel ->
  exists st', label_anchors fuel k crusial R st = Done st'
    /\ length (kmer_exist st') = length R.
Proof.
  intros Hk. revert st.
  induction fuel as [|fuel IH]; intros st Hinv Hfuel.
  - destruct Hinv as [[Hp HL] _ _ _ _ _]. lia.
  - cbn [label_anchors].
    destruct (Z.leb_spec (cur_pos st + k) (Z.of_nat (length R))) as [Hin|Hout].
    2:{ destruct Hinv as [[Hp HL] _ _ _ _ _]. lia. }
    destruct (anchor_round_inv k crusial R st Hk Hinv) as (r & Hr & Hpost).
    rewrite Hr. cbn. destruct r as [st'|st'].
    + destruct Hpost as [Hinv' Hlt]. apply IH; [exact Hinv'|lia].
    + eexists. split; [reflexivity|exact Hpost].
Qed.

Lemma phase1_total (k : Z) (crusial : gmap (list Z) Z) (R : list Z) :
  0 < k -> k <= Z.of_nat (length R) ->
  exists sc, phase1 k crusial R = Done sc
    /\ length (kmer_exist sc) = length R.
Proof.
  intros Hk HL. unfold phase1.
  destruct (scan_init_inv k R Hk HL) as (st & Hst & Hinv).
  rewrite Hst. cbn [mbind outcome_bind].
  apply label_anchors_total; [exact Hk|exact Hinv|].
  destruct Hinv as [[Hp _] _ _ _ _ _]. lia.
Qed.
(** ** Phase 2: re-synchronising the two strands *)

Lemma take_ReverseComplement (n : nat) (cs : list Z) :
  take n (Kmer.ReverseComplement cs)
  = Kmer.ReverseComplement (drop (length cs - n) cs).
Proof.
  unfold Kmer.ReverseComplement.
  rewrite <- fmap_take. change (@fmap list _ _ _ ?f ?l) with (map f l).
  f_equal. apply firstn_rev.
Qed.

(** Shifting a run of the read into a k-mer of [n] bases yields the last
    [n] bases of the run when the run has at least [n] bases ... *)
Lemma refill_long (R kmer : list Z) (a m n : Z) :
  length kmer = Z.to_nat n -> 0 <= n <= m ->
  foldl Kmer.ShiftAppend kmer (window R a m) = window R (a + m - n) n.
Proof.
  intros Hlen Hn. rewrite foldl_ShiftAppend, length_window.
  replace (Z.to_nat m) with (length kmer + Z.to_nat (m - n))%nat by lia.
  rewrite <- drop_drop, drop_app_length, drop_window by lia.
  f_equal; lia.
Qed.

(** ... and also when the k-mer held the [n] bases just before the run. *)
Lemma refill_slide (R : list Z) (a m n : Z) :
  0 <= n -> 0 <= m ->
  foldl Kmer.ShiftAppend (window R (a - n) n) (window R a m)
  = window R (a + m - n) n.
Proof.
  intros Hn Hm. rewrite foldl_ShiftAppend, length_window.
  replace (window R a m) with (window R (a - n + n) m) by (f_equal; lia).
  rewrite <- window_app, drop_window by lia.
  f_equal; lia.
Qed.

Lemma refill_rev_long (R rev_kmer : list Z) (a m n : Z) :
  length rev_kmer = Z.to_nat n -> 0 <= n <= m ->
  foldl Kmer.ShiftPreappend rev_kmer
        ((fun x => 3 - CharAt R x) <$> seqZ a m)
  = Kmer.ReverseComplement (window R (a + m - n) n).
Proof.
  intros Hlen Hn. rewrite foldl_ShiftPreappend.
  replace (rev ((fun x => 3 - CharAt R x) <$> seqZ a m))
    with (Kmer.ReverseComplement (window R a m)).
  2:{ unfold Kmer.ReverseComplement, window.
      rewrite map_rev. f_equal.
      change (map ?f ?l) with (f <$> l). now rewrite <- list_fmap_compose. }
  rewrite take_app_le
    by (rewrite length_ReverseComplement, length_window; lia).
  rewrite take_ReverseComplement, length_window, Hlen.
  replace (Z.to_nat m - Z.to_nat n)%nat with (Z.to_nat (m - n)) by lia.
  rewrite drop_window by lia. do 2 f_equal; lia.
Qed.

(** ** Phase 2: one round *)

Lemma emit_inv_resize (k s : Z) (R : list Z) (sc : scan_state)
    (iter_edges : gmap (list Z) Z) :
  emit_inv k s R 0
    (mkEmit (- k) 0 (Kmer.resize (kmer sc) (k + s + 1))
            (Kmer.resize (rev_kmer sc) (k + s + 1)) iter_edges false []).
Proof.
  constructor; cbn; try apply length_resize; [lia | now left].
Qed.

Lemma emit_round_spec (k s : Z) (R : list Z) (exist : list bool)
    (st : emit_state) (j : Z) :
  0 < k -> 0 <= s ->
  0 <= j -> j + k <= Z.of_nat (length R) ->
  length exist = length R ->
  emit_inv k s R j st ->
  let acc := if nth (Z.to_nat j) exist false then acc_exist st + 1 else 0 in
  exists st',
    emit_round k s R exist st j = Done st'
    /\ emit_inv k s R (j + 1) st'
    /\ acc_exist st' = acc
    /\ (if s + 2 <=? acc
        then edges st' = increment_edge (edges st) (key_at k s R j)
             /\ aligned st' = true
             /\ increments st' = increments st ++ [key_at k s R j]
        else edges st' = edges st
             /\ aligned st' = aligned st
             /\ increments st' = increments st).
Proof.
  intros Hk Hs Hj HL Hlen [Hkl Hrl Hacc Hlast] acc.
  unfold emit_round. rewrite exist_get_in by lia. cbn [mbind outcome_bind].
  fold acc.
  assert (0 <= acc <= j + 1) as Hacc'
      by (subst acc; destruct (nth _ exist false); lia).
  destruct (Z.leb_spec (s + 2) acc) as [Hemit|Hno].
  2:{ eexists. split; [reflexivity|]. cbn.
      split; [|auto].
      constructor; cbn; auto; try lia.
      destruct Hlast as [?|(? & ? & ?)]; [now left|right].
      repeat split; auto; lia. }
  assert (s + 1 <= j) as Hjs by lia.
  set (n := k + s + 1) in *.
  set (m := j - last_j st).
  assert (Hxs : (fun x => x + k - 1) <$> seqZ (last_j st + 1) m
                = seqZ (last_j st + k) m).
  { transitivity ((fun x => x + (k - 1)) <$> seqZ (last_j st + 1) m).
    - apply list_fmap_ext. intros; lia.
    - rewrite fmap_shift_seqZ. f_equal; lia. }
  assert (Hrange : Forall (fun x => 0 <= x < Z.of_nat (length R))
                          (seqZ (last_j st + k) m)).
  { apply seqZ_in_range; subst m; lia. }
  assert (Hrange3 : Forall (fun x => 0 <= x < Z.of_nat (length R))
                           (seqZ (j - s - 1) n)).
  { apply seqZ_in_range; subst n; lia. }
  (* the two strands after re-synchronisation, whatever the regime *)
  assert (Hsync :
    (if m <? 8 then
       append_chars_both R ((fun x => x + k - 1) <$> seqZ (last_j st + 1) m)
                         (e_kmer st) (e_rev_kmer st)
     else if m <? n then
       append_chars R ((fun x => x + k - 1) <$> seqZ (last_j st + 1) m)
                    (e_kmer st)
       ≫= (fun kmer => Done (kmer, Kmer.ReverseComplement kmer))
     else
       append_chars R (seqZ (j - s - 1) n) (e_kmer st)
       ≫= (fun kmer => Done (kmer, Kmer.ReverseComplement kmer)))
    = Done (window R (j - s - 1) n,
            Kmer.ReverseComplement (window R (j - s - 1) n))).
  { assert (Hfwd : foldl Kmer.ShiftAppend (e_kmer st)
                         (window R (last_j st + k) m)
                   = window R (j - s - 1) n).
    { destruct Hlast as [Hl|(Hl & Hkm & Hrv)].
      - rewrite (refill_long R _ _ m n) by (try exact Hkl; subst m n; lia).
        f_equal; subst m n; lia.
      - rewrite Hkm.
        replace (last_j st - s - 1) with (last_j st + k - n) by (subst n; lia).
        rewrite refill_slide by (subst m n; lia). f_equal; subst m n; lia. }
    destruct (Z.ltb_spec m 8) as [H8|H8].
    - rewrite Hxs, append_chars_both_spec by exact Hrange.
      fold (window R (last_j st + k) m). rewrite Hfwd. do 2 f_equal.
      destruct Hlast as [Hl|(Hl & Hkm & Hrv)].
      + rewrite (refill_rev_long R _ _ m n)
          by (try exact Hrl; subst m n; lia).
        do 2 f_equal; subst m n; lia.
      + rewrite Hrv, foldl_both_ReverseComplement.
        fold (window R (last_j st + k) m). now rewrite Hfwd.
    - destruct (Z.ltb_spec m n) as [Hn|Hn].
      + rewrite Hxs, append_chars_spec by exact Hrange.
        fold (window R (last_j st + k) m). rewrite Hfwd. reflexivity.
      + rewrite append_chars_spec by exact Hrange3.
        fold (window R (j - s - 1) n).
        rewrite (refill_long R _ _ n n) by (try exact Hkl; subst n; lia).
        replace (j - s - 1 + n - n) with (j - s - 1) by lia. reflexivity. }
  rewrite Hsync. cbn [mbind outcome_bind].
  eexists. split; [reflexivity|]. cbn.
  split; [|auto].
  constructor; cbn; rewrite ?length_ReverseComplement, ?length_window;
    auto; try lia.
  right. repeat split; auto; lia.
Qed.
(** ** Phase 2: the whole loop *)

(** Phase 2 from index [j0] on does what the labels say: it increments the
    keys of the emitting positions, in order, and nothing else. *)
Lemma emit_rounds_spec (k s : Z) (R : list Z) (exist : list bool) (m : nat) :
  0 < k -> 0 <= s -> length exist = length R ->
  forall (j0 : Z) (st : emit_state),
    0 <= j0 -> j0 + Z.of_nat m + k <= Z.of_nat (length R) + 1 ->
    emit_inv k s R j0 st ->
    let keys := key_at k s R
                  <$> emit_positions s exist (seqZ j0 (Z.of_nat m))
                                     (acc_exist st) in
    exists st',
      emit_rounds k s R exist (seqZ j0 (Z.of_nat m)) st = Done st'
      /\ increments st' = increments st ++ keys
      /\ edges st' = foldl increment_edge (edges st) keys
      /\ aligned st' = (match keys with [] => aligned st | _ => true end).
Proof.
  intros Hk Hs Hlen. induction m as [|m IH]; intros j0 st Hj0 HL Hinv.
  - cbn. exists st. now rewrite app_nil_r.
  - rewrite seqZ_cons by lia.
    replace (Z.pred (Z.of_nat (S m))) with (Z.of_nat m) by lia.
    cbn [emit_rounds emit_positions].
    destruct (emit_round_spec k s R exist st j0 Hk Hs Hj0 ltac:(lia) Hlen Hinv)
      as (st1 & Hrun1 & Hinv1 & Hacc1 & Hpost1).
    rewrite Hrun1. cbn [mbind outcome_bind].
    destruct (IH (Z.succ j0) st1 ltac:(lia) ltac:(lia))
      as (st' & Hrun & Hincr & Hedges & Hal).
    { replace (Z.succ j0) with (j0 + 1) by lia. exact Hinv1. }
    exists st'. split; [exact Hrun|].
    rewrite Hacc1 in Hincr, Hedges, Hal.
    destruct (s + 2 <=? _).
    + destruct Hpost1 as (He & Ha & Hi).
      cbn [fmap list_fmap foldl].
      rewrite Hincr, Hedges, He, Hi, <- app_assoc. cbn [app].
      split; [reflexivity|]. split; [reflexivity|].
      rewrite Hal, Ha. now destruct (_ <$> _).
    + destruct Hpost1 as (He & Ha & Hi).
      rewrite Hincr, Hedges, Hal, He, Ha, Hi. now repeat split.
Qed.

Lemma phase2_spec (k s : Z) (R : list Z) (sc : scan_state)
    (iter_edges : gmap (list Z) Z) :
  0 < k -> 0 <= s -> k <= Z.of_nat (length R) ->
  length (kmer_exist sc) = length R ->
  let keys := key_at k s R
                <$> emit_positions s (kmer_exist sc)
                      (seqZ 0 (Z.of_nat (length R) - k + 1)) 0 in
  exists st,
    phase2 k s R sc iter_edges = Done st
    /\ increments st = keys
    /\ edges st = foldl increment_edge iter_edges keys
    /\ aligned st = (match keys with [] => false | _ => true end).
Proof.
  intros Hk Hs HL Hlen. unfold phase2.
  replace (Z.of_nat (length R) - k + 1)
    with (Z.of_nat (Z.to_nat (Z.of_nat (length R) - k + 1))) by lia.
  destruct (emit_rounds_spec k s R (kmer_exist sc)
              (Z.to_nat (Z.of_nat (length R) - k + 1)) Hk Hs Hlen 0
              (mkEmit (- k) 0 (Kmer.resize (kmer sc) (k + s + 1))
                      (Kmer.resize (rev_kmer sc) (k + s + 1))
                      iter_edges false []))
    as (st & Hrun & Hincr & Hedges & Hal); [lia | lia | |].
  { apply emit_inv_resize. }
  exists st. cbn in Hincr, Hedges, Hal. auto.
Qed.

(** The read pass on one read never leaves the read or the vector and never
    runs out of fuel; what it does is determined by the labels. *)
Lemma process_read_spec (k s : Z) (crusial iter_edges : gmap (list Z) Z)
    (R : list Z) :
  0 < k -> 0 <= s -> k + s + 1 <= Z.of_nat (length R) ->
  exists sc,
    phase1 k crusial R = Done sc
    /\ length (kmer_exist sc) = length R
    /\ let keys := key_at k s R
                     <$> emit_positions s (kmer_exist sc)
                           (seqZ 0 (Z.of_nat (length R) - k + 1)) 0 in
       process_read k s crusial iter_edges R
       = Done (foldl increment_edge iter_edges keys,
               match keys with [] => false | _ => true end,
               keys).
Proof.
  intros Hk Hs HL.
  destruct (phase1_total k crusial R Hk ltac:(lia)) as (sc & Hsc & Hlen).
  exists sc. split; [exact Hsc|]. split; [exact Hlen|].
  intros keys. unfold process_read.
  destruct (Z.ltb_spec (Z.of_nat (length R)) (k + s + 1)); [lia|].
  rewrite Hsc. cbn [mbind outcome_bind].
  destruct (phase2_spec k s R sc iter_edges Hk Hs ltac:(lia) Hlen)
    as (st & Hst & Hincr & Hedges & Hal).
  rewrite Hst. cbn [mbind outcome_bind].
  now rewrite Hincr, Hedges, Hal.
Qed.

(** An emitting position has [s + 1] labelled positions before it. *)
Lemma emit_positions_range (s : Z) (exist : list bool) (m : nat) :
  forall (j0 acc j : Z),
    0 <= acc <= j0 ->
    j ∈ emit_positions s exist (seqZ j0 (Z.of_nat m)) acc ->
    j0 <= j < j0 + Z.of_nat m /\ s + 1 <= j.
Proof.
  induction m as [|m IH]; intros j0 acc j Hacc Hj.
  - rewrite seqZ_nil in Hj by lia. inversion Hj.
  - rewrite seqZ_cons in Hj by lia.
    replace (Z.pred (Z.of_nat (S m))) with (Z.of_nat m) in Hj by lia.
    cbn [emit_positions] in Hj.
    set (acc' := if nth (Z.to_nat j0) exist false then acc + 1 else 0) in *.
    assert (0 <= acc' <= Z.succ j0) as Hacc'
        by (subst acc'; destruct (nth _ exist false); lia).
    destruct (Z.leb_spec (s + 2) acc').
    + apply elem_of_cons in Hj as [->|Hj]; [lia|].
      apply IH in Hj; lia.
    + apply IH in Hj; lia.
Qed.

Lemma process_read_total (k s : Z) (crusial iter_edges : gmap (list Z) Z)
    (R : list Z) :
  0 < k -> 0 <= s ->
  exists keys,
    process_read k s crusial iter_edges R
    = Done (foldl increment_edge iter_edges keys,
            match keys with [] => false | _ => true end, keys)
    /\ window_keys k s [R] keys.
Proof.
  intros Hk Hs.
  destruct (Z.ltb_spec (Z.of_nat (length R)) (k + s + 1)) as [Hshort|Hlong].
  - exists []. unfold process_read.
    destruct (Z.ltb_spec (Z.of_nat (length R)) (k + s + 1)); [|lia].
    split; [reflexivity|constructor].
  - destruct (process_read_spec k s crusial iter_edges R Hk Hs Hlong)
      as (sc & _ & _ & Hrun).
    eexists. split; [exact Hrun|].
    apply Forall_fmap, Forall_forall. intros j Hj. cbn.
    replace (Z.of_nat (length R) - k + 1)
      with (Z.of_nat (Z.to_nat (Z.of_nat (length R) - k + 1))) in Hj by lia.
    apply emit_positions_range in Hj; [|lia].
    exists R, (j - s - 1). split; [constructor|].
    split; [lia|]. split; [lia|reflexivity].
Qed.

(** ** The iterative-edge map under increments *)

Lemma increment_edge_lookup (m : gmap (list Z) Z) (key x : list Z) :
  increment_edge m key !! x
  = if decide (key = x)
    then Some (let multi := default 0 (m !! key) in
               if multi <? kMaxMulti_t then multi + 1 else multi)
    else m !! x.
Proof. unfold increment_edge. apply lookup_insert. Qed.

Lemma increment_edge_bounded (m : gmap (list Z) Z) (key : list Z) :
  counters_bounded m -> counters_bounded (increment_edge m key).
Proof.
  intros Hm x v. rewrite increment_edge_lookup.
  destruct (decide (key = x)) as [->|_]; [|apply Hm].
  intros [= <-].
  destruct (m !! x) as [v0|] eqn:E; cbn.
  - specialize (Hm x v0 E). cbn in Hm.
    destruct (Z.ltb_spec v0 kMaxMulti_t); lia.
  - unfold kMaxMulti_t. cbn. lia.
Qed.

Lemma increment_edges_bounded (keys : list (list Z)) (m : gmap (list Z) Z) :
  counters_bounded m -> counters_bounded (foldl increment_edge m keys).
Proof.
  revert m. induction keys as [|key keys IH]; intros m Hm; [exact Hm|].
  cbn. apply IH, increment_edge_bounded, Hm.
Qed.

Lemma increment_edges_is_Some (keys : list (list Z)) (m : gmap (list Z) Z)
    (x : list Z) :
  is_Some (foldl increment_edge m keys !! x) <-> is_Some (m !! x) \/ x ∈ keys.
Proof.
  revert m. induction keys as [|key keys IH]; intros m; cbn.
  - split; [now left|]. intros [H|H]; [exact H|]. inversion H.
  - rewrite IH, increment_edge_lookup, elem_of_cons.
    destruct (decide (key = x)) as [->|Hne].
    + split; [intros _; right; now left|intros _; left; eauto].
    + split; intros [H|H]; auto. destruct H as [->|H]; [congruence|auto].
Qed.

(** A counter incremented [n] times from nothing holds [n], or [kMaxMulti_t]
    once [n] exceeds it. *)
Lemma increment_edge_saturates (key : list Z) (n : nat) :
  foldl increment_edge ∅ (replicate (S n) key) !! key
  = Some (Z.min (Z.of_nat (S n)) kMaxMulti_t).
Proof.
  assert (forall (n : nat) (m : gmap (list Z) Z) (v : Z),
             0 <= v <= kMaxMulti_t -> default 0 (m !! key) = v ->
             foldl increment_edge m (replicate (S n) key) !! key
             = Some (Z.min (v + Z.of_nat (S n)) kMaxMulti_t)) as Hgen.
  { clear n. induction n as [|n IH]; intros m v Hv Hm.
    - cbn. rewrite increment_edge_lookup.
      destruct (decide (key = key)); [|congruence]. cbn. rewrite Hm.
      f_equal. destruct (Z.ltb_spec v kMaxMulti_t); lia.
    - change (replicate (S (S n)) key) with (key :: replicate (S n) key).
      cbn [foldl].
      rewrite (IH _ (Z.min (v + 1) kMaxMulti_t)).
      + f_equal. lia.
      + unfold kMaxMulti_t in *. lia.
      + rewrite increment_edge_lookup.
        destruct (decide (key = key)); [|congruence]. cbn. rewrite Hm.
        destruct (Z.ltb_spec v kMaxMulti_t); lia. }
  rewrite (Hgen n ∅ 0); [reflexivity| unfold kMaxMulti_t; lia |].
  now rewrite lookup_empty.
Qed.

Lemma window_keys_mono (k s : Z) (reads reads' keys : list (list Z)) :
  (forall R, R ∈ reads -> R ∈ reads') ->
  window_keys k s reads keys -> window_keys k s reads' keys.
Proof.
  intros Hsub Hkeys. eapply Forall_impl; [exact Hkeys|].
  intros key (R & p & HR & Hp). exists R, p. split; [now apply Hsub|exact Hp].
Qed.
(** ** The read pass over packages *)

Lemma process_read_package_spec (k s : Z) (crusial : gmap (list Z) Z)
    (cur_package : list (list Z)) (iter_edges : gmap (list Z) Z) :
  0 < k -> 0 <= s ->
  exists keys written,
    process_read_package k s crusial cur_package iter_edges
    = Done (foldl increment_edge iter_edges keys, written)
    /\ window_keys k s cur_package keys.
Proof.
  intros Hk Hs. revert iter_edges.
  induction cur_package as [|R rest IH]; intros iter_edges.
  - exists [], []. split; [reflexivity|constructor].
  - destruct (process_read_total k s crusial iter_edges R Hk Hs)
      as (keys1 & Hrun1 & Hkeys1).
    destruct (IH (foldl increment_edge iter_edges keys1))
      as (keys2 & written & Hrun2 & Hkeys2).
    cbn [process_read_package]. rewrite Hrun1. cbn [mbind outcome_bind].
    rewrite Hrun2. cbn [mbind outcome_bind].
    eexists (keys1 ++ keys2), _. rewrite foldl_app.
    split; [reflexivity|].
    apply Forall_app. split.
    + apply (window_keys_mono k s [R]); [|exact Hkeys1].
      intros R' ->%list_elem_of_singleton. constructor.
    + apply (window_keys_mono k s rest); [|exact Hkeys2].
      intros R' HR'. now constructor.
Qed.

Lemma read_rounds_spec (k s : Z) (packages : list (list (list Z)))
    (g : IterateGlobalData) :
  0 < k -> 0 <= s ->
  exists keys written,
    read_rounds k s packages g
    = Done (mkGlobals (crusial_kmers g)
                      (foldl increment_edge (iterative_edges g) keys)
                      (output_edge_file g)
                      (output_read_file g ++ written))
    /\ window_keys k s (concat packages) keys.
Proof.
  intros Hk Hs. revert g.
  induction packages as [|cur_package rest IH]; intros g.
  - exists [], []. cbn. rewrite app_nil_r. destruct g.
    split; [reflexivity|constructor].
  - destruct cur_package as [|R reads].
    { exists [], []. cbn [read_rounds]. rewrite app_nil_r. destruct g.
      split; [reflexivity|constructor]. }
    destruct (process_read_package_spec k s (crusial_kmers g) (R :: reads)
                (iterative_edges g) Hk Hs) as (keys1 & w1 & Hrun1 & Hkeys1).
    cbn [read_rounds]. rewrite Hrun1. cbn [mbind outcome_bind].
    destruct (IH (mkGlobals (crusial_kmers g)
                    (foldl increment_edge (iterative_edges g) keys1)
                    (output_edge_file g) (output_read_file g ++ w1)))
      as (keys2 & w2 & Hrun2 & Hkeys2).
    rewrite Hrun2. cbn.
    exists (keys1 ++ keys2), (w1 ++ w2). rewrite foldl_app, app_assoc.
    split; [reflexivity|]. cbn [concat]. apply Forall_app. split.
    + apply (window_keys_mono k s (R :: reads)); [|exact Hkeys1].
      intros R' HR'.
      apply (proj2 (elem_of_app (R :: reads) (concat rest) R')). now left.
    + apply (window_keys_mono k s (concat rest)); [|exact Hkeys2].
      intros R' HR'.
      apply (proj2 (elem_of_app (R :: reads) (concat rest) R')). now right.
Qed.

(** The whole read pass returns; it leaves the crucial k-mers alone, only
    increments keys of windows, and appends edge records only. *)
Lemma ReadReadsAndProcess_spec (k s : Z) (packages : list (list (list Z)))
    (g : IterateGlobalData) :
  0 < k -> 0 <= s ->
  exists keys g',
    ReadReadsAndProcess k s packages g = Done g'
    /\ window_keys k s (concat packages) keys
    /\ crusial_kmers g' = crusial_kmers g
    /\ iterative_edges g' = foldl increment_edge (iterative_edges g) keys
    /\ exists drained,
         output_edge_file g' = output_edge_file g ++ (EdgeWords <$> drained).
Proof.
  intros Hk Hs.
  destruct (read_rounds_spec k s packages g Hk Hs)
    as (keys & written & Hrun & Hkeys).
  unfold ReadReadsAndProcess. rewrite Hrun. cbn [mbind outcome_bind].
  exists keys. eexists. split; [reflexivity|]. cbn.
  repeat split; auto.
  exists ((fun kv => assemble_edge k s kv.1 0 kv.2)
            <$> map_to_list (foldl increment_edge (iterative_edges g) keys)).
  now rewrite <- list_fmap_compose.
Qed.
(** ** The contig pass: what is written to [edges.0] *)

Section ContigPassFacts.

Context {M : Type} (convert_multiplicity : Z -> Z -> Z -> M -> Z).

Lemma write_package_edges (k s : Z) (cur_package : list (contig M))
    (out : list edge_write) :
  exists es,
    foldl (write_contig_edges convert_multiplicity k s) out cur_package
    = out ++ (EdgeWords <$> es).
Proof.
  revert out. induction cur_package as [|c rest IH]; intros out.
  - exists []. cbn. now rewrite app_nil_r.
  - cbn [foldl]. destruct (IH (write_contig_edges convert_multiplicity k s out c))
      as (es & Hes).
    rewrite Hes. unfold write_contig_edges.
    eexists (_ ++ es). now rewrite fmap_app, app_assoc.
Qed.

Lemma process_contig_package_out (k s : Z) (is_addi is_first : bool)
    (cur_package : list (contig M)) (g : IterateGlobalData) :
  exists es,
    output_edge_file
      (process_contig_package convert_multiplicity k s is_addi is_first
                              cur_package g)
    = output_edge_file g
      ++ (if is_first
          then [HeaderWord (u32 (k + s)); HeaderWord (u32 (kWordsPerEdge k s))]
          else [])
      ++ (EdgeWords <$> es).
Proof.
  unfold process_contig_package. cbn [output_edge_file].
  destruct (write_package_edges k s cur_package
              (if is_first
               then output_edge_file g
                    ++ [HeaderWord (u32 (k + s));
                        HeaderWord (u32 (kWordsPerEdge k s))]
               else output_edge_file g)) as (es & Hes).
  exists es. rewrite Hes. destruct is_first.
  - now rewrite <- app_assoc.
  - reflexivity.
Qed.

(** Rounds after the first write edges only. *)
Lemma later_rounds_out (k s : Z) (is_addi : bool)
    (packages : list (list (contig M))) (g : IterateGlobalData) :
  exists es,
    output_edge_file
      (contig_rounds convert_multiplicity k s is_addi false packages g)
    = output_edge_file g ++ (EdgeWords <$> es).
Proof.
  revert g. induction packages as [|p rest IH]; intros g.
  - exists []. cbn. now rewrite app_nil_r.
  - cbn [contig_rounds].
    destruct (IH (process_contig_package convert_multiplicity k s is_addi
                    false p g)) as (es2 & H2).
    destruct (process_contig_package_out k s is_addi false p g) as (es1 & H1).
    rewrite H2, H1. cbn [app].
    exists (es1 ++ es2). now rewrite fmap_app, app_assoc.
Qed.

(** A primary pass with at least one package writes the header, once, in
    its first round. *)
Lemma primary_pass_out (k s : Z) (p : list (contig M))
    (rest : list (list (contig M))) (g : IterateGlobalData) :
  exists es,
    output_edge_file
      (ReadContigsAndBuildHash convert_multiplicity k s false (p :: rest) g)
    = output_edge_file g
      ++ HeaderWord (u32 (k + s)) :: HeaderWord (u32 (kWordsPerEdge k s))
      :: (EdgeWords <$> es).
Proof.
  unfold ReadContigsAndBuildHash. cbn [negb contig_rounds].
  destruct (later_rounds_out k s false rest
              (process_contig_package convert_multiplicity k s false true p g))
    as (es2 & H2).
  destruct (process_contig_package_out k s false true p g) as (es1 & H1).
  rewrite H2, H1. exists (es1 ++ es2).
  rewrite fmap_app, <- !app_assoc. reflexivity.
Qed.

Lemma contig_passes_out (k s : Z) (p : list (contig M))
    (rest : list (list (contig M)))
    (addi : option (list (list (contig M)))) :
  header_exactly_once k s
    (output_edge_file
       (contig_passes convert_multiplicity k s (p :: rest) addi)).
Proof.
  unfold contig_passes, header_exactly_once.
  destruct (primary_pass_out k s p rest InitGlobalData) as (es1 & H1).
  cbn [InitGlobalData output_edge_file app] in H1.
  destruct addi as [packages|].
  - unfold ReadContigsAndBuildHash at 1. cbn [negb].
    destruct (later_rounds_out k s true packages
                (ReadContigsAndBuildHash convert_multiplicity k s false
                                         (p :: rest) InitGlobalData))
      as (es2 & H2).
    rewrite H2, H1. exists (es1 ++ es2). now rewrite fmap_app.
  - now exists es1.
Qed.

(** In words: the stream starts with the two header words, and the rest
    is edges. *)
Lemma header_exactly_once_stream (k s : Z) (out : list edge_write) :
  header_exactly_once k s out ->
  exists es : list (list Z),
    edge_stream out
    = u32 (k + s) :: u32 (kWordsPerEdge k s) :: concat es.
Proof.
  intros [es ->]. exists es. unfold edge_stream. cbn [fmap list_fmap concat].
  cbn [words_of_write app]. do 2 f_equal.
  rewrite <- list_fmap_compose. f_equal.
  induction es as [|e es IH]; [reflexivity|]. cbn. now rewrite IH.
Qed.

(** The contig passes leave the iterative-edge map empty. *)
Lemma contig_rounds_iterative_edges (k s : Z) (is_addi is_first : bool)
    (packages : list (list (contig M))) (g : IterateGlobalData) :
  iterative_edges
    (contig_rounds convert_multiplicity k s is_addi is_first packages g)
  = iterative_edges g.
Proof.
  revert is_first g. induction packages as [|p rest IH]; intros is_first g.
  - reflexivity.
  - cbn [contig_rounds]. now rewrite IH.
Qed.

Lemma contig_passes_iterative_edges (k s : Z)
    (primary : list (list (contig M)))
    (addi : option (list (list (contig M)))) :
  iterative_edges (contig_passes convert_multiplicity k s primary addi) = ∅.
Proof.
  unfold contig_passes, ReadContigsAndBuildHash.
  destruct addi; now rewrite !contig_rounds_iterative_edges.
Qed.

End ContigPassFacts.
(** ** The contig pass: the crucial k-mers *)

Lemma rev_seqZ (a : Z) (n : nat) :
  rev (seqZ a (Z.of_nat n))
  = (fun j => a + Z.of_nat n - 1 - j) <$> seqZ 0 (Z.of_nat n).
Proof.
  induction n as [|n IH].
  - reflexivity.
  - rewrite seqZ_S, rev_unit, IH.
    rewrite (seqZ_cons 0 (Z.of_nat (S n))) by lia.
    cbn [fmap list_fmap]. f_equal; [lia|].
    replace (Z.pred (Z.of_nat (S n))) with (Z.of_nat n) by lia.
    change (Z.succ 0) with (0 + 1).
    rewrite <- (fmap_shift_seqZ 1 0 (Z.of_nat n)).
    rewrite <- list_fmap_compose. apply list_fmap_ext. intros; cbn; lia.
Qed.

Lemma rev_seqZ_Z (a n : Z) :
  0 <= n ->
  rev (seqZ a n) = (fun j => a + n - 1 - j) <$> seqZ 0 n.
Proof.
  intros Hn. rewrite <- (Z2Nat.id n) by lia. apply rev_seqZ.
Qed.

(** The first key is the leading k-mer of the contig. *)
Lemma prefix_kmer_window (k : Z) (seq : list Z) :
  prefix_kmer k seq = window seq 0 k.
Proof. apply fill_from_make. Qed.

(** The second key is the reverse complement of the trailing k-mer. *)
Lemma suffix_rc_kmer_window (k : Z) (seq : list Z) :
  0 <= k ->
  suffix_rc_kmer k seq
  = Kmer.ReverseComplement (window seq (Z.of_nat (length seq) - k) k).
Proof.
  intros Hk. unfold suffix_rc_kmer.
  rewrite foldl_ShiftAppend, length_fmap, length_seqZ.
  rewrite prefix_kmer_window.
  rewrite <- (length_window seq 0 k) at 1. rewrite drop_app_length.
  unfold Kmer.ReverseComplement, window.
  change (CharAt seq <$> ?l) with (map (CharAt seq) l).
  rewrite <- map_rev, map_map.
  rewrite rev_seqZ_Z by lia.
  change (map ?f ?l) with (f <$> l).
  rewrite <- list_fmap_compose.
  apply list_fmap_ext. intros i x Hx. cbn. do 2 f_equal. lia.
Qed.

Lemma add_crusial_kmers_mono (k s : Z) (m : gmap (list Z) Z)
    (seq x : list Z) :
  is_Some (m !! x) -> is_Some (add_crusial_kmers k s m seq !! x).
Proof.
  intros Hx. unfold add_crusial_kmers.
  destruct (_ <? k); [exact Hx|].
  destruct (k <? _); rewrite ?lookup_insert_is_Some'; auto.
Qed.

Lemma add_crusial_kmers_prefix (k s : Z) (m : gmap (list Z) Z)
    (seq : list Z) :
  k <= Z.of_nat (length seq) ->
  is_Some (add_crusial_kmers k s m seq !! prefix_kmer k seq).
Proof.
  intros HL. unfold add_crusial_kmers.
  destruct (Z.ltb_spec (Z.of_nat (length seq)) k); [lia|].
  destruct (k <? _); rewrite ?lookup_insert_is_Some'; auto.
Qed.

(** The suffix key is written last, so right after the contig it holds the
    complemented hint. *)
Lemma add_crusial_kmers_suffix (k s : Z) (m : gmap (list Z) Z)
    (seq : list Z) :
  k < Z.of_nat (length seq) ->
  add_crusial_kmers k s m seq !! suffix_rc_kmer k seq
  = Some (suffix_rc_hint k s seq).
Proof.
  intros HL. unfold add_crusial_kmers.
  destruct (Z.ltb_spec (Z.of_nat (length seq)) k); [lia|].
  destruct (Z.ltb_spec k (Z.of_nat (length seq))); [|lia].
  apply lookup_insert_eq.
Qed.

(** A contig of exactly [k] bases stores its one k-mer only. *)
Lemma add_crusial_kmers_exact (k s : Z) (m : gmap (list Z) Z)
    (seq : list Z) :
  Z.of_nat (length seq) = k ->
  add_crusial_kmers k s m seq = <[prefix_kmer k seq := prefix_hint k s seq]> m.
Proof.
  intros HL. unfold add_crusial_kmers.
  destruct (Z.ltb_spec (Z.of_nat (length seq)) k); [lia|].
  destruct (Z.ltb_spec k (Z.of_nat (length seq))); [lia|]. reflexivity.
Qed.

Section CrucialFacts.

Context {M : Type} (convert_multiplicity : Z -> Z -> Z -> M -> Z).

Lemma package_crusial_mono (k s : Z) (cur_package : list (contig M))
    (m : gmap (list Z) Z) (x : list Z) :
  is_Some (m !! x) ->
  is_Some (foldl (fun m c => add_crusial_kmers k s m (seq c)) m cur_package
             !! x).
Proof.
  revert m. induction cur_package as [|c rest IH]; intros m Hx; [exact Hx|].
  cbn [foldl]. now apply IH, add_crusial_kmers_mono.
Qed.

Lemma package_crusial_keys (k s : Z) (cur_package : list (contig M))
    (m : gmap (list Z) Z) (c : contig M) :
  c ∈ cur_package ->
  let m' := foldl (fun m c => add_crusial_kmers k s m (seq c)) m cur_package in
  (k <= Z.of_nat (length (seq c)) -> is_Some (m' !! prefix_kmer k (seq c)))
  /\ (k < Z.of_nat (length (seq c)) ->
      is_Some (m' !! suffix_rc_kmer k (seq c))).
Proof.
  revert m. induction cur_package as [|c0 rest IH]; intros m Hc.
  - inversion Hc.
  - apply elem_of_cons in Hc as [->|Hc]; [|now apply IH].
    cbn [foldl]. split; intros HL; apply package_crusial_mono.
    + now apply add_crusial_kmers_prefix.
    + rewrite add_crusial_kmers_suffix by exact HL. eauto.
Qed.

Lemma contig_rounds_crusial_mono (k s : Z) (is_addi is_first : bool)
    (packages : list (list (contig M))) (g : IterateGlobalData) (x : list Z) :
  is_Some (crusial_kmers g !! x) ->
  is_Some (crusial_kmers
             (contig_rounds convert_multiplicity k s is_addi is_first
                            packages g) !! x).
Proof.
  revert is_first g. induction packages as [|p rest IH]; intros is_first g Hx.
  - exact Hx.
  - cbn [contig_rounds]. apply IH. unfold process_contig_package.
    cbn [crusial_kmers]. destruct is_addi; [exact Hx|].
    now apply package_crusial_mono.
Qed.

Lemma primary_rounds_crusial_keys (k s : Z) (is_first : bool)
    (packages : list (list (contig M))) (g : IterateGlobalData)
    (c : contig M) :
  c ∈ concat packages ->
  let m' := crusial_kmers
              (contig_rounds convert_multiplicity k s false is_first
                             packages g) in
  (k <= Z.of_nat (length (seq c)) -> is_Some (m' !! prefix_kmer k (seq c)))
  /\ (k < Z.of_nat (length (seq c)) ->
      is_Some (m' !! suffix_rc_kmer k (seq c))).
Proof.
  revert is_first g. induction packages as [|p rest IH]; intros is_first g Hc.
  - inversion Hc.
  - cbn [concat] in Hc. apply elem_of_app in Hc as [Hc|Hc].
    + cbn [contig_rounds].
      destruct (package_crusial_keys k s p (crusial_kmers g) c Hc) as [H1 H2].
      split; intros HL; apply contig_rounds_crusial_mono;
        unfold process_contig_package; cbn [crusial_kmers]; auto.
    + cbn [contig_rounds]. now apply IH.
Qed.

Lemma contig_passes_crusial_keys (k s : Z)
    (primary : list (list (contig M)))
    (addi : option (list (list (contig M)))) (c : contig M) :
  c ∈ concat primary ->
  let m' := crusial_kmers
              (contig_passes convert_multiplicity k s primary addi) in
  (k <= Z.of_nat (length (seq c)) -> is_Some (m' !! prefix_kmer k (seq c)))
  /\ (k < Z.of_nat (length (seq c)) ->
      is_Some (m' !! suffix_rc_kmer k (seq c))).
Proof.
  intros Hc. unfold contig_passes.
  destruct (primary_rounds_crusial_keys k s true primary InitGlobalData c Hc)
    as [H1 H2].
  destruct addi as [packages|]; [|now split].
  split; intros HL; apply contig_rounds_crusial_mono; auto.
Qed.

End CrucialFacts.

(** ** The whole run *)

(** The whole run after [ParseOptions] returns, and what it leaves in the
    iterative-edge map are counters of window keys incremented from the
    empty map. *)
Lemma run_spec {M : Type} (convert_multiplicity : Z -> Z -> Z -> M -> Z)
    (k s : Z) (primary : list (list (contig M)))
    (addi : option (list (list (contig M))))
    (reads : list (list (list Z))) :
  0 < k -> 0 <= s ->
  exists keys drained g,
    run convert_multiplicity k s primary addi reads = Done g
    /\ window_keys k s (concat reads) keys
    /\ iterative_edges g = foldl increment_edge ∅ keys
    /\ crusial_kmers g
       = crusial_kmers (contig_passes convert_multiplicity k s primary addi)
    /\ output_edge_file g
       = output_edge_file
           (contig_passes convert_multiplicity k s primary addi)
         ++ (EdgeWords <$> drained).
Proof.
  intros Hk Hs. unfold run.
  destruct (ReadReadsAndProcess_spec k s reads
              (contig_passes convert_multiplicity k s primary addi) Hk Hs)
    as (keys & g & Hrun & Hkeys & Hcr & Hit & drained & Hout).
  exists keys, drained, g. rewrite contig_passes_iterative_edges in Hit.
  auto.
Qed.

(** ** Reads labelled everywhere *)

Lemma emit_positions_all_labelled (s : Z) (exist : list bool) (m : nat) :
  forall j0 : Z,
    0 <= j0 ->
    (forall j, j0 <= j < j0 + Z.of_nat m ->
       nth (Z.to_nat j) exist false = true) ->
    emit_positions s exist (seqZ j0 (Z.of_nat m)) j0
    = seqZ (Z.max j0 (s + 1)) (j0 + Z.of_nat m - Z.max j0 (s + 1)).
Proof.
  induction m as [|m IH]; intros j0 Hj0 Hall.
  - rewrite !seqZ_nil by lia. reflexivity.
  - rewrite seqZ_cons by lia.
    replace (Z.pred (Z.of_nat (S m))) with (Z.of_nat m) by lia.
    cbn [emit_positions]. rewrite Hall by lia.
    replace (Z.succ j0) with (j0 + 1) by lia.
    rewrite IH by (try lia; intros; apply Hall; lia).
    destruct (Z.leb_spec (s + 2) (j0 + 1)).
    + rewrite !Z.max_l by lia.
      rewrite (seqZ_cons j0) by lia. do 2 f_equal; lia.
    + rewrite !Z.max_r by lia. f_equal; lia.
Qed.

(** ** Bit operations as arithmetic *)

Lemma lor_disjoint (hi lo j : Z) :
  0 <= j -> 0 <= lo < 2 ^ j ->
  Z.lor (hi * 2 ^ j) lo = hi * 2 ^ j + lo.
Proof.
  intros Hj Hlo.
  assert (Z.land (hi * 2 ^ j) lo = 0) as Hdis.
  { apply Z.bits_inj'. intros i Hi.
    rewrite Z.land_spec, Z.bits_0.
    destruct (Z.lt_ge_cases i j) as [Hlt|Hge].
    - now rewrite Z.mul_pow2_bits_low.
    - rewrite <- (Z.mod_small lo (2 ^ j)) by lia.
      rewrite Z.mod_pow2_bits_high by lia. apply andb_false_r. }
  rewrite <- Z.lxor_lor by exact Hdis.
  symmetry. now apply Z.add_nocarry_lxor.
Qed.

Lemma lxor_clear (hi m j : Z) :
  0 <= j -> 0 <= m < 2 ^ j ->
  Z.lxor (hi * 2 ^ j + m) m = hi * 2 ^ j.
Proof.
  intros Hj Hm. rewrite <- lor_disjoint by assumption.
  assert (Z.land (hi * 2 ^ j) m = 0) as Hdis.
  { apply Z.bits_inj'. intros i Hi.
    rewrite Z.land_spec, Z.bits_0.
    destruct (Z.lt_ge_cases i j) as [Hlt|Hge].
    - now rewrite Z.mul_pow2_bits_low.
    - rewrite <- (Z.mod_small m (2 ^ j)) by lia.
      rewrite Z.mod_pow2_bits_high by lia. apply andb_false_r. }
  rewrite <- Z.lxor_lor by exact Hdis.
  now rewrite Z.lxor_assoc, Z.lxor_nilpotent, Z.lxor_0_r.
Qed.

Lemma land_clear_slot (w sh : Z) :
  0 <= w < 2 ^ 32 -> 0 <= sh ->
  Z.land w (u32 (Z.lnot (Z.shiftl 3 sh)))
  = w - (w / 2 ^ sh) mod 4 * 2 ^ sh.
Proof.
  intros Hw Hsh. unfold u32.
  rewrite <- Z.land_ones by lia.
  rewrite (Z.land_comm (Z.lnot _)), Z.land_assoc.
  rewrite (Z.land_ones w) by lia. rewrite Z.mod_small by lia.
  rewrite <- Z.sub_land_same_l. f_equal.
  transitivity (Z.shiftl (Z.land (Z.shiftr w sh) 3) sh).
  - apply Z.bits_inj'. intros i Hi.
    rewrite Z.land_spec, !Z.shiftl_spec by lia.
    destruct (Z.lt_ge_cases i sh) as [Hlt|Hge].
    + rewrite !(Z.testbit_neg_r _ (i - sh)) by lia. apply andb_false_r.
    + rewrite Z.land_spec, Z.shiftr_spec by lia.
      now replace (i - sh + sh) with i by lia.
  - rewrite Z.shiftl_mul_pow2, Z.shiftr_div_pow2 by lia.
    change 3 with (Z.ones 2). rewrite Z.land_ones by lia. reflexivity.
Qed.

Lemma shift_in_base (w c : Z) :
  0 <= c < 4 -> Z.lor (Z.shiftl w 2) c = 4 * w + c.
Proof.
  intros Hc. rewrite Z.shiftl_mul_pow2 by lia.
  rewrite lor_disjoint by lia. lia.
Qed.

Lemma shift_with_carry (w y : Z) :
  0 <= w < 2 ^ 32 ->
  Z.lor (Z.shiftr w 2) (u32 (Z.shiftl y 30)) = w / 4 + y mod 4 * 2 ^ 30.
Proof.
  intros Hw. unfold u32.
  rewrite Z.shiftr_div_pow2, Z.shiftl_mul_pow2 by lia.
  change (2 ^ 32) with (4 * 2 ^ 30) at 1.
  rewrite Z.mul_mod_distr_r by lia.
  rewrite Z.lor_comm, lor_disjoint; [change (2 ^ 2) with 4; lia | lia |].
  change (2 ^ 2) with 4. split; [apply Z.div_pos; lia|].
  apply Z.div_lt_upper_bound; lia.
Qed.

Lemma or_new_base (w c : Z) :
  0 <= w < 2 ^ 30 -> 0 <= c < 4 ->
  Z.lor w (u32 (Z.shiftl c 30)) = w + c * 2 ^ 30.
Proof.
  intros Hw Hc. unfold u32. rewrite Z.shiftl_mul_pow2 by lia.
  rewrite Z.mod_small by lia.
  rewrite Z.lor_comm, lor_disjoint by lia. lia.
Qed.

(** ** Packed words as one number *)

Lemma words_value_snoc (ws : list Z) (w : Z) :
  words_value (ws ++ [w]) = words_value ws * 2 ^ 32 + w.
Proof. unfold words_value. now rewrite foldl_app. Qed.

Lemma words_value_app (a b : list Z) :
  words_value (a ++ b)
  = words_value a * 2 ^ (32 * Z.of_nat (length b)) + words_value b.
Proof.
  induction b as [|x b IH] using rev_ind.
  - rewrite app_nil_r. cbn. lia.
  - rewrite app_assoc, !words_value_snoc, IH, length_app. cbn [length].
    replace (32 * Z.of_nat (length b + 1))
      with (32 * Z.of_nat (length b) + 32) by lia.
    rewrite Z.pow_add_r by lia. lia.
Qed.

Lemma words_value_bound (ws : list Z) :
  words_ok ws -> 0 <= words_value ws < 2 ^ (32 * Z.of_nat (length ws)).
Proof.
  intros Hok. induction ws as [|x ws IH] using rev_ind.
  - cbn. lia.
  - apply Forall_app in Hok as [Hws Hx%Forall_inv].
    specialize (IH Hws).
    rewrite words_value_snoc, length_app. cbn [length].
    replace (32 * Z.of_nat (length ws + 1))
      with (32 * Z.of_nat (length ws) + 32) by lia.
    rewrite Z.pow_add_r by lia.
    change (2 ^ 32) with 4294967296 in *. lia.
Qed.

Lemma words_value_zeros (n : nat) : words_value (replicate n 0) = 0.
Proof.
  induction n as [|n IH]; [reflexivity|].
  rewrite replicate_S_end, words_value_snoc, IH. reflexivity.
Qed.

Lemma words_ok_zeros (n : nat) : words_ok (replicate n 0).
Proof. apply Forall_replicate. lia. Qed.

(** Word [i] is a digit of the number. *)
Lemma words_value_lookup (ws : list Z) (i : nat) :
  words_ok ws -> (i < length ws)%nat ->
  ws !! i
  = Some ((words_value ws / 2 ^ (32 * (Z.of_nat (length ws) - 1 - Z.of_nat i)))
            mod 2 ^ 32).
Proof.
  intros Hok. revert i. induction ws as [|x ws IH] using rev_ind; intros i Hi.
  - cbn in Hi. lia.
  - apply Forall_app in Hok as [Hws Hx%Forall_inv].
    rewrite length_app in *. cbn [length] in *.
    rewrite words_value_snoc.
    destruct (decide (i = length ws)) as [->|Hne].
    + rewrite list_lookup_middle by reflexivity.
      replace (32 * (Z.of_nat (length ws + 1) - 1 - Z.of_nat (length ws)))
        with 0 by lia.
      rewrite Z.pow_0_r, Z.div_1_r.
      rewrite Z.add_comm, Z.mod_add by lia. now rewrite Z.mod_small by lia.
    + rewrite lookup_app_l by lia. rewrite IH by (auto; lia). f_equal.
      replace (32 * (Z.of_nat (length ws + 1) - 1 - Z.of_nat i))
        with (32 + 32 * (Z.of_nat (length ws) - 1 - Z.of_nat i)) by lia.
      rewrite Z.pow_add_r by lia.
      rewrite <- Z.div_div by lia.
      rewrite Z.div_add_l by lia.
      now rewrite (Z.div_small x) by lia; rewrite Z.add_0_r.
Qed.

(** Two packed edges with the same words count and the same number are the
    same words. *)
Lemma words_value_inj (a b : list Z) :
  words_ok a -> words_ok b -> length a = length b ->
  words_value a = words_value b -> a = b.
Proof.
  intros Ha Hb Hlen Hv. apply list_eq. intros i.
  destruct (decide (i < length a)%nat) as [Hi|Hi].
  - rewrite (words_value_lookup a) by auto.
    rewrite (words_value_lookup b) by (auto; lia).
    now rewrite Hv, Hlen.
  - rewrite !lookup_ge_None_2 by lia. reflexivity.
Qed.

Lemma words_value_alter_middle (f : Z -> Z) (a b : list Z) (x : Z) :
  words_value (alter f (length a) (a ++ x :: b))
  = words_value (a ++ x :: b)
    + (f x - x) * 2 ^ (32 * Z.of_nat (length b)).
Proof.
  rewrite <- (Nat.add_0_r (length a)) at 1.
  rewrite alter_app_r. cbn [alter list_alter].
  change (f x :: b) with ([f x] ++ b). change (x :: b) with ([x] ++ b).
  rewrite !words_value_app. cbn -[Z.pow Z.mul]. lia.
Qed.

Lemma words_value_alter (f : Z -> Z) (ws : list Z) (i : nat) (x : Z) :
  ws !! i = Some x ->
  words_value (alter f i ws)
  = words_value ws
    + (f x - x) * 2 ^ (32 * (Z.of_nat (length ws) - 1 - Z.of_nat i)).
Proof.
  intros Hx.
  pose proof (lookup_lt_Some _ _ _ Hx) as Hi.
  pose proof (take_drop_middle ws i x Hx) as E.
  assert (length (take i ws) = i) as Hti by (rewrite length_take; lia).
  replace (Z.of_nat (length ws) - 1 - Z.of_nat i)
    with (Z.of_nat (length (drop (S i) ws)))
    by (rewrite length_drop; lia).
  rewrite <- E at 1 2. rewrite <- Hti at 1.
  apply words_value_alter_middle.
Qed.

Lemma words_ok_alter (f : Z -> Z) (ws : list Z) (i : nat) :
  words_ok ws -> (forall x, ws !! i = Some x -> 0 <= f x < 2 ^ 32) ->
  words_ok (alter f i ws).
Proof.
  intros Hok Hf. apply Forall_lookup. intros j y Hy.
  destruct (decide (i = j)) as [->|Hne].
  - rewrite list_lookup_alter_eq in Hy.
    destruct (ws !! j) as [x|] eqn:E; [|discriminate].
    injection Hy as <-. now apply Hf.
  - rewrite list_lookup_alter_ne in Hy by exact Hne.
    exact (proj1 (Forall_lookup _ _) Hok j y Hy).
Qed.
(** ** The right shift of the word array *)

Lemma length_shift_words (i : nat) (e : list Z) :
  length (shift_words i e) = length e.
Proof.
  revert e. induction i as [|i IH]; intros e; [reflexivity|].
  cbn [shift_words]. now rewrite IH, !length_alter.
Qed.

Lemma shift_words_app (i : nat) (a b : list Z) :
  (i < length a)%nat -> shift_words i (a ++ b) = shift_words i a ++ b.
Proof.
  revert a. induction i as [|i IH]; intros a Hi; [reflexivity|].
  cbn [shift_words].
  rewrite (alter_app_l _ a b (S i)) by lia.
  rewrite lookup_total_app_l by (rewrite length_alter; lia).
  rewrite alter_app_l by (rewrite length_alter; lia).
  apply IH. rewrite !length_alter. lia.
Qed.

(** Lines 362-366 divide the number held by the words by four. *)
Lemma shift_right_value (e : list Z) :
  words_ok e ->
  let e' := alter (fun x => Z.shiftr x 2) 0%nat
                  (shift_words (length e - 1) e) in
  words_value e' = words_value e / 4
  /\ words_ok e' /\ length e' = length e.
Proof.
  intros Hok. induction e as [|x e IH] using rev_ind.
  - cbn. repeat split; constructor.
  - apply Forall_app in Hok as [He Hx%Forall_inv].
    specialize (IH He). cbv zeta in IH. destruct IH as (IHv & IHok & IHlen).
    rewrite length_app. cbn [length].
    replace (length e + 1 - 1)%nat with (length e) by lia.
    destruct e as [|y0 e0] eqn:Ee.
    + cbn. rewrite Z.shiftr_div_pow2 by lia. change (2 ^ 2) with 4.
      split; [reflexivity|]. split; [|reflexivity].
      apply Forall_singleton. split.
      * apply Z.div_pos; lia.
      * apply Z.div_lt_upper_bound; lia.
    + rewrite <- Ee in *.
      assert (length e = S (length e0)) as Hlen by (now subst e).
      clear Ee.
      (* the last word is word [length e - 1] of the number above *)
      assert (e !!! (length e - 1)%nat = words_value e mod 2 ^ 32) as Hlast.
      { apply list_lookup_total_correct.
        rewrite words_value_lookup by (auto; lia). f_equal.
        replace (32 * (Z.of_nat (length e) - 1 - Z.of_nat (length e - 1)))
          with 0 by lia.
        now rewrite Z.pow_0_r, Z.div_1_r. }
      assert ((words_value e mod 2 ^ 32) mod 4 = words_value e mod 4) as Hm.
      { apply Z.mod_mod_divide. exists (2 ^ 30). reflexivity. }
      assert (alter (fun x => Z.shiftr x 2) 0%nat
                    (shift_words (length e) (e ++ [x]))
              = alter (fun x => Z.shiftr x 2) 0%nat
                      (shift_words (length e - 1) e)
                ++ [x / 4 + words_value e mod 4 * 2 ^ 30]) as Estep.
      { rewrite Hlen at 1. cbn [shift_words]. rewrite <- Hlen.
        assert (alter (fun x => Z.shiftr x 2) (length e) (e ++ [x])
                = e ++ [Z.shiftr x 2]) as E1.
        { rewrite <- (Nat.add_0_r (length e)) at 1.
          now rewrite alter_app_r. }
        rewrite E1.
        assert ((e ++ [Z.shiftr x 2]) !!! length e0 = e !!! length e0) as E2.
        { apply lookup_total_app_l. lia. }
        rewrite E2.
        assert (alter (fun x0 =>
                         Z.lor x0 (u32 (Z.shiftl (e !!! length e0) 30)))
                      (length e) (e ++ [Z.shiftr x 2])
                = e ++ [Z.lor (Z.shiftr x 2)
                              (u32 (Z.shiftl (e !!! length e0) 30))]) as E3.
        { rewrite <- (Nat.add_0_r (length e)) at 1.
          now rewrite alter_app_r. }
        rewrite E3, shift_words_app by lia.
        rewrite alter_app_l by (rewrite length_shift_words; lia).
        replace (length e0) with (length e - 1)%nat by lia.
        rewrite shift_with_carry by lia.
        now rewrite Hlast, Hm. }
      rewrite Estep.
      pose proof (words_value_bound e He) as Hb.
      pose proof (Z.mod_pos_bound (words_value e) 4 ltac:(lia)) as Hr.
      pose proof (Z.div_mod (words_value e) 4 ltac:(lia)) as Hdm.
      assert (0 <= x / 4 < 2 ^ 30) as Hx4.
      { split; [apply Z.div_pos; lia|apply Z.div_lt_upper_bound; lia]. }
      split; [|split].
      * rewrite !words_value_snoc, IHv.
        change (2 ^ 32) with (4 * 2 ^ 30).
        replace (words_value e * (4 * 2 ^ 30) + x)
          with (x + (words_value e * 2 ^ 30) * 4) by lia.
        rewrite Z.div_add by lia. change (2 ^ 30) with 1073741824. lia.
      * apply Forall_app. split; [exact IHok|].
        apply Forall_singleton.
        change (2 ^ 30) with 1073741824 in *.
        change (2 ^ 32) with 4294967296. lia.
      * rewrite !length_app, IHlen. reflexivity.
Qed.
(** ** Assembling an edge from scratch *)

Lemma le4_snoc (cs : list Z) (c : Z) :
  le4 (cs ++ [c]) = le4 cs + c * 2 ^ (2 * Z.of_nat (length cs)).
Proof.
  induction cs as [|x cs IH]; cbn [le4 app length].
  - cbn. lia.
  - rewrite IH.
    replace (2 * Z.of_nat (S (length cs)))
      with (2 + 2 * Z.of_nat (length cs)) by lia.
    rewrite Z.pow_add_r by lia. change (2 ^ 2) with 4. lia.
Qed.

Lemma le4_bound (cs : list Z) :
  bases_ok cs -> 0 <= le4 cs < 2 ^ (2 * Z.of_nat (length cs)).
Proof.
  intros Hok. induction Hok as [|c cs Hc _ IH]; cbn [le4 length].
  - cbn. lia.
  - replace (2 * Z.of_nat (S (length cs)))
      with (2 + 2 * Z.of_nat (length cs)) by lia.
    rewrite Z.pow_add_r by lia. change (2 ^ 2) with 4. lia.
Qed.

(** Folding the bases in, last base first, builds the number of the
    window. *)
Lemma foldl_le4 (cs : list Z) (x : Z) :
  foldl (fun a c => 4 * a + c) x (rev cs)
  = x * 2 ^ (2 * Z.of_nat (length cs)) + le4 cs.
Proof.
  revert x. induction cs as [|c cs IH]; intros x; cbn [rev le4 length].
  - cbn. lia.
  - rewrite foldl_app. cbn [foldl]. rewrite IH.
    replace (2 * Z.of_nat (S (length cs)))
      with (2 + 2 * Z.of_nat (length cs)) by lia.
    rewrite Z.pow_add_r by lia. change (2 ^ 2) with 4. lia.
Qed.

(** The state of the loop of lines 345-353 after [j = 16 * length D + r]
    bases: the full words [D], then zeros, and [r] bases in [w]. *)
Lemma fill_words_spec (seq : list Z) (off next_k : Z) (m : nat) :
  forall (j w r : Z) (D : list Z) (room : nat),
    0 <= r < 16 -> j = 16 * Z.of_nat (length D) + r ->
    0 <= w < 2 ^ (2 * r) -> words_ok D ->
    (forall t, j <= t < j + Z.of_nat m ->
       0 <= CharAt seq (off + (next_k - t)) < 4) ->
    (j + Z.of_nat m) / 16 <= Z.of_nat (length D + room) - 1 ->
    exists (w' r' : Z) (D' : list Z) (room' : nat),
      fill_words seq off next_k m j w (length D) (D ++ replicate room 0)
      = (w', length D', D' ++ replicate room' 0)
      /\ (length D' + room' = length D + room)%nat
      /\ 0 <= r' < 16 /\ j + Z.of_nat m = 16 * Z.of_nat (length D') + r'
      /\ 0 <= w' < 2 ^ (2 * r') /\ words_ok D'
      /\ words_value D' * 2 ^ (2 * r') + w'
         = foldl (fun a c => 4 * a + c)
                 (words_value D * 2 ^ (2 * r) + w)
                 ((fun t => CharAt seq (off + (next_k - t)))
                    <$> seqZ j (Z.of_nat m)).
Proof.
  induction m as [|m IH]; intros j w r D room Hr Hj Hw HD Hcs Hroom.
  - exists w, r, D, room. cbn [fill_words]. rewrite seqZ_nil by lia. cbn.
    repeat split; auto; lia.
  - cbn [fill_words].
    pose proof (Hcs j ltac:(lia)) as Hc.
    set (c := CharAt seq (off + (next_k - j))) in *.
    assert (2 ^ (2 * (r + 1)) = 4 * 2 ^ (2 * r)) as Hpow.
    { replace (2 * (r + 1)) with (2 + 2 * r) by lia.
      now rewrite Z.pow_add_r by lia. }
    assert (2 ^ (2 * r) <= 2 ^ 30) as Hle
        by (apply Z.pow_le_mono_r; lia).
    assert (u32 (Z.lor (Z.shiftl w 2) c) = 4 * w + c) as Hw1.
    { rewrite shift_in_base by lia. unfold u32.
      apply Z.mod_small. change (2 ^ 30) with 1073741824 in Hle.
      change (2 ^ 32) with 4294967296. lia. }
    rewrite Hw1.
    rewrite seqZ_cons by lia. cbn [fmap list_fmap foldl]. fold c.
    replace (Z.pred (Z.of_nat (S m))) with (Z.of_nat m) by lia.
    replace (Z.succ j) with (j + 1) by lia.
    destruct (Z.eqb_spec ((j + 1) mod 16) 0) as [Hfull|Hpart].
    + (* the sixteenth base of a word: the word is stored *)
      assert (r = 15) as -> by (Z.div_mod_to_equations; lia).
      destruct room as [|room].
      { exfalso. revert Hroom. Z.div_mod_to_equations. lia. }
      assert (<[length D := 4 * w + c]> (D ++ replicate (S room) 0)
              = (D ++ [4 * w + c]) ++ replicate room 0) as Eins.
      { cbn [replicate]. rewrite <- (Nat.add_0_r (length D)) at 1.
        rewrite insert_app_r. cbn. now rewrite <- app_assoc. }
      rewrite Eins.
      replace (S (length D)) with (length (D ++ [4 * w + c]))
        by (rewrite length_app; cbn; lia).
      destruct (IH (j + 1) 0 0 (D ++ [4 * w + c]) room)
        as (w' & r' & D' & room' & Hrun & Hlen & Hr' & Hj' & Hw' & HD' & Hval).
      * lia.
      * rewrite length_app. cbn [length]. lia.
      * cbn. lia.
      * apply Forall_app. split; [exact HD|]. apply Forall_singleton.
        change (2 ^ (2 * 15)) with 1073741824 in Hw.
        change (2 ^ 32) with 4294967296. lia.
      * intros t Ht. apply Hcs. lia.
      * rewrite length_app. cbn [length].
        replace (j + 1 + Z.of_nat m) with (j + Z.of_nat (S m)) by lia. lia.
      * exists w', r', D', room'. rewrite Hrun.
        split; [reflexivity|].
        split; [rewrite Hlen, length_app; cbn [length]; lia|].
        split; [exact Hr'|]. split; [lia|]. split; [exact Hw'|].
        split; [exact HD'|].
        rewrite Hval, words_value_snoc. f_equal.
        change (2 ^ (2 * 0)) with 1.
        change (2 ^ (2 * 15)) with 1073741824.
        change (2 ^ 32) with 4294967296. lia.
    + (* the word is not full yet *)
      destruct (IH (j + 1) (4 * w + c) (r + 1) D room)
        as (w' & r' & D' & room' & Hrun & Hlen & Hr' & Hj' & Hw' & HD' & Hval).
      * revert Hpart. Z.div_mod_to_equations. lia.
      * lia.
      * rewrite Hpow. lia.
      * exact HD.
      * intros t Ht. apply Hcs. lia.
      * replace (j + 1 + Z.of_nat m) with (j + Z.of_nat (S m)) by lia. lia.
      * exists w', r', D', room'. rewrite Hrun.
        split; [reflexivity|]. split; [exact Hlen|].
        split; [exact Hr'|]. split; [lia|]. split; [exact Hw'|].
        split; [exact HD'|].
        rewrite Hval, Hpow. f_equal. lia.
Qed.
(** ** The multiplicity field *)

Lemma last_word_value (e : list Z) :
  words_ok e -> (0 < length e)%nat ->
  e !! (length e - 1)%nat = Some (words_value e mod 2 ^ 32).
Proof.
  intros Hok Hlen. rewrite words_value_lookup by (auto; lia). f_equal.
  replace (32 * (Z.of_nat (length e) - 1 - Z.of_nat (length e - 1)))
    with 0 by lia.
  now rewrite Z.pow_0_r, Z.div_1_r.
Qed.

(** [packed_edge[kWordsPerEdge - 1] |= multiplicity] on words whose low
    sixteen bits are clear. *)
Lemma or_multiplicity (e : list Z) (mult : Z) :
  words_ok e -> (0 < length e)%nat ->
  words_value e mod 2 ^ 16 = 0 -> 0 <= mult < 2 ^ 16 ->
  let e' := alter (fun x => Z.lor x mult) (length e - 1)%nat e in
  words_value e' = words_value e + mult
  /\ words_ok e' /\ length e' = length e.
Proof.
  intros Hok Hlen Hlow Hm e'.
  pose proof (last_word_value e Hok Hlen) as Hlast.
  assert (words_value e mod 2 ^ 32
          = (words_value e / 2 ^ 16) mod 2 ^ 16 * 2 ^ 16) as Hw.
  { rewrite (Z.div_mod (words_value e) (2 ^ 16)) at 1 by lia.
    rewrite Hlow, Z.add_0_r.
    change (2 ^ 32) with (2 ^ 16 * 2 ^ 16).
    rewrite Z.mul_mod_distr_l by lia. lia. }
  rewrite Hw in Hlast.
  pose proof (Z.mod_pos_bound (words_value e / 2 ^ 16) (2 ^ 16) ltac:(lia))
    as Hb.
  set (hi := (words_value e / 2 ^ 16) mod 2 ^ 16) in *.
  split; [|split].
  - subst e'. rewrite (words_value_alter _ e _ _ Hlast).
    rewrite lor_disjoint by lia.
    replace (32 * (Z.of_nat (length e) - 1 - Z.of_nat (length e - 1)))
      with 0 by lia.
    rewrite Z.pow_0_r. lia.
  - apply words_ok_alter; [exact Hok|].
    intros x Hx. rewrite Hlast in Hx. injection Hx as <-.
    rewrite lor_disjoint by lia.
    change (2 ^ 16) with 65536 in *. change (2 ^ 32) with 4294967296. lia.
  - apply length_alter.
Qed.

(** [packed_edge[kWordsPerEdge - 1] ^= multiplicity] on words that hold the
    multiplicity in their low sixteen bits. *)
Lemma xor_multiplicity (e : list Z) (mult Y : Z) :
  words_ok e -> (0 < length e)%nat ->
  words_value e = Y * 2 ^ 16 + mult -> 0 <= mult < 2 ^ 16 ->
  let e' := alter (fun x => Z.lxor x mult) (length e - 1)%nat e in
  words_value e' = Y * 2 ^ 16
  /\ words_ok e' /\ length e' = length e.
Proof.
  intros Hok Hlen Hval Hm e'.
  pose proof (last_word_value e Hok Hlen) as Hlast.
  assert (words_value e mod 2 ^ 32 = Y mod 2 ^ 16 * 2 ^ 16 + mult) as Hw.
  { rewrite Hval.
    rewrite (Z.div_mod Y (2 ^ 16)) at 1 by lia.
    replace ((2 ^ 16 * (Y / 2 ^ 16) + Y mod 2 ^ 16) * 2 ^ 16 + mult)
      with (Y mod 2 ^ 16 * 2 ^ 16 + mult + (Y / 2 ^ 16) * 2 ^ 32)
      by (change (2 ^ 32) with (2 ^ 16 * 2 ^ 16); lia).
    rewrite Z.mod_add by lia. apply Z.mod_small.
    pose proof (Z.mod_pos_bound Y (2 ^ 16) ltac:(lia)).
    change (2 ^ 16) with 65536 in *. change (2 ^ 32) with 4294967296. lia. }
  rewrite Hw in Hlast.
  pose proof (Z.mod_pos_bound Y (2 ^ 16) ltac:(lia)) as Hb.
  set (hi := Y mod 2 ^ 16) in *.
  split; [|split].
  - subst e'. rewrite (words_value_alter _ e _ _ Hlast).
    rewrite lxor_clear by lia.
    replace (32 * (Z.of_nat (length e) - 1 - Z.of_nat (length e - 1)))
      with 0 by lia.
    rewrite Z.pow_0_r. lia.
  - apply words_ok_alter; [exact Hok|].
    intros x Hx. rewrite Hlast in Hx. injection Hx as <-.
    rewrite lxor_clear by lia.
    change (2 ^ 16) with 65536 in *. change (2 ^ 32) with 4294967296. lia.
  - apply length_alter.
Qed.

(** ** The edge assembled from scratch *)

Lemma kWordsPerEdge_room (k s : Z) :
  0 <= k + s ->
  (k + s + 1) / 16 + 1 <= kWordsPerEdge k s
  /\ 2 * (k + s + 1) + 16 <= 32 * kWordsPerEdge k s.
Proof.
  intros Hn. unfold kWordsPerEdge, kBitsPerEdgeChar, kBitsPerMulti_t.
  Z.div_mod_to_equations. lia.
Qed.

Lemma rev_window (seq : list Z) (off n : Z) :
  0 <= n ->
  rev (window seq off n)
  = (fun t => CharAt seq (off + (n - 1 - t))) <$> seqZ 0 n.
Proof.
  intros Hn. unfold window.
  change (CharAt seq <$> ?l) with (map (CharAt seq) l).
  rewrite <- map_rev, rev_seqZ_Z by lia.
  change (map ?f ?l) with (f <$> l). rewrite <- list_fmap_compose.
  apply list_fmap_ext. intros i t Ht. cbn. f_equal. lia.
Qed.

Lemma assemble_edge_value (k s : Z) (seq : list Z) (off mult : Z) :
  0 <= k + s ->
  bases_ok (window seq off (k + s + 1)) ->
  0 <= mult < 2 ^ 16 ->
  let e := assemble_edge k s seq off mult in
  let W := kWordsPerEdge k s in
  Z.of_nat (length e) = W
  /\ words_ok e
  /\ words_value e
     = le4 (window seq off (k + s + 1)) * 2 ^ (32 * W - 2 * (k + s + 1))
       + mult.
Proof.
  intros Hn Hbases Hm. cbv zeta.
  destruct (kWordsPerEdge_room k s Hn) as [HW1 HW2].
  set (W := kWordsPerEdge k s) in *.
  set (n := k + s + 1) in *.
  unfold assemble_edge. fold W.
  replace (k + s + 1) with n by reflexivity.
  assert (Hchars : forall t, 0 <= t < 0 + Z.of_nat (Z.to_nat n) ->
                     0 <= CharAt seq (off + (k + s - t)) < 4).
  { intros t Ht. unfold bases_ok, window in Hbases.
    rewrite Forall_fmap, Forall_seqZ in Hbases.
    apply (Hbases (off + (k + s - t))). subst n. lia. }
  assert (Hroom : (0 + Z.of_nat (Z.to_nat n)) / 16
                  <= Z.of_nat (length (@nil Z) + Z.to_nat W) - 1).
  { cbn [length]. assert (0 <= n / 16) by (apply Z.div_pos; subst n; lia).
    rewrite Z.add_0_l, Z2Nat.id by (subst n; lia). lia. }
  destruct (fill_words_spec seq off (k + s) (Z.to_nat n) 0 0 0 [] (Z.to_nat W)
              ltac:(lia) ltac:(cbn; lia) ltac:(cbn; lia) (Forall_nil_2 _)
              Hchars Hroom)
    as (w' & r' & D' & room' & Hrun & Hlen & Hr' & Hj' & Hw' & HD' & Hval).
  cbn [length app] in Hrun, Hlen. rewrite Hrun. clear Hrun.
  rewrite Z2Nat.id in Hj', Hval by (subst n; lia).
  assert (foldl (fun a c => 4 * a + c) (words_value [] * 2 ^ (2 * 0) + 0)
                ((fun t => CharAt seq (off + (k + s - t))) <$> seqZ 0 n)
          = le4 (window seq off n)) as HX.
  { replace ((fun t => CharAt seq (off + (k + s - t))) <$> seqZ 0 n)
      with (rev (window seq off n)).
    - rewrite foldl_le4. cbn. lia.
    - rewrite rev_window by (subst n; lia).
      apply list_fmap_ext. intros i t Ht. cbn. f_equal. subst n. lia. }
  rewrite HX in Hval. clear HX.
  destruct room' as [|room'].
  { exfalso. revert HW1. subst n. Z.div_mod_to_equations. lia. }
  (* the partial word, shifted up *)
  assert (last_shift (k + s) = if r' =? 0 then 0 else 32 - 2 * r') as Hls.
  { unfold last_shift. replace (k + s + 1) with n by reflexivity.
    replace (n mod 16) with r'
      by (apply (Z.mod_unique _ _ (Z.of_nat (length D'))); lia).
    destruct (r' =? 0); lia. }
  assert (u32 (Z.shiftl w' (last_shift (k + s))) = w' * 2 ^ (32 - 2 * r'))
    as Hv.
  { rewrite Hls. destruct (Z.eqb_spec r' 0) as [->|Hr0].
    - change (2 ^ (2 * 0)) with 1 in Hw'. assert (w' = 0) as -> by lia.
      reflexivity.
    - rewrite Z.shiftl_mul_pow2 by lia. unfold u32. apply Z.mod_small.
      assert (2 ^ 32 = 2 ^ (2 * r') * 2 ^ (32 - 2 * r')) as ->
          by (rewrite <- Z.pow_add_r by lia; f_equal; lia).
      assert (0 < 2 ^ (32 - 2 * r')) by (apply Z.pow_pos_nonneg; lia).
      nia. }
  rewrite Hv.
  assert (<[length D' := w' * 2 ^ (32 - 2 * r')]>
            (D' ++ replicate (S room') 0)
          = D' ++ [w' * 2 ^ (32 - 2 * r')] ++ replicate room' 0) as Eins.
  { cbn [replicate]. rewrite <- (Nat.add_0_r (length D')) at 1.
    now rewrite insert_app_r. }
  rewrite Eins. clear Eins.
  set (e1 := D' ++ [w' * 2 ^ (32 - 2 * r')] ++ replicate room' 0).
  assert (length e1 = Z.to_nat W) as Hlen1.
  { subst e1. rewrite !length_app, length_replicate. cbn [length]. lia. }
  assert (0 < 2 ^ (32 - 2 * r')) as Hp1 by (apply Z.pow_pos_nonneg; lia).
  assert (2 ^ 32 = 2 ^ (2 * r') * 2 ^ (32 - 2 * r')) as Hp2
      by (rewrite <- Z.pow_add_r by lia; f_equal; lia).
  assert (words_ok e1) as Hok1.
  { subst e1. apply Forall_app. split; [exact HD'|].
    apply Forall_app. split; [|apply words_ok_zeros].
    apply Forall_singleton. rewrite Hp2. nia. }
  assert (words_value e1
          = le4 (window seq off n) * 2 ^ (32 * W - 2 * n)) as Hval1.
  { subst e1. rewrite !words_value_app, words_value_zeros, length_replicate.
    cbn [length]. change (words_value [?x]) with (0 * 2 ^ 32 + x).
    rewrite <- Hval.
    rewrite length_app, length_replicate. cbn [length].
    replace (32 * Z.of_nat (1 + room')) with (32 + 32 * Z.of_nat room') by lia.
    assert (32 * W - 2 * n = (32 - 2 * r') + 32 * Z.of_nat room') as ->
        by lia.
    rewrite !Z.pow_add_r, Hp2 by lia. lia. }
  replace (Z.to_nat W - 1)%nat with (length e1 - 1)%nat by lia.
  destruct (or_multiplicity e1 mult Hok1 ltac:(lia)) as (Hv2 & Hok2 & Hlen2);
    [|exact Hm|].
  { rewrite Hval1.
    assert (32 * W - 2 * n = (32 * W - 2 * n - 16) + 16) as -> by lia.
    rewrite Z.pow_add_r, Z.mul_assoc by lia. apply Z.mod_mul. lia. }
  rewrite Hlen2, Hv2, Hval1. repeat split; auto. lia.
Qed.
(** ** The sliding update *)

(** Lines 360-367 on an edge that holds the window [c0 :: rest] and the
    multiplicity: the multiplicity and the slot of [c0] are cleared, the
    bases move down one slot, and the new base [c] enters at the top; [B]
    is the number of [rest]. *)
Lemma slide_before_multi_value (k s : Z) (e : list Z) (c0 B c mult : Z) :
  0 <= k + s ->
  let n := k + s + 1 in
  let W := kWordsPerEdge k s in
  Z.of_nat (length e) = W -> words_ok e ->
  words_value e = (c0 + 4 * B) * 2 ^ (32 * W - 2 * n) + mult ->
  0 <= c0 < 4 -> 0 <= B < 2 ^ (2 * (n - 1)) -> 0 <= c < 4 ->
  0 <= mult < 2 ^ 16 ->
  let e' := slide_before_multi k s e c mult in
  Z.of_nat (length e') = W
  /\ words_ok e'
  /\ words_value e' = (B + c * 2 ^ (2 * (n - 1))) * 2 ^ (32 * W - 2 * n).
Proof.
  intros Hn n W Hlen Hok Hval Hc0 HB Hc Hm.
  destruct (kWordsPerEdge_room k s Hn) as [HW1 HW2].
  fold W in HW1, HW2. fold n in HW1, HW2.
  unfold slide_before_multi. fold W.
  replace (Z.to_nat W - 1)%nat with (length e - 1)%nat by lia.
  assert (0 <= n / 16) as Hq by (apply Z.div_pos; subst n; lia).
  (* the powers of two at play *)
  set (S16 := 2 ^ (32 * W - 2 * n - 16)).
  assert (2 ^ (32 * W - 2 * n) = S16 * 2 ^ 16) as HS.
  { subst S16. rewrite <- Z.pow_add_r by lia. f_equal. lia. }
  assert (0 < S16) as HS16 by (apply Z.pow_pos_nonneg; lia).
  (* 1. the multiplicity is cleared *)
  destruct (xor_multiplicity e mult ((c0 + 4 * B) * S16) Hok ltac:(lia))
    as (Hv1 & Hok1 & Hlen1); [rewrite Hval, HS; lia | exact Hm |].
  set (e1 := alter (fun x => Z.lxor x mult) (length e - 1)%nat e) in *.
  (* 2. the slot of the base that leaves is cleared *)
  set (idx := Z.to_nat ((k + s) / 16)).
  set (sh := (15 - (k + s) mod 16) * 2).
  assert (0 <= (k + s) / 16 <= n / 16) as Hidx.
  { split; [apply Z.div_pos; lia|]. apply Z.div_le_mono; subst n; lia. }
  pose proof (Z.mod_pos_bound (k + s) 16 ltac:(lia)) as Hmod.
  pose proof (Z.div_mod (k + s) 16 ltac:(lia)) as Hdm.
  set (T := 32 * (Z.of_nat (length e1) - 1 - Z.of_nat idx)).
  assert (0 <= T) as HT by (subst T idx; lia).
  assert (0 <= sh <= 30) as Hsh by (subst sh; lia).
  assert (32 * W - 2 * n = sh + T) as HshT by (subst sh T idx n; lia).
  assert (0 < 2 ^ sh) as Hpsh by (apply Z.pow_pos_nonneg; lia).
  assert (0 < 2 ^ T) as HpT by (apply Z.pow_pos_nonneg; lia).
  assert (2 ^ 32 = 2 ^ (32 - sh) * 2 ^ sh) as H32
      by (rewrite <- Z.pow_add_r by lia; f_equal; lia).
  assert (2 ^ (32 - sh) = 2 ^ (30 - sh) * 4) as H30
      by (change 4 with (2 ^ 2); rewrite <- Z.pow_add_r by lia; f_equal; lia).
  assert (e1 !! idx
          = Some (((c0 + 4 * B) mod 2 ^ (32 - sh)) * 2 ^ sh)) as Hx.
  { rewrite words_value_lookup by (auto; subst idx; lia). fold T. f_equal.
    rewrite Hv1, <- Z.mul_assoc, <- HS, HshT, Z.pow_add_r by lia.
    rewrite Z.mul_assoc, Z.div_mul by lia.
    rewrite H32. apply Z.mul_mod_distr_r; lia. }
  set (x := (c0 + 4 * B) mod 2 ^ (32 - sh) * 2 ^ sh) in *.
  assert ((x / 2 ^ sh) mod 4 = c0) as Hslot.
  { subst x. rewrite Z.div_mul by lia.
    rewrite Z.mod_mod_divide by (exists (2 ^ (30 - sh)); exact H30).
    replace (c0 + 4 * B) with (c0 + B * 4) by lia.
    rewrite Z.mod_add by lia. apply Z.mod_small. lia. }
  assert (0 <= x < 2 ^ 32) as Hxb.
  { exact (proj1 (Forall_lookup _ _) Hok1 idx x Hx). }
  assert (c0 * 2 ^ sh <= x) as Hcx.
  { rewrite <- Hslot.
    pose proof (Z.mod_le (x / 2 ^ sh) 4 ltac:(apply Z.div_pos; lia)
                         ltac:(lia)).
    pose proof (Z.mul_div_le x (2 ^ sh) Hpsh). nia. }
  set (e2 := alter (fun x0 => Z.land x0 (u32 (Z.lnot (Z.shiftl 3 sh)))) idx e1).
  assert (words_value e2 = 4 * B * 2 ^ (32 * W - 2 * n)) as Hv2.
  { subst e2. rewrite (words_value_alter _ e1 idx x Hx).
    rewrite land_clear_slot, Hslot by lia. fold T.
    rewrite Hv1, <- Z.mul_assoc, <- HS, HshT, Z.pow_add_r by lia. lia. }
  assert (words_ok e2) as Hok2.
  { apply words_ok_alter; [exact Hok1|].
    intros y Hy. rewrite Hx in Hy. injection Hy as <-.
    rewrite land_clear_slot, Hslot by lia. lia. }
  assert (length e2 = length e) as Hlen2
      by (subst e2; now rewrite length_alter).
  (* 3. the words move right by two bits *)
  replace (length e - 1)%nat with (length e2 - 1)%nat by lia.
  destruct (shift_right_value e2 Hok2) as (Hv3 & Hok3 & Hlen3).
  set (e3 := alter (fun x0 => Z.shiftr x0 2) 0%nat
                   (shift_words (length e2 - 1) e2)) in *.
  rewrite Hv2 in Hv3.
  replace (4 * B * 2 ^ (32 * W - 2 * n))
    with (B * 2 ^ (32 * W - 2 * n) * 4) in Hv3 by lia.
  rewrite Z.div_mul in Hv3 by lia.
  (* 4. the new base enters at the top *)
  set (T0 := 32 * (Z.of_nat (length e3) - 1 - Z.of_nat 0)).
  assert (0 <= T0) as HT0 by (subst T0; lia).
  assert (0 < 2 ^ T0) as HpT0 by (apply Z.pow_pos_nonneg; lia).
  assert (2 ^ (2 * (n - 1)) * 2 ^ (32 * W - 2 * n) = 2 ^ 30 * 2 ^ T0) as Htop.
  { rewrite <- !Z.pow_add_r by (subst T0 n; lia). f_equal. subst T0. lia. }
  assert (0 < 2 ^ (32 * W - 2 * n)) as HpS by (apply Z.pow_pos_nonneg; lia).
  assert (0 <= words_value e3 / 2 ^ T0 < 2 ^ 30) as Hx0.
  { split.
    - apply Z.div_pos; [rewrite Hv3; apply Z.mul_nonneg_nonneg; lia | lia].
    - apply Z.div_lt_upper_bound; [lia|]. rewrite Hv3.
      apply Z.lt_le_trans
        with (2 ^ (2 * (n - 1)) * 2 ^ (32 * W - 2 * n));
        [apply Z.mul_lt_mono_pos_r; lia
        | rewrite Htop, Z.mul_comm; reflexivity]. }
  assert (e3 !! 0%nat = Some (words_value e3 / 2 ^ T0)) as Hx0'.
  { rewrite words_value_lookup by (auto; lia). fold T0. f_equal.
    apply Z.mod_small. change (2 ^ 30) with 1073741824 in Hx0.
    change (2 ^ 32) with 4294967296. lia. }
  set (e4 := alter (fun x0 => Z.lor x0 (u32 (Z.shiftl c 30))) 0%nat e3).
  split; [subst e4; rewrite length_alter; lia|].
  split.
  - apply words_ok_alter; [exact Hok3|].
    intros y Hy. rewrite Hx0' in Hy. injection Hy as <-.
    rewrite or_new_base by lia.
    change (2 ^ 30) with 1073741824 in *. change (2 ^ 32) with 4294967296.
    lia.
  - subst e4. rewrite (words_value_alter _ e3 0 _ Hx0').
    rewrite or_new_base by lia. fold T0. rewrite Hv3. nia.
Qed.
Lemma shifted_mod_2_16 (X a : Z) : 16 <= a -> (X * 2 ^ a) mod 2 ^ 16 = 0.
Proof.
  intros Ha. replace a with ((a - 16) + 16) by lia.
  rewrite Z.pow_add_r, Z.mul_assoc by lia. apply Z.mod_mul. lia.
Qed.

Lemma slide_edge_value (k s : Z) (e : list Z) (c0 B c mult : Z) :
  0 <= k + s ->
  let n := k + s + 1 in
  let W := kWordsPerEdge k s in
  Z.of_nat (length e) = W -> words_ok e ->
  words_value e = (c0 + 4 * B) * 2 ^ (32 * W - 2 * n) + mult ->
  0 <= c0 < 4 -> 0 <= B < 2 ^ (2 * (n - 1)) -> 0 <= c < 4 ->
  0 <= mult < 2 ^ 16 ->
  let e' := slide_edge k s e c mult in
  Z.of_nat (length e') = W
  /\ words_ok e'
  /\ words_value e'
     = (B + c * 2 ^ (2 * (n - 1))) * 2 ^ (32 * W - 2 * n) + mult.
Proof.
  cbv zeta. intros Hn Hlen Hok Hval Hc0 HB Hc Hm.
  destruct (slide_before_multi_value k s e c0 B c mult Hn Hlen Hok Hval
              Hc0 HB Hc Hm) as (Hlen' & Hok' & Hval').
  destruct (kWordsPerEdge_room k s Hn) as [HW1 HW2].
  assert (0 <= (k + s + 1) / 16) as Hq by (apply Z.div_pos; lia).
  unfold slide_edge.
  set (e4 := slide_before_multi k s e c mult) in *.
  replace (Z.to_nat (kWordsPerEdge k s) - 1)%nat
    with (length e4 - 1)%nat by lia.
  destruct (or_multiplicity e4 mult Hok' ltac:(lia))
    as (Hv5 & Hok5 & Hlen5); [|exact Hm|].
  { rewrite Hval'. apply shifted_mod_2_16. lia. }
  rewrite Hlen5, Hv5, Hval'. auto.
Qed.

(** The [assert] of line 368 holds: before the multiplicity is put back
    its sixteen bits are clear. *)
Lemma slide_assertion_holds (k s : Z) (e : list Z) (c0 B c mult : Z) :
  0 <= k + s ->
  let n := k + s + 1 in
  let W := kWordsPerEdge k s in
  Z.of_nat (length e) = W -> words_ok e ->
  words_value e = (c0 + 4 * B) * 2 ^ (32 * W - 2 * n) + mult ->
  0 <= c0 < 4 -> 0 <= B < 2 ^ (2 * (n - 1)) -> 0 <= c < 4 ->
  0 <= mult < 2 ^ 16 ->
  Z.land (slide_before_multi k s e c mult !!! (Z.to_nat W - 1)%nat)
         kMaxMulti_t = 0.
Proof.
  cbv zeta. intros Hn Hlen Hok Hval Hc0 HB Hc Hm.
  destruct (slide_before_multi_value k s e c0 B c mult Hn Hlen Hok Hval
              Hc0 HB Hc Hm) as (Hlen' & Hok' & Hval').
  destruct (kWordsPerEdge_room k s Hn) as [HW1 HW2].
  assert (0 <= (k + s + 1) / 16) as Hq by (apply Z.div_pos; lia).
  set (e4 := slide_before_multi k s e c mult) in *.
  replace (Z.to_nat (kWordsPerEdge k s) - 1)%nat
    with (length e4 - 1)%nat by lia.
  assert (e4 !!! (length e4 - 1)%nat = words_value e4 mod 2 ^ 32) as ->
      by (apply list_lookup_total_correct, last_word_value;
          [exact Hok'|lia]).
  change kMaxMulti_t with (Z.ones 16). rewrite Z.land_ones by lia.
  rewrite Z.mod_mod_divide by (exists (2 ^ 16); reflexivity).
  rewrite Hval'. apply shifted_mod_2_16. lia.
Qed.

(** ** Sliding equals assembling *)

Lemma bases_ok_window (seq : list Z) (off n : Z) :
  bases_ok seq -> bases_ok (window seq off n).
Proof.
  intros Hok. unfold bases_ok, window. apply Forall_fmap, Forall_forall.
  intros j _. unfold CharAt. cbn.
  destruct (nth_in_or_default (Z.to_nat j) seq 0) as [Hin| ->]; [|lia].
  unfold bases_ok in Hok. rewrite List.Forall_forall in Hok. now apply Hok.
Qed.

Lemma window_cons (seq : list Z) (off n : Z) :
  0 < n ->
  window seq off n = CharAt seq off :: window seq (off + 1) (n - 1).
Proof.
  intros Hn. unfold window. rewrite seqZ_cons by lia. cbn. do 3 f_equal; lia.
Qed.

Lemma window_snoc (seq : list Z) (off n : Z) :
  0 <= n ->
  window seq off (n + 1) = window seq off n ++ [CharAt seq (off + n)].
Proof. intros Hn. now rewrite window_app by lia. Qed.

(** One sliding update of the edge assembled at [off] is the edge
    assembled at [off + 1]. *)
Lemma slide_assembled (k s : Z) (seq : list Z) (off mult : Z) :
  0 <= k + s -> bases_ok seq -> 0 <= mult < 2 ^ 16 ->
  slide_edge k s (assemble_edge k s seq off mult)
             (CharAt seq (off + (k + s + 1))) mult
  = assemble_edge k s seq (off + 1) mult.
Proof.
  intros Hn Hseq Hm.
  set (n := k + s + 1).
  destruct (assemble_edge_value k s seq off mult Hn
              (bases_ok_window seq off _ Hseq) Hm) as (Hl0 & Hok0 & Hv0).
  destruct (assemble_edge_value k s seq (off + 1) mult Hn
              (bases_ok_window seq (off + 1) _ Hseq) Hm)
    as (Hl1 & Hok1 & Hv1).
  fold n in Hv0, Hv1.
  set (rest := window seq (off + 1) (n - 1)).
  assert (bases_ok rest) as Hrest by (apply bases_ok_window, Hseq).
  pose proof (le4_bound rest Hrest) as HB.
  assert (Z.of_nat (length rest) = n - 1) as Hlr
      by (subst rest; rewrite length_window; subst n; lia).
  rewrite Hlr in HB.
  assert (0 <= CharAt seq off < 4) as Hc0.
  { pose proof (bases_ok_window seq off 1 Hseq) as H.
    now apply Forall_inv in H. }
  assert (0 <= CharAt seq (off + n) < 4) as Hc.
  { pose proof (bases_ok_window seq (off + n) 1 Hseq) as H.
    now apply Forall_inv in H. }
  rewrite (window_cons seq off n) in Hv0 by (subst n; lia).
  fold rest in Hv0. cbn [le4] in Hv0.
  replace n with ((n - 1) + 1) in Hv1 at 1 by lia.
  rewrite window_snoc in Hv1 by (subst n; lia). fold rest in Hv1.
  rewrite le4_snoc, Hlr in Hv1.
  replace (off + 1 + (n - 1)) with (off + n) in Hv1 by lia.
  destruct (slide_edge_value k s (assemble_edge k s seq off mult)
              (CharAt seq off) (le4 rest) (CharAt seq (off + n)) mult
              Hn Hl0 Hok0 Hv0 Hc0 HB Hc Hm) as (Hl2 & Hok2 & Hv2).
  fold n in Hv2.
  apply words_value_inj; auto; [lia|congruence].
Qed.

Lemma slide_loop_assembled (k s : Z) (seq : list Z) (mult : Z) (m : nat) :
  0 <= k + s -> bases_ok seq -> 0 <= mult < 2 ^ 16 ->
  forall off : Z,
    slide_loop k s seq mult (seqZ (off + (k + s + 1)) (Z.of_nat m))
               (assemble_edge k s seq off mult)
    = (fun p => assemble_edge k s seq p mult) <$> seqZ (off + 1) (Z.of_nat m).
Proof.
  intros Hn Hseq Hm. induction m as [|m IH]; intros off.
  - reflexivity.
  - rewrite (seqZ_cons (off + (k + s + 1)) (Z.of_nat (S m))) by lia.
    rewrite (seqZ_cons (off + 1) (Z.of_nat (S m))) by lia.
    replace (Z.pred (Z.of_nat (S m))) with (Z.of_nat m) by lia.
    cbn [slide_loop fmap list_fmap].
    rewrite slide_assembled by assumption. f_equal.
    replace (Z.succ (off + (k + s + 1))) with (off + 1 + (k + s + 1)) by lia.
    replace (Z.succ (off + 1)) with (off + 1 + 1) by lia.
    apply IH.
Qed.

(** The edges written for a contig are the edges of its windows, each as
    if assembled from scratch. *)
Lemma contig_edges_assembled (k s : Z) (seq : list Z) (mult : Z) :
  0 <= k + s -> bases_ok seq -> 0 <= mult < 2 ^ 16 ->
  k + s + 1 <= Z.of_nat (length seq) ->
  contig_edges k s seq mult
  = (fun p => assemble_edge k s seq p mult)
      <$> seqZ 0 (Z.of_nat (length seq) - (k + s + 1) + 1).
Proof.
  intros Hn Hseq Hm HL. unfold contig_edges.
  destruct (Z.ltb_spec (Z.of_nat (length seq)) (k + s + 1)); [lia|].
  rewrite (seqZ_cons 0) by lia. cbn [fmap list_fmap]. f_equal.
  replace (Z.pred (Z.of_nat (length seq) - (k + s + 1) + 1))
    with (Z.of_nat (Z.to_nat (Z.of_nat (length seq) - (k + s + 1)))) by lia.
  replace (Z.of_nat (length seq) - (k + s + 1))
    with (Z.of_nat (Z.to_nat (Z.of_nat (length seq) - (k + s + 1))))
    at 1 by lia.
  change (Z.succ 0) with (0 + 1).
  replace (k + s + 1) with (0 + (k + s + 1)) at 1 by lia.
  now apply slide_loop_assembled.
Qed.

(** A contig shorter than [k + s + 1] yields no edge. *)
Lemma contig_edges_short (k s : Z) (seq : list Z) (mult : Z) :
  Z.of_nat (length seq) - (k + s + 1) + 1 <= 0 ->
  contig_edges k s seq mult = [].
Proof.
  intros HL. unfold contig_edges.
  destruct (Z.ltb_spec (Z.of_nat (length seq)) (k + s + 1)); [reflexivity|lia].
Qed.

(** Every edge written for a contig carries the converted multiplicity in
    the low sixteen bits of its last word. *)
Lemma contig_edges_multiplicity (k s : Z) (seq : list Z) (mult : Z)
    (e : list Z) :
  0 <= k + s -> bases_ok seq -> 0 <= mult < 2 ^ 16 ->
  e ∈ contig_edges k s seq mult ->
  Z.land (e !!! (Z.to_nat (kWordsPerEdge k s) - 1)%nat) kMaxMulti_t = mult.
Proof.
  intros Hn Hseq Hm He.
  destruct (Z.ltb_spec (Z.of_nat (length seq)) (k + s + 1)) as [Hs|Hl].
  { rewrite contig_edges_short in He by lia. inversion He. }
  rewrite contig_edges_assembled in He by assumption.
  apply list_elem_of_fmap in He as (p & -> & _).
  destruct (assemble_edge_value k s seq p mult Hn
              (bases_ok_window seq p _ Hseq) Hm) as (Hl0 & Hok0 & Hv0).
  destruct (kWordsPerEdge_room k s Hn) as [HW1 HW2].
  assert (0 <= (k + s + 1) / 16) as Hq by (apply Z.div_pos; lia).
  set (e := assemble_edge k s seq p mult) in *.
  replace (Z.to_nat (kWordsPerEdge k s) - 1)%nat
    with (length e - 1)%nat by lia.
  assert (e !!! (length e - 1)%nat = words_value e mod 2 ^ 32) as ->
      by (apply list_lookup_total_correct, last_word_value;
          [exact Hok0|lia]).
  change kMaxMulti_t with (Z.ones 16). rewrite Z.land_ones by lia.
  rewrite Z.mod_mod_divide by (exists (2 ^ 16); reflexivity).
  rewrite Hv0, <- Z.add_mod_idemp_l, shifted_mod_2_16 by lia.
  apply Z.mod_small. lia.
Qed.

(** ** The extension hints *)

(** The loop of lines 288-290 (and 301-303) packs the bases from bit 63
    down, two bits each. *)
Lemma pack_loop_value (base : Z -> Z) (m : nat) :
  (forall j, 0 <= base j < 4) -> (m <= 32)%nat ->
  foldl (fun s_seq j => Z.lor s_seq (u64 (Z.shiftl (base j) ((31 - j) * 2))))
        0 (seqZ 0 (Z.of_nat m))
  = le4 (rev (base <$> seqZ 0 (Z.of_nat m))) * 2 ^ (64 - 2 * Z.of_nat m).
Proof.
  intros Hb. induction m as [|m IH]; intros Hm.
  - reflexivity.
  - rewrite seqZ_S, foldl_app, fmap_app, rev_app_distr. cbn [foldl fmap list_fmap rev app le4].
    rewrite IH by lia. clear IH.
    pose proof (Hb (0 + Z.of_nat m)) as Hc.
    set (H := le4 (rev (base <$> seqZ 0 (Z.of_nat m)))).
    assert (2 ^ (64 - 2 * Z.of_nat m)
            = 4 * 2 ^ (64 - 2 * Z.of_nat (S m))) as Hp.
    { change 4 with (2 ^ 2). rewrite <- Z.pow_add_r by lia. f_equal. lia. }
    assert (0 < 2 ^ (64 - 2 * Z.of_nat (S m))) as Hpos
        by (apply Z.pow_pos_nonneg; lia).
    assert (u64 (Z.shiftl (base (0 + Z.of_nat m)) ((31 - (0 + Z.of_nat m)) * 2))
            = base (0 + Z.of_nat m) * 2 ^ (64 - 2 * Z.of_nat (S m))) as Hu.
    { rewrite Z.shiftl_mul_pow2 by lia.
      replace ((31 - (0 + Z.of_nat m)) * 2) with (64 - 2 * Z.of_nat (S m))
        by lia.
      unfold u64. apply Z.mod_small.
      assert (2 ^ 64 = 2 ^ (2 * Z.of_nat (S m))
                       * 2 ^ (64 - 2 * Z.of_nat (S m))) as ->
          by (rewrite <- Z.pow_add_r by lia; f_equal; lia).
      assert (4 <= 2 ^ (2 * Z.of_nat (S m))).
      { change 4 with (2 ^ 2). apply Z.pow_le_mono_r; lia. }
      nia. }
    rewrite Hu, lor_disjoint by (rewrite ?Hp; nia).
    rewrite Hp. lia.
Qed.

Lemma pack_hint_value (s s_length : Z) (base : Z -> Z) :
  0 <= s_length <= s -> s <= 29 -> (forall j, 0 <= base j < 4) ->
  pack_hint s s_length base
  = le4 (rev (base <$> seqZ 0 s_length)) * 2 ^ (64 - 2 * s_length)
    + s_length.
Proof.
  intros Hl Hs Hb. unfold pack_hint. rewrite Z.min_r by lia.
  rewrite <- (Z2Nat.id s_length) at 1 2 3 by lia.
  rewrite pack_loop_value by (auto; lia).
  rewrite Z2Nat.id by lia.
  replace (64 - 2 * s_length) with ((58 - 2 * s_length) + 6) by lia.
  rewrite Z.pow_add_r, Z.mul_assoc by lia.
  apply lor_disjoint; [lia|]. change (2 ^ 6) with 64. lia.
Qed.

Lemma hint_length_pack (s s_length : Z) (base : Z -> Z) :
  0 <= s_length <= s -> s <= 29 -> (forall j, 0 <= base j < 4) ->
  hint_length (pack_hint s s_length base) = s_length.
Proof.
  intros Hl Hs Hb. rewrite pack_hint_value by assumption.
  unfold hint_length. change 63 with (Z.ones 6). rewrite Z.land_ones by lia.
  replace (64 - 2 * s_length) with ((58 - 2 * s_length) + 6) by lia.
  rewrite Z.pow_add_r, Z.mul_assoc by lia.
  rewrite Z.add_comm, Z.mod_add by lia.
  apply Z.mod_small. change (2 ^ 6) with 64. lia.
Qed.

(** Base [j] of the packed bases, read back. *)
Lemma packed_base_digit (base : Z -> Z) (m : nat) (j : Z) :
  (forall j, 0 <= base j < 4) -> 0 <= j < Z.of_nat m ->
  (le4 (rev (base <$> seqZ 0 (Z.of_nat m)))
     / 2 ^ (2 * (Z.of_nat m - 1 - j))) mod 4
  = base j.
Proof.
  intros Hb. induction m as [|m IH]; intros Hj; [lia|].
  rewrite seqZ_S, fmap_app, rev_app_distr. cbn [fmap list_fmap rev app le4].
  replace (0 + Z.of_nat m) with (Z.of_nat m) by lia.
  destruct (Z.eq_dec j (Z.of_nat m)) as [->|Hne].
  - replace (2 * (Z.of_nat (S m) - 1 - Z.of_nat m)) with 0 by lia.
    rewrite Z.pow_0_r, Z.div_1_r.
    rewrite Z.mul_comm, Z.mod_add by lia.
    apply Z.mod_small, Hb.
  - replace (2 * (Z.of_nat (S m) - 1 - j))
      with (2 + 2 * (Z.of_nat m - 1 - j)) by lia.
    rewrite Z.pow_add_r by lia. change (2 ^ 2) with 4.
    rewrite <- Z.div_div by (try lia; apply Z.pow_pos_nonneg; lia).
    rewrite Z.add_comm, Z.mul_comm, Z.div_add_l by lia.
    rewrite (Z.div_small (base (Z.of_nat m))) by apply Hb.
    rewrite Z.add_0_r. apply IH. lia.
Qed.

Lemma hint_base_pack (s s_length : Z) (base : Z -> Z) (j : Z) :
  0 <= s_length <= s -> s <= 29 -> (forall j, 0 <= base j < 4) ->
  0 <= j < s_length ->
  hint_base (pack_hint s s_length base) j = base j.
Proof.
  intros Hl Hs Hb Hj. rewrite pack_hint_value by assumption.
  unfold hint_base. rewrite Z.shiftr_div_pow2 by lia.
  change 3 with (Z.ones 2). rewrite Z.land_ones by lia. change (2 ^ 2) with 4.
  replace ((31 - j) * 2)
    with ((64 - 2 * s_length) + 2 * (s_length - 1 - j)) by lia.
  rewrite Z.pow_add_r by lia.
  assert (64 <= 2 ^ (64 - 2 * s_length)) as H3.
  { change 64 with (2 ^ 6). apply Z.pow_le_mono_r; lia. }
  rewrite <- Z.div_div by (try lia; apply Z.pow_pos_nonneg; lia).
  rewrite Z.div_add_l by lia.
  rewrite (Z.div_small s_length) by lia. rewrite Z.add_0_r.
  rewrite <- (Z2Nat.id s_length) by lia.
  apply packed_base_digit; [exact Hb|lia].
Qed.

Lemma CharAt_base (seq : list Z) (j : Z) :
  bases_ok seq -> 0 <= CharAt seq j < 4.
Proof.
  intros Hseq. pose proof (bases_ok_window seq j 1 Hseq) as H.
  now apply Forall_inv in H.
Qed.

(** The hint stored with the leading k-mer of a contig: its length is
    [s' = min(s, L - k)] and its bases are those that follow the k-mer. *)
Lemma prefix_hint_decode (k s : Z) (seq : list Z) :
  0 <= s <= 29 -> bases_ok seq -> k <= Z.of_nat (length seq) ->
  let s' := Z.min s (Z.of_nat (length seq) - k) in
  hint_length (prefix_hint k s seq) = s'
  /\ forall j, 0 <= j < s' ->
       hint_base (prefix_hint k s seq) j = CharAt seq (k + j).
Proof.
  intros Hs Hseq HL s'. unfold prefix_hint. fold s'.
  assert (forall j, 0 <= CharAt seq (j + k) < 4) as Hb
      by (intros; now apply CharAt_base).
  split.
  - apply hint_length_pack; [subst s'; lia | lia | exact Hb].
  - intros j Hj.
    rewrite (hint_base_pack s s' (fun j => CharAt seq (j + k)))
      by (try exact Hb; subst s'; lia).
    f_equal. lia.
Qed.

(** The hint stored with the reverse complement of the trailing k-mer: the
    same length, and the complements of the bases before the k-mer, read
    backwards. *)
Lemma suffix_rc_hint_decode (k s : Z) (seq : list Z) :
  0 <= s <= 29 -> bases_ok seq -> k <= Z.of_nat (length seq) ->
  let s' := Z.min s (Z.of_nat (length seq) - k) in
  hint_length (suffix_rc_hint k s seq) = s'
  /\ forall j, 0 <= j < s' ->
       hint_base (suffix_rc_hint k s seq) j
       = 3 - CharAt seq (Z.of_nat (length seq) - k - 1 - j).
Proof.
  intros Hs Hseq HL s'. unfold suffix_rc_hint. fold s'.
  assert (forall j,
            0 <= 3 - CharAt seq (Z.of_nat (length seq) - k - 1 - j) < 4) as Hb.
  { intros j.
    pose proof (CharAt_base seq (Z.of_nat (length seq) - k - 1 - j) Hseq).
    lia. }
  split.
  - apply hint_length_pack; [subst s'; lia | lia | exact Hb].
  - intros j Hj.
    now rewrite (hint_base_pack s s'
                   (fun j => 3 - CharAt seq
                                  (Z.of_nat (length seq) - k - 1 - j)))
      by (try exact Hb; subst s'; lia).
Qed.

(** * The claims *)

(** ** Option checking *)

Lemma ParseOptions_rejects_nonpositive_step (max_size threads : Z)
    (o : Options) :
  step o <= 0 -> rejected (ParseOptions max_size threads o).
Proof.
  intros Hs. unfold ParseOptions.
  repeat (match goal with
          | |- rejected (if ?b then _ else _) => destruct b eqn:?
          end; try (cbn; lia)).
  all: lia.
Qed.

Lemma ParseOptions_rejects_large_sum (max_size threads : Z) (o : Options) :
  max_size <= step o + kmer_k o ->
  rejected (ParseOptions max_size threads o).
Proof.
  intros Hs. unfold ParseOptions.
  destruct (Z.leb_spec max_size (step o + kmer_k o)); [cbn; lia|lia].
Qed.

(** No test of [ParseOptions] looks at [step] from above: with room in the
    k-mer ([kmer_k + step < max_size]) a step of 30 passes. *)
Lemma ParseOptions_no_upper_bound (max_size threads : Z) :
  51 < max_size ->
  ParseOptions max_size threads options_step_30 = Parsed options_step_30.
Proof.
  intros Hmax. unfold ParseOptions, options_step_30. cbn.
  destruct (Z.leb_spec max_size (30 + 21)); [lia|reflexivity].
Qed.

(** C9 (the code does not do this): the claim says that option checking
    ends the process with a non-zero status whenever [0 < step <= 29] fails.
    With [kmer_k = 21], [step = 30] and a k-mer capacity of 128 bases
    [ParseOptions] returns normally, the options unchanged: only
    [step <= 0] and [kmer_k + step >= max_size] are tested, although the
    help text of the option says [<= 29]. *)
Theorem ParseOptions_accepts_step_30 :
  step options_step_30 = 30
  /\ ParseOptions 128 8 options_step_30 = Parsed options_step_30
  /\ ~ rejected (ParseOptions 128 8 options_step_30).
Proof.
  split; [reflexivity|].
  rewrite ParseOptions_no_upper_bound by lia.
  split; [reflexivity|]. cbn. tauto.
Qed.

(** ** The contig pass *)

(** C7 as stated fails for an empty primary contig stream: the header is
    written inside the first round of the primary pass, and with no package
    there is no round.  Here the additional contigs still produce an edge,
    so [edges.0] holds one edge record and no header. *)
Lemma empty_primary_no_header :
  exists g,
    run keep_multiplicity 3 1 [] (Some [[mkContig [0; 1; 2; 3; 0] 7]]) []
    = Done g
    /\ output_edge_file g = [EdgeWords [956301319]]
    /\ ~ header_exactly_once 3 1 (output_edge_file g).
Proof.
  eexists. split; [vm_compute; reflexivity|].
  split; [reflexivity|].
  intros [es Hes]. discriminate Hes.
Qed.

(** C7, amended: when the primary contig stream yields at least one
    package, [edges.0] begins with the two header words, [next_k = k + s]
    then the number of words per edge, written once in the first round, and
    every later record is an edge, whatever the number of primary and
    additional packages and whatever the reads. *)
Theorem header_once_for_nonempty_primary {M : Type}
    (convert_multiplicity : Z -> Z -> Z -> M -> Z)
    (k s : Z) (p : list (contig M)) (rest : list (list (contig M)))
    (addi : option (list (list (contig M))))
    (reads : list (list (list Z))) :
  0 < k -> 0 < s ->
  exists g,
    run convert_multiplicity k s (p :: rest) addi reads = Done g
    /\ header_exactly_once k s (output_edge_file g)
    /\ exists es : list (list Z),
         edge_stream (output_edge_file g)
         = u32 (k + s) :: u32 (kWordsPerEdge k s) :: concat es.
Proof.
  intros Hk Hs.
  destruct (run_spec convert_multiplicity k s (p :: rest) addi reads Hk
              ltac:(lia))
    as (keys & drained & g & Hrun & _ & _ & _ & Hout).
  exists g. split; [exact Hrun|].
  destruct (contig_passes_out convert_multiplicity k s p rest addi)
    as (es & Hes).
  assert (header_exactly_once k s (output_edge_file g)) as Hhead.
  { rewrite Hout, Hes. exists (es ++ drained). now rewrite fmap_app. }
  split; [exact Hhead|]. now apply header_exactly_once_stream.
Qed.

Lemma header_once_for_nonempty_primary_witness :
  (0 < 3 /\ 0 < 1)
  /\ exists g,
       run keep_multiplicity 3 1
           [[mkContig contig_AAACCCGGG 5]; [mkContig contig_AAAA 5]]
           (Some [[mkContig contig_ACTGAA 7]]) [[read_AAAAA]] = Done g
       /\ header_exactly_once 3 1 (output_edge_file g)
       /\ exists es : list (list Z),
            edge_stream (output_edge_file g)
            = u32 (3 + 1) :: u32 (kWordsPerEdge 3 1) :: concat es.
Proof.
  split; [lia|].
  apply (header_once_for_nonempty_primary keep_multiplicity 3 1); lia.
Defined.

(** C3: for a contig of length at least [k + s + 1] and a position [p]
    with [0 <= p < L - (k + s + 1)], the edge for position [p + 1] that the
    loop of lines 359-371 produces by the sliding update (clear the
    multiplicity, clear the vacated slot, shift the words right by two
    bits, or in the new base and the multiplicity) is word for word the
    edge that lines 341-355 assemble from scratch for the window at
    [p + 1]; and a single update takes the assembled edge of [p] to that of
    [p + 1]. *)
Theorem sliding_update_equals_assembly (k s : Z) (seq : list Z)
    (multiplicity p : Z) :
  0 < k -> 0 < s -> bases_ok seq ->
  0 <= multiplicity <= kMaxMulti_t ->
  k + s + 1 <= Z.of_nat (length seq) ->
  0 <= p < Z.of_nat (length seq) - (k + s + 1) ->
  contig_edges k s seq multiplicity !! Z.to_nat (p + 1)
  = Some (assemble_edge k s seq (p + 1) multiplicity)
  /\ slide_edge k s (assemble_edge k s seq p multiplicity)
                (CharAt seq (p + (k + s + 1))) multiplicity
     = assemble_edge k s seq (p + 1) multiplicity.
Proof.
  intros Hk Hs Hseq Hm HL Hp.
  assert (0 <= multiplicity < 2 ^ 16) as Hm'
      by (unfold kMaxMulti_t in Hm; change (2 ^ 16) with 65536; lia).
  split.
  - rewrite contig_edges_assembled by (auto; lia).
    rewrite list_lookup_fmap, lookup_seqZ_lt by lia. cbn. do 2 f_equal. lia.
  - apply slide_assembled; auto; lia.
Qed.

Lemma sliding_update_equals_assembly_witness :
  (0 < 3 /\ 0 < 1 /\ bases_ok contig_AAACCCGGG
   /\ 0 <= 5 <= kMaxMulti_t
   /\ 3 + 1 + 1 <= Z.of_nat (length contig_AAACCCGGG)
   /\ 0 <= 1 < Z.of_nat (length contig_AAACCCGGG) - (3 + 1 + 1))
  /\ contig_edges 3 1 contig_AAACCCGGG 5 !! Z.to_nat (1 + 1)
     = Some (assemble_edge 3 1 contig_AAACCCGGG (1 + 1) 5)
  /\ slide_edge 3 1 (assemble_edge 3 1 contig_AAACCCGGG 1 5)
                (CharAt contig_AAACCCGGG (1 + (3 + 1 + 1))) 5
     = assemble_edge 3 1 contig_AAACCCGGG (1 + 1) 5.
Proof.
  assert (bases_ok contig_AAACCCGGG) as Hb
      by (repeat constructor; lia).
  split.
  - split; [lia|]. split; [lia|]. split; [exact Hb|].
    split; [unfold kMaxMulti_t; lia|]. split; cbn; lia.
  - apply (sliding_update_equals_assembly 3 1 contig_AAACCCGGG 5 1);
      [lia | lia | exact Hb | unfold kMaxMulti_t; lia | cbn; lia | cbn; lia].
Defined.

(** ** Phase 1 *)

(** C10: for a read of length at least [k + s + 1] (with [k > 0], as
    [ParseOptions] has checked), phase 1 of the checked embedding returns:
    no access to the read or to [kmer_exist] falls outside [0, L), and no
    loop runs out of fuel. *)
Theorem phase1_in_bounds (k s : Z) (crusial : gmap (list Z) Z) (R : list Z) :
  0 < k -> 0 <= s -> k + s + 1 <= Z.of_nat (length R) ->
  exists sc, phase1 k crusial R = Done sc
    /\ length (kmer_exist sc) = length R.
Proof.
  intros Hk Hs HL. apply phase1_total; lia.
Qed.

Lemma phase1_in_bounds_witness :
  (0 < 3 /\ 0 <= 1 /\ 3 + 1 + 1 <= Z.of_nat (length read_AAACCCGG))
  /\ exists sc,
       phase1 3 (crusial_of 3 1 contig_AAACCCGGG) read_AAACCCGG = Done sc
       /\ length (kmer_exist sc) = length read_AAACCCGG.
Proof.
  split; [cbn; lia|].
  apply (phase1_in_bounds 3 1); cbn; lia.
Defined.

(** C8: at a loop head of phase 1 at position [p], when the k-mer at [p] is
    not in the crucial map but its reverse complement is, with hint [s_seq]
    of length at most 32 (so that every base the loop reads from the hint
    is read with a shift count that is not negative):
    the probe labels [p]; then for [j = 0, 1, ...] below the hint length and
    while [p - 1 - j > last_marked_pos] it compares hint base [j] with
    [3 - R(p - 1 - j)], labels [p - 1 - j] on a match and stops at the first
    mismatch ([jstar] is where it stops); [last_marked_pos] is unchanged and
    the next probe position is [p + 1]. *)
Theorem reverse_anchor_branch (k : Z) (crusial : gmap (list Z) Z)
    (R : list Z) (st : scan_state) (s_seq : Z) :
  0 < k -> k <= Z.of_nat (length R) ->
  reachable k crusial R st ->
  let p := cur_pos st in
  crusial !! window R p k = None ->
  crusial !! Kmer.ReverseComplement (window R p k) = Some s_seq ->
  hint_length s_seq <= 32 ->
  exists jstar exist',
    probe k crusial R st
    = Done (mkScan p (last_marked_pos st) exist' (kmer st) (rev_kmer st),
            p + 1)
    /\ 0 <= jstar <= hint_length s_seq
    /\ (forall j, 0 <= j < jstar ->
          last_marked_pos st < p - 1 - j
          /\ hint_base s_seq j = 3 - CharAt R (p - 1 - j))
    /\ (jstar = hint_length s_seq
        \/ p - 1 - jstar <= last_marked_pos st
        \/ hint_base s_seq jstar <> 3 - CharAt R (p - 1 - jstar))
    /\ length exist' = length R
    /\ (forall i : nat,
          nth i exist' false
          = (if decide (p - jstar <= Z.of_nat i <= p) then true
             else nth i (kmer_exist st) false)).
Proof.
  intros Hk HL Hreach p Hfwd Hrev Hhint.
  destruct (reachable_inv k crusial R st Hk HL Hreach)
    as [[Hp HpL] Hlm Hlen Hfresh Hkm Hrv].
  fold p in Hp, HpL, Hlm, Hfresh, Hkm.
  unfold probe. fold p. rewrite exist_get_in by lia.
  rewrite Hfresh by lia. cbn [mbind outcome_bind].
  rewrite Hkm, Hfwd. rewrite Hrv, Hkm, Hrev.
  rewrite exist_set_in by lia. cbn [mbind outcome_bind].
  destruct (backward_match_spec 64 R p (last_marked_pos st) s_seq 0
              (<[Z.to_nat p := true]> (kmer_exist st)))
    as (j' & exist' & Hrun & Hle & Hall & Hstop & Hlen' & Hnth);
    try (pose proof (hint_length_bound s_seq); lia).
  { now rewrite length_insert. }
  rewrite Hrun. cbn [mbind outcome_bind].
  exists j', exist'. split; [reflexivity|].
  pose proof (hint_length_bound s_seq) as Hhl.
  split.
  { split; [lia|]. destruct (Z.eq_dec j' 0) as [->|Hne]; [lia|].
    destruct (Hall (j' - 1)); lia. }
  split; [intros j Hj; destruct (Hall j Hj) as (_ & ? & ?); auto|].
  split.
  { destruct Hstop as [H|[H|H]]; auto. left.
    destruct (Z.eq_dec j' 0) as [->|Hne]; [lia|].
    destruct (Hall (j' - 1)); lia. }
  split; [exact Hlen'|].
  intros i. rewrite Hnth, nth_insert_true by lia.
  repeat destruct (decide _); try reflexivity; lia.
Qed.

Lemma reverse_anchor_branch_witness :
  (0 < 3 /\ 3 <= Z.of_nat (length read_CTGAAA)
   /\ reachable 3 (crusial_of 3 1 contig_ACTGAA) read_CTGAAA scan_at_GAA
   /\ crusial_of 3 1 contig_ACTGAA !! window read_CTGAAA 2 3 = None
   /\ crusial_of 3 1 contig_ACTGAA
        !! Kmer.ReverseComplement (window read_CTGAAA 2 3) = Some 1
   /\ hint_length 1 <= 32)
  /\ exists jstar exist',
       probe 3 (crusial_of 3 1 contig_ACTGAA) read_CTGAAA scan_at_GAA
       = Done (mkScan 2 (-1) exist' [2; 0; 0] [3; 3; 1], 2 + 1)
       /\ 0 <= jstar <= hint_length 1
       /\ (forall j, 0 <= j < jstar ->
             -1 < 2 - 1 - j
             /\ hint_base 1 j = 3 - CharAt read_CTGAAA (2 - 1 - j))
       /\ (jstar = hint_length 1
           \/ 2 - 1 - jstar <= -1
           \/ hint_base 1 jstar <> 3 - CharAt read_CTGAAA (2 - 1 - jstar))
       /\ length exist' = length read_CTGAAA
       /\ (forall i : nat,
             nth i exist' false
             = (if decide (2 - jstar <= Z.of_nat i <= 2) then true
                else nth i (kmer_exist scan_at_GAA) false)).
Proof.
  assert (reachable 3 (crusial_of 3 1 contig_ACTGAA) read_CTGAAA scan_at_GAA)
    as Hreach.
  { apply (reachable_round _ _ _
             (mkScan 1 (-1) (replicate 6 false) [3; 2; 0] [3; 1; 0]));
      [|vm_compute; reflexivity].
    apply (reachable_round _ _ _
             (mkScan 0 (-1) (replicate 6 false) [1; 3; 2] [1; 0; 2]));
      [|vm_compute; reflexivity].
    apply reachable_init. vm_compute; reflexivity. }
  split.
  - split; [lia|]. split; [cbn; lia|]. split; [exact Hreach|].
    split; [vm_compute; reflexivity|].
    split; [vm_compute; reflexivity | change (hint_length 1) with 1; lia].
  - apply (reverse_anchor_branch 3 (crusial_of 3 1 contig_ACTGAA)
             read_CTGAAA scan_at_GAA 1);
      [lia | cbn; lia | exact Hreach | vm_compute; reflexivity
       | vm_compute; reflexivity | change (hint_length 1) with 1; lia].
Defined.

(** ** Phase 2 *)

(** C5: the run returns, and every key of the iterative-edge map it leaves
    is canonical, that is at most its own reverse complement; the key is the
    smaller of the window of [k + s + 1] bases ending at an emitting
    position and the reverse complement of that window, whichever of the
    three ways the two strands were brought up to date. *)
Theorem iterative_edge_keys_canonical {M : Type}
    (convert_multiplicity : Z -> Z -> Z -> M -> Z)
    (k s : Z) (primary : list (list (contig M)))
    (addi : option (list (list (contig M))))
    (reads : list (list (list Z))) :
  0 < k -> 0 < s ->
  exists g,
    run convert_multiplicity k s primary addi reads = Done g
    /\ forall key, is_Some (iterative_edges g !! key) ->
         Kmer.le key (Kmer.ReverseComplement key) = true
         /\ exists R p,
              R ∈ concat reads /\ 0 <= p
              /\ p + (k + s + 1) <= Z.of_nat (length R)
              /\ key = (let x := window R p (k + s + 1) in
                        if Kmer.lt x (Kmer.ReverseComplement x) then x
                        else Kmer.ReverseComplement x).
Proof.
  intros Hk Hs.
  destruct (run_spec convert_multiplicity k s primary addi reads Hk
              ltac:(lia))
    as (keys & drained & g & Hrun & Hkeys & Hit & _ & _).
  exists g. split; [exact Hrun|]. intros key Hkey.
  rewrite Hit in Hkey. apply increment_edges_is_Some in Hkey as [Hkey|Hkey].
  - rewrite lookup_empty in Hkey. destruct Hkey; discriminate.
  - unfold window_keys in Hkeys. rewrite Forall_forall in Hkeys.
    destruct (Hkeys key Hkey) as (R & p & HR & Hp0 & HpL & ->).
    split; [apply canonical_le_rc|]. exists R, p. auto.
Qed.

Lemma iterative_edge_keys_canonical_witness :
  (0 < 3 /\ 0 < 1)
  /\ exists g,
       run keep_multiplicity 3 1 [[mkContig contig_AAAA 5]] None
           [[read_AAAAA]] = Done g
       /\ forall key, is_Some (iterative_edges g !! key) ->
            Kmer.le key (Kmer.ReverseComplement key) = true
            /\ exists R p,
                 R ∈ concat [[read_AAAAA]] /\ 0 <= p
                 /\ p + (3 + 1 + 1) <= Z.of_nat (length R)
                 /\ key = (let x := window R p (3 + 1 + 1) in
                           if Kmer.lt x (Kmer.ReverseComplement x) then x
                           else Kmer.ReverseComplement x).
Proof.
  split; [lia|].
  apply (iterative_edge_keys_canonical keep_multiplicity 3 1); lia.
Defined.

(** C6: the run returns, and no counter of the iterative-edge map it leaves
    exceeds [kMaxMulti_t]: every increment saturates. *)
Theorem iterative_edge_counters_saturate {M : Type}
    (convert_multiplicity : Z -> Z -> Z -> M -> Z)
    (k s : Z) (primary : list (list (contig M)))
    (addi : option (list (list (contig M))))
    (reads : list (list (list Z))) :
  0 < k -> 0 < s ->
  exists g,
    run convert_multiplicity k s primary addi reads = Done g
    /\ forall key v, iterative_edges g !! key = Some v ->
         0 <= v <= kMaxMulti_t.
Proof.
  intros Hk Hs.
  destruct (run_spec convert_multiplicity k s primary addi reads Hk
              ltac:(lia))
    as (keys & drained & g & Hrun & Hkeys & Hit & _ & _).
  exists g. split; [exact Hrun|]. intros key v Hv.
  rewrite Hit in Hv.
  exact (increment_edges_bounded keys ∅ (map_Forall_empty _) key v Hv).
Qed.

Lemma iterative_edge_counters_saturate_witness :
  (0 < 3 /\ 0 < 1)
  /\ exists g,
       run keep_multiplicity 3 1 [[mkContig contig_AAAA 5]] None
           [[read_AAAAA]; [read_AAAAA; read_AAAAA]] = Done g
       /\ forall key v, iterative_edges g !! key = Some v ->
            0 <= v <= kMaxMulti_t.
Proof.
  split; [lia|].
  apply (iterative_edge_counters_saturate keep_multiplicity 3 1); lia.
Defined.

(** C1 as stated fails: the read [AAACCCGG] is the first eight bases of the
    primary contig [AAACCCGGG] ([k = 3], [s = 1], both of length at least
    [k + s + 1 = 5]), yet the read pass does not label it aligned, writes
    nothing to [rr.pb] and increments nothing, where the claim has four
    increments.  Only the k-mers at the two ends of a contig are crucial,
    so the labels never run over [s + 2] consecutive positions here; and a
    read from the inside of a contig, as [TGAATCG] in [ACTGAATCGGCATTAG],
    gets no label at all. *)
Lemma substring_read_not_aligned :
  (contig_AAACCCGGG = read_AAACCCGG ++ [2]
   /\ process_read 3 1 (crusial_of 3 1 contig_AAACCCGGG) ∅ read_AAACCCGG
      = Done (∅, false, [])
   /\ process_read_package 3 1 (crusial_of 3 1 contig_AAACCCGGG)
                           [read_AAACCCGG] ∅
      = Done (∅, []))
  /\ (read_TGAATCG = take 7 (drop 2 contig_ACTGAATCGGCATTAG)
      /\ (kmer_exist <$> phase1 3 (crusial_of 3 1 contig_ACTGAATCGGCATTAG)
                                read_TGAATCG)
         = Done (replicate 7 false)
      /\ process_read 3 1 (crusial_of 3 1 contig_ACTGAATCGGCATTAG) ∅
                      read_TGAATCG
         = Done (∅, false, [])).
Proof. repeat split; vm_compute; reflexivity. Qed.

(** C1, amended: a read of length [L >= k + s + 1] whose positions
    [0 .. L - k] are all labelled by phase 1 is labelled aligned and written
    to [rr.pb], and the read pass makes exactly [L - (k + s + 1) + 1]
    increments, one per window of [k + s + 1] bases, in order, each on the
    canonical key of its window. *)
Theorem fully_labelled_read_aligned (k s : Z)
    (crusial iter_edges : gmap (list Z) Z) (R : list Z) (sc : scan_state) :
  0 < k -> 0 <= s -> k + s + 1 <= Z.of_nat (length R) ->
  phase1 k crusial R = Done sc ->
  (forall j, 0 <= j <= Z.of_nat (length R) - k ->
     nth (Z.to_nat j) (kmer_exist sc) false = true) ->
  let keys := (fun p => canonical (window R p (k + s + 1)))
                <$> seqZ 0 (Z.of_nat (length R) - (k + s + 1) + 1) in
  process_read k s crusial iter_edges R
  = Done (foldl increment_edge iter_edges keys, true, keys)
  /\ Z.of_nat (length keys) = Z.of_nat (length R) - (k + s + 1) + 1
  /\ process_read_package k s crusial [R] iter_edges
     = Done (foldl increment_edge iter_edges keys, [R]).
Proof.
  intros Hk Hs HL Hsc Hall keys.
  destruct (process_read_spec k s crusial iter_edges R Hk Hs HL)
    as (sc' & Hsc' & Hlen & Hrun).
  rewrite Hsc in Hsc'. injection Hsc' as <-.
  assert (key_at k s R
            <$> emit_positions s (kmer_exist sc)
                  (seqZ 0 (Z.of_nat (length R) - k + 1)) 0
          = keys) as Hkeys.
  { replace (Z.of_nat (length R) - k + 1)
      with (Z.of_nat (Z.to_nat (Z.of_nat (length R) - k + 1))) by lia.
    rewrite emit_positions_all_labelled by (try lia; intros; apply Hall; lia).
    rewrite Z.max_r by lia. subst keys.
    rewrite <- (fmap_shift_seqZ (s + 1) 0), <- list_fmap_compose.
    replace (0 + Z.of_nat (Z.to_nat (Z.of_nat (length R) - k + 1)) - (s + 1))
      with (Z.of_nat (length R) - (k + s + 1) + 1) by lia.
    apply list_fmap_ext. intros i p Hp. cbn. unfold key_at.
    do 2 f_equal. lia. }
  cbv zeta in Hrun. rewrite Hkeys in Hrun.
  assert (Z.of_nat (length keys) = Z.of_nat (length R) - (k + s + 1) + 1)
    as Hcount.
  { subst keys. rewrite length_fmap, length_seqZ. lia. }
  assert (match keys with [] => false | _ :: _ => true end = true) as Hne.
  { destruct keys; [cbn in Hcount; lia|reflexivity]. }
  rewrite Hne in Hrun.
  split; [exact Hrun|]. split; [exact Hcount|].
  cbn [process_read_package]. rewrite Hrun. reflexivity.
Qed.

Lemma fully_labelled_read_aligned_witness :
  (0 < 3 /\ 0 <= 1 /\ 3 + 1 + 1 <= Z.of_nat (length read_AAAAA)
   /\ phase1 3 (crusial_of 3 1 contig_AAAA) read_AAAAA
      = Done (mkScan 2 2 [true; true; true; false; false] [0; 0; 0] [3; 3; 3])
   /\ forall j, 0 <= j <= Z.of_nat (length read_AAAAA) - 3 ->
        nth (Z.to_nat j) [true; true; true; false; false] false = true)
  /\ let keys := (fun p => canonical (window read_AAAAA p (3 + 1 + 1)))
                   <$> seqZ 0 (Z.of_nat (length read_AAAAA) - (3 + 1 + 1) + 1)
     in
     process_read 3 1 (crusial_of 3 1 contig_AAAA) ∅ read_AAAAA
     = Done (foldl increment_edge ∅ keys, true, keys)
     /\ Z.of_nat (length keys)
        = Z.of_nat (length read_AAAAA) - (3 + 1 + 1) + 1
     /\ process_read_package 3 1 (crusial_of 3 1 contig_AAAA)
                             [read_AAAAA] ∅
        = Done (foldl increment_edge ∅ keys, [read_AAAAA]).
Proof.
  assert (forall j, 0 <= j <= Z.of_nat (length read_AAAAA) - 3 ->
            nth (Z.to_nat j) [true; true; true; false; false] false = true)
    as Hall.
  { intros j Hj. cbn in Hj.
    assert (j = 0 \/ j = 1 \/ j = 2) as [->|[->| ->]] by lia; reflexivity. }
  split.
  - split; [lia|]. split; [lia|]. split; [cbn; lia|].
    split; [vm_compute; reflexivity|exact Hall].
  - apply (fully_labelled_read_aligned 3 1 (crusial_of 3 1 contig_AAAA) ∅
             read_AAAAA
             (mkScan 2 2 [true; true; true; false; false] [0; 0; 0] [3; 3; 3]));
      [lia | lia | cbn; lia | vm_compute; reflexivity | exact Hall].
Defined.

(** * Further lemmas *)

(** The lemmas below prepare the properties stated at the end: start-up,
    the packed records and their fields, the exact output of the contig
    passes, the provenance of the crucial k-mers, phase 1 without anchors,
    the read pass read by read, the emission rule of phase 2 and what a
    label of phase 1 stands for. *)

(** ** Start-up *)

Lemma is_empty_string_false (s : string) :
  is_empty_string s = false <-> s <> EmptyString.
Proof. destruct s; cbn; split; congruence. Qed.

Lemma ParseOptions_Parsed_inv (max_size omp_max_threads : Z) (o o' : Options) :
  ParseOptions max_size omp_max_threads o = Parsed o' ->
  (step o + kmer_k o < max_size
   /\ contigs_file o <> EmptyString
   /\ contigs_multi_file o <> EmptyString
   /\ read_file o <> EmptyString
   /\ 0 < kmer_k o /\ 0 < step o
   /\ output_prefix o <> EmptyString
   /\ (read_format o = "binary" \/ read_format o = "fasta"
       \/ read_format o = "fastq")%string
   /\ max_read_len o <> 0)
  /\ o' = (if num_cpu_threads o =? 0
           then set_num_cpu_threads o omp_max_threads else o).
Proof.
  unfold ParseOptions. intros H.
  destruct (Z.leb_spec max_size (step o + kmer_k o)); [discriminate|].
  destruct (is_empty_string (contigs_file o)) eqn:E1; [discriminate|].
  destruct (is_empty_string (contigs_multi_file o)) eqn:E2; [discriminate|].
  destruct (is_empty_string (read_file o)) eqn:E3; [discriminate|].
  destruct (Z.leb_spec (kmer_k o) 0); [discriminate|].
  destruct (Z.leb_spec (step o) 0); [discriminate|].
  destruct (is_empty_string (output_prefix o)) eqn:E4; [discriminate|].
  apply is_empty_string_false in E1, E2, E3, E4.
  destruct (String.eqb_spec (read_format o) "binary") as [Eb|Eb];
    destruct (String.eqb_spec (read_format o) "fasta") as [Ea|Ea];
    destruct (String.eqb_spec (read_format o) "fastq") as [Eq|Eq];
    cbn in H; try discriminate;
    (destruct (Z.eqb_spec (max_read_len o) 0); [discriminate|]);
    (split; [repeat split; try lia; auto|]);
    destruct (num_cpu_threads o =? 0); congruence.
Qed.

Lemma ParseOptions_Parsed_intro (max_size omp_max_threads : Z) (o : Options) :
  step o + kmer_k o < max_size ->
  contigs_file o <> EmptyString ->
  contigs_multi_file o <> EmptyString ->
  read_file o <> EmptyString ->
  0 < kmer_k o -> 0 < step o ->
  output_prefix o <> EmptyString ->
  (read_format o = "binary" \/ read_format o = "fasta"
   \/ read_format o = "fastq")%string ->
  max_read_len o <> 0 ->
  ParseOptions max_size omp_max_threads o
  = Parsed (if num_cpu_threads o =? 0
            then set_num_cpu_threads o omp_max_threads else o).
Proof.
  intros H1 H2 H3 H4 H5 H6 H7 H8 H9. unfold ParseOptions.
  destruct (Z.leb_spec max_size (step o + kmer_k o)); [lia|].
  rewrite (proj2 (is_empty_string_false _) H2),
    (proj2 (is_empty_string_false _) H3),
    (proj2 (is_empty_string_false _) H4),
    (proj2 (is_empty_string_false _) H7).
  destruct (Z.leb_spec (kmer_k o) 0); [lia|].
  destruct (Z.leb_spec (step o) 0); [lia|].
  assert ((negb (String.eqb (read_format o) "binary")
           && negb (String.eqb (read_format o) "fasta")
           && negb (String.eqb (read_format o) "fastq")) = false) as ->.
  { destruct H8 as [-> | [-> | ->]]; reflexivity. }
  destruct (Z.eqb_spec (max_read_len o) 0); [lia|].
  destruct (num_cpu_threads o =? 0); reflexivity.
Qed.

Lemma ParseOptions_status (max_size omp_max_threads : Z) (o : Options)
    (message : string) (status : Z) :
  ParseOptions max_size omp_max_threads o = UsageExit message status ->
  status = 1.
Proof.
  unfold ParseOptions.
  repeat match goal with
         | |- context [if ?b then _ else _] => destruct b
         end; congruence.
Qed.

Lemma read_format_set_num_cpu_threads (o : Options) (n : Z) :
  read_format (set_num_cpu_threads o n) = read_format o.
Proof. reflexivity. Qed.

Lemma Parsed_read_format (max_size omp_max_threads : Z) (o o' : Options) :
  ParseOptions max_size omp_max_threads o = Parsed o' ->
  read_format o' = read_format o /\ kmer_k o' = kmer_k o
  /\ step o' = step o /\ addi_multi_file o' = addi_multi_file o.
Proof.
  intros [_ ->]%ParseOptions_Parsed_inv.
  destruct (num_cpu_threads o =? 0); repeat split.
Qed.

(** The assert of line 442 over the read pass, as a statement about the
    reads. *)
Lemma assert_line_442_true (max_read_len : Z)
    (packages : list (list (list Z))) :
  ReadReadsAndProcess_asserts max_read_len packages = true ->
  forall R, R ∈ concat (packages_read packages) ->
            Z.of_nat (length R) <= max_read_len.
Proof.
  unfold ReadReadsAndProcess_asserts. intros H R HR.
  rewrite forallb_forall in H. apply Z.leb_le, H, list_elem_of_In, HR.
Qed.

Lemma assert_line_442_false (max_read_len : Z)
    (packages : list (list (list Z))) :
  ReadReadsAndProcess_asserts max_read_len packages = false ->
  exists R, R ∈ concat (packages_read packages)
            /\ max_read_len < Z.of_nat (length R).
Proof.
  unfold ReadReadsAndProcess_asserts.
  induction (concat (packages_read packages)) as [|R l IH]; cbn [forallb].
  - discriminate.
  - destruct (Z.leb_spec (Z.of_nat (length R)) max_read_len) as [Hle|Hgt];
      cbn [andb]; intros H.
    + destruct (IH H) as (R' & HR' & Hlen).
      exists R'. split; [now right | exact Hlen].
    + exists R. split; [left | exact Hgt].
Qed.

(** With [addi_contig_file] given and [addi_multi_file] not, line 187 calls
    [gzopen] on the empty name and the assert of line 188 fails. *)
Lemma InitGlobalData_asserts_addi (files : Files) (o : Options) :
  addi_contig_file o <> EmptyString ->
  addi_multi_file o = EmptyString ->
  InitGlobalData_asserts files o = false.
Proof.
  intros Hc%is_empty_string_false Hm. unfold InitGlobalData_asserts.
  rewrite Hc, Hm. unfold gzopen_not_NULL at 4. cbn [is_empty_string negb andb].
  now rewrite !andb_false_r.
Qed.

Lemma string_length_append (a b : string) :
  String.length (a ++ b)%string = (String.length a + String.length b)%nat.
Proof.
  induction a as [|c a IH]; [reflexivity|].
  change (S (String.length (a ++ b)%string)
          = S (String.length a + String.length b)%nat).
  now rewrite IH.
Qed.

Lemma dna_map_table (c : nat) :
  (c < 256)%nat ->
  dna_map !! c
  = Some (if decide (c = nat_of_ascii "A") then 0
          else if decide (c = nat_of_ascii "C") then 1
          else if decide (c = nat_of_ascii "T") then 3
          else 2).
Proof.
  intros Hc. unfold dna_map.
  destruct (decide (c = nat_of_ascii "T")) as [->|HT].
  { reflexivity. }
  rewrite list_lookup_insert_ne by congruence.
  destruct (decide (c = nat_of_ascii "G")) as [->|HG].
  { reflexivity. }
  rewrite list_lookup_insert_ne by congruence.
  destruct (decide (c = nat_of_ascii "C")) as [->|HC].
  { reflexivity. }
  rewrite list_lookup_insert_ne by congruence.
  destruct (decide (c = nat_of_ascii "A")) as [->|HA].
  { reflexivity. }
  rewrite list_lookup_insert_ne by congruence.
  apply lookup_replicate_2. exact Hc.
Qed.

(** ** Packed records *)

Lemma length_slide_loop (k s : Z) (seq : list Z) (mult : Z) (js : list Z) :
  forall e, length (slide_loop k s seq mult js e) = length js.
Proof. induction js as [|j js IH]; intros e; cbn; [reflexivity | now rewrite IH]. Qed.

Lemma length_contig_edges (k s : Z) (seq : list Z) (mult : Z) :
  Z.of_nat (length (contig_edges k s seq mult))
  = Z.max 0 (Z.of_nat (length seq) - (k + s)).
Proof.
  unfold contig_edges.
  destruct (Z.ltb_spec (Z.of_nat (length seq)) (k + s + 1)); [cbn; lia|].
  cbn [length]. rewrite length_slide_loop, length_seqZ. lia.
Qed.

Lemma length_fill_words (seq : list Z) (off next_k : Z) (n : nat) :
  forall (j w : Z) (end_word : nat) (e : list Z),
    length (fill_words seq off next_k n j w end_word e).2 = length e.
Proof.
  induction n as [|n IH]; intros j w end_word e; cbn; [reflexivity|].
  destruct (_ =? 0); rewrite IH; [apply length_insert | reflexivity].
Qed.

Lemma length_assemble_edge (k s : Z) (seq : list Z) (off mult : Z) :
  length (assemble_edge k s seq off mult) = Z.to_nat (kWordsPerEdge k s).
Proof.
  unfold assemble_edge.
  pose proof (length_fill_words seq off (k + s) (Z.to_nat (k + s + 1)) 0 0 0%nat
                (replicate (Z.to_nat (kWordsPerEdge k s)) 0)) as H.
  destruct (fill_words _ _ _ _ _ _ _ _) as [[w end_word] e]. cbn in H.
  rewrite length_alter, length_insert, H. apply length_replicate.
Qed.

Lemma length_slide_edge (k s : Z) (e : list Z) (c mult : Z) :
  length (slide_edge k s e c mult) = length e.
Proof.
  unfold slide_edge, slide_before_multi.
  now rewrite !length_alter, length_shift_words, !length_alter.
Qed.

Lemma slide_loop_lengths (k s : Z) (seq : list Z) (mult : Z) (js : list Z) :
  forall e,
    Forall (fun e' => length e' = length e) (slide_loop k s seq mult js e).
Proof.
  induction js as [|j js IH]; intros e; cbn; [constructor|].
  constructor; [apply length_slide_edge|].
  eapply Forall_impl; [apply IH|]. cbn. intros e' ->. apply length_slide_edge.
Qed.

Lemma contig_edges_lengths (k s : Z) (seq : list Z) (mult : Z) :
  Forall (fun e => length e = Z.to_nat (kWordsPerEdge k s))
         (contig_edges k s seq mult).
Proof.
  unfold contig_edges. destruct (_ <? _); [constructor|].
  constructor; [apply length_assemble_edge|].
  eapply Forall_impl; [apply slide_loop_lengths|].
  cbn. intros e' ->. apply length_assemble_edge.
Qed.

Lemma length_concat_fixed {A : Type} (n : nat) (ls : list (list A)) :
  Forall (fun l => length l = n) ls ->
  length (concat ls) = (n * length ls)%nat.
Proof.
  induction 1 as [|l ls Hl _ IH]; cbn; [lia|].
  rewrite length_app, IH, Hl. lia.
Qed.

(** ** The fields of a packed record *)

Lemma le4_digit (cs : list Z) :
  bases_ok cs ->
  forall t : nat, (t < length cs)%nat ->
    (le4 cs / 2 ^ (2 * Z.of_nat t)) mod 4 = nth t cs 0.
Proof.
  induction 1 as [|c cs Hc Hcs IH]; intros t Ht; cbn [length] in Ht; [lia|].
  cbn [le4 nth]. destruct t as [|t].
  - cbn. rewrite Z.div_1_r. Z.div_mod_to_equations. lia.
  - rewrite <- (IH t) by lia.
    replace (2 * Z.of_nat (S t)) with (2 + 2 * Z.of_nat t) by lia.
    rewrite Z.pow_add_r by lia. change (2 ^ 2) with 4.
    rewrite <- Z.div_div by (try lia; apply Z.pow_pos_nonneg; lia).
    f_equal. f_equal. Z.div_mod_to_equations. lia.
Qed.

Lemma slot_of_word (X b : Z) :
  0 <= X -> 0 <= b <= 30 ->
  Z.land (Z.shiftr (X mod 2 ^ 32) b) 3 = (X / 2 ^ b) mod 4.
Proof.
  intros HX Hb. change 3 with (Z.ones 2). rewrite Z.land_ones by lia.
  rewrite Z.shiftr_div_pow2 by lia. change (2 ^ 2) with 4.
  assert (0 < 2 ^ b) by (apply Z.pow_pos_nonneg; lia).
  assert (2 ^ 32 = 2 ^ b * (4 * 2 ^ (30 - b))) as Hp.
  { replace 4 with (2 ^ 2) by reflexivity.
    rewrite <- !Z.pow_add_r by lia. f_equal. lia. }
  assert (0 < 2 ^ (30 - b)) by (apply Z.pow_pos_nonneg; lia).
  rewrite Hp. rewrite Z.rem_mul_r by lia.
  rewrite Z.mul_comm, Z.div_add by lia.
  rewrite (Z.div_small (X mod 2 ^ b)) by (apply Z.mod_pos_bound; lia).
  rewrite Z.add_0_l.
  rewrite Z.rem_mul_r by lia.
  rewrite Z.mul_comm, Z_mod_plus_full. apply Z.mod_mod. lia.
Qed.

Lemma edge_slot_value (e : list Z) (i : Z) :
  words_ok e -> 0 <= i < 16 * Z.of_nat (length e) ->
  edge_slot e i
  = (words_value e / 2 ^ (32 * Z.of_nat (length e) - 2 * (i + 1))) mod 4.
Proof.
  intros Hok Hi. unfold edge_slot.
  assert (0 <= i / 16 < Z.of_nat (length e)) as Hq
      by (split; [apply Z.div_pos; lia | apply Z.div_lt_upper_bound; lia]).
  assert (0 <= i mod 16 < 16) as Hr by (apply Z.mod_pos_bound; lia).
  pose proof (words_value_bound e Hok) as HV.
  pose proof (words_value_lookup e (Z.to_nat (i / 16)) Hok ltac:(lia)) as Hl.
  rewrite Z2Nat.id in Hl by lia.
  rewrite (list_lookup_total_correct _ _ _ Hl).
  set (a := 32 * (Z.of_nat (length e) - 1 - i / 16)) in *.
  assert (0 <= a) by (subst a; lia).
  assert (0 <= words_value e / 2 ^ a)
    by (apply Z.div_pos; [lia | apply Z.pow_pos_nonneg; lia]).
  rewrite slot_of_word by lia.
  assert (0 < 2 ^ a) by (apply Z.pow_pos_nonneg; lia).
  assert (0 < 2 ^ ((15 - i mod 16) * 2)) by (apply Z.pow_pos_nonneg; lia).
  rewrite Z.div_div by lia.
  rewrite <- Z.pow_add_r by lia.
  do 3 f_equal. subst a. pose proof (Z.div_mod i 16 ltac:(lia)). lia.
Qed.

Lemma nth_window (seq : list Z) (off n : Z) (t : nat) :
  Z.of_nat t < n ->
  nth t (window seq off n) 0 = CharAt seq (off + Z.of_nat t).
Proof.
  intros Ht. unfold window. apply nth_lookup_Some with (d := 0).
  rewrite list_lookup_fmap, lookup_seqZ_lt by lia. reflexivity.
Qed.

Lemma assemble_edge_slot (k s : Z) (seq : list Z) (off mult i : Z) :
  0 <= k + s ->
  bases_ok (window seq off (k + s + 1)) ->
  0 <= mult < 2 ^ 16 ->
  0 <= i <= k + s ->
  edge_slot (assemble_edge k s seq off mult) i
  = CharAt seq (off + (k + s - i)).
Proof.
  intros Hn Hb Hm Hi.
  destruct (assemble_edge_value k s seq off mult Hn Hb Hm) as (Hl & Hok & Hv).
  destruct (kWordsPerEdge_room k s Hn) as [HW1 HW2].
  set (e := assemble_edge k s seq off mult) in *.
  set (W := kWordsPerEdge k s) in *.
  set (n := k + s + 1) in *.
  rewrite edge_slot_value by (try assumption; lia).
  rewrite Hl, Hv.
  set (P := 2 ^ (32 * W - 2 * n)).
  assert (2 ^ 16 <= P) as HP.
  { subst P. apply Z.pow_le_mono_r; lia. }
  replace (32 * W - 2 * (i + 1)) with ((32 * W - 2 * n) + 2 * (n - 1 - i))
    by lia.
  rewrite Z.pow_add_r by lia. fold P.
  assert (0 < 2 ^ (2 * (n - 1 - i))) by (apply Z.pow_pos_nonneg; lia).
  rewrite <- Z.div_div by lia.
  rewrite Z.div_add_l, (Z.div_small mult), Z.add_0_r by lia.
  replace (2 * (n - 1 - i)) with (2 * Z.of_nat (Z.to_nat (n - 1 - i))) by lia.
  rewrite le4_digit by (try assumption; rewrite length_window; lia).
  rewrite nth_window by lia. f_equal. lia.
Qed.

Lemma edge_multiplicity_value (e : list Z) (A a mult : Z) :
  words_ok e -> (0 < length e)%nat ->
  words_value e = A * 2 ^ a + mult -> 16 <= a -> 0 <= mult < 2 ^ 16 ->
  edge_multiplicity e = mult.
Proof.
  intros Hok Hlen Hv Ha Hm. unfold edge_multiplicity.
  assert (e !!! (length e - 1)%nat = words_value e mod 2 ^ 32) as ->
      by (apply list_lookup_total_correct, last_word_value;
          [exact Hok|lia]).
  change kMaxMulti_t with (Z.ones 16). rewrite Z.land_ones by lia.
  rewrite Z.mod_mod_divide by (exists (2 ^ 16); reflexivity).
  rewrite Hv, <- Z.add_mod_idemp_l, shifted_mod_2_16 by lia.
  apply Z.mod_small. lia.
Qed.

Lemma assemble_edge_multiplicity (k s : Z) (seq : list Z) (off mult : Z) :
  0 <= k + s ->
  bases_ok (window seq off (k + s + 1)) ->
  0 <= mult < 2 ^ 16 ->
  edge_multiplicity (assemble_edge k s seq off mult) = mult.
Proof.
  intros Hn Hb Hm.
  destruct (assemble_edge_value k s seq off mult Hn Hb Hm) as (Hl & Hok & Hv).
  destruct (kWordsPerEdge_room k s Hn) as [HW1 HW2].
  assert (0 <= (k + s + 1) / 16) as Hq by (apply Z.div_pos; lia).
  eapply edge_multiplicity_value; [exact Hok | lia | exact Hv | lia | exact Hm].
Qed.


(** ** The contig pass: what it writes, exactly *)

Section ContigPassExact.

Context {M : Type} (convert_multiplicity : Z -> Z -> Z -> M -> Z).

Lemma write_package_records (k s : Z) (cur_package : list (contig M))
    (out : list edge_write) :
  foldl (write_contig_edges convert_multiplicity k s) out cur_package
  = out ++ (EdgeWords <$> contig_records convert_multiplicity k s cur_package).
Proof.
  revert out. induction cur_package as [|c rest IH]; intros out.
  - cbn. now rewrite app_nil_r.
  - cbn [foldl]. rewrite IH. unfold write_contig_edges, contig_records.
    cbn [mbind list_bind]. rewrite fmap_app, app_assoc. reflexivity.
Qed.

Lemma contig_records_app (k s : Z) (a b : list (contig M)) :
  contig_records convert_multiplicity k s (a ++ b)
  = contig_records convert_multiplicity k s a
    ++ contig_records convert_multiplicity k s b.
Proof. unfold contig_records. apply bind_app. Qed.

Lemma contig_rounds_records (k s : Z) (is_addi is_first : bool)
    (packages : list (list (contig M))) (g : IterateGlobalData) :
  output_edge_file
    (contig_rounds convert_multiplicity k s is_addi is_first packages g)
  = output_edge_file g
    ++ (match packages with
        | [] => []
        | _ :: _ =>
            if is_first
            then [HeaderWord (u32 (k + s));
                  HeaderWord (u32 (kWordsPerEdge k s))]
            else []
        end)
    ++ (EdgeWords
          <$> contig_records convert_multiplicity k s (concat packages)).
Proof.
  revert is_first g. induction packages as [|p rest IH]; intros is_first g.
  - cbn. now rewrite app_nil_r.
  - cbn [contig_rounds concat]. rewrite IH.
    unfold process_contig_package. cbn [output_edge_file].
    rewrite write_package_records, contig_records_app, fmap_app.
    destruct rest as [|q rest], is_first; cbn [app];
      rewrite <- ?app_assoc; cbn [app]; try reflexivity.
Qed.

Lemma addi_rounds_crusial (k s : Z) (is_first : bool)
    (packages : list (list (contig M))) (g : IterateGlobalData) :
  crusial_kmers
    (contig_rounds convert_multiplicity k s true is_first packages g)
  = crusial_kmers g.
Proof.
  revert is_first g. induction packages as [|p rest IH]; intros is_first g.
  - reflexivity.
  - cbn [contig_rounds]. now rewrite IH.
Qed.

Lemma contig_rounds_output_read_file (k s : Z) (is_addi is_first : bool)
    (packages : list (list (contig M))) (g : IterateGlobalData) :
  output_read_file
    (contig_rounds convert_multiplicity k s is_addi is_first packages g)
  = output_read_file g.
Proof.
  revert is_first g. induction packages as [|p rest IH]; intros is_first g.
  - reflexivity.
  - cbn [contig_rounds]. now rewrite IH.
Qed.

End ContigPassExact.

(** ** The crucial k-mers: nothing but contig ends *)

Lemma add_crusial_kmers_inv (k s : Z) (m : gmap (list Z) Z)
    (seq x : list Z) (v : Z) :
  add_crusial_kmers k s m seq !! x = Some v ->
  m !! x = Some v \/ crusial_entry k s seq x v.
Proof.
  unfold add_crusial_kmers, crusial_entry.
  destruct (Z.ltb_spec (Z.of_nat (length seq)) k); [now left|].
  destruct (Z.ltb_spec k (Z.of_nat (length seq))).
  - intros [[<- <-] | [_ [[<- <-] | [_ H1]]%lookup_insert_Some]]%lookup_insert_Some.
    + right. right. auto.
    + right. left. auto.
    + now left.
  - intros [[<- <-] | [_ H1]]%lookup_insert_Some.
    + right. left. auto.
    + now left.
Qed.

Section CrucialOnly.

Context {M : Type} (convert_multiplicity : Z -> Z -> Z -> M -> Z).

Lemma package_crusial_inv (k s : Z) (cur_package : list (contig M))
    (m : gmap (list Z) Z) (x : list Z) (v : Z) :
  foldl (fun m c => add_crusial_kmers k s m (seq c)) m cur_package !! x
  = Some v ->
  m !! x = Some v
  \/ exists c, c ∈ cur_package /\ crusial_entry k s (seq c) x v.
Proof.
  revert m. induction cur_package as [|c rest IH]; intros m; cbn [foldl].
  - now left.
  - intros [[H | H]%add_crusial_kmers_inv | (c' & Hc' & H)]%IH.
    + now left.
    + right. exists c. split; [constructor | exact H].
    + right. exists c'. split; [now constructor | exact H].
Qed.

Lemma contig_rounds_crusial_inv (k s : Z) (is_addi is_first : bool)
    (packages : list (list (contig M))) (g : IterateGlobalData)
    (x : list Z) (v : Z) :
  crusial_kmers
    (contig_rounds convert_multiplicity k s is_addi is_first packages g) !! x
  = Some v ->
  crusial_kmers g !! x = Some v
  \/ (is_addi = false
      /\ exists c, c ∈ concat packages /\ crusial_entry k s (seq c) x v).
Proof.
  revert is_first g. induction packages as [|p rest IH]; intros is_first g.
  - now left.
  - cbn [contig_rounds concat]. intros [H | (Ha & c & Hc & H)]%IH.
    + unfold process_contig_package in H. cbn [crusial_kmers] in H.
      destruct is_addi; [now left|].
      apply package_crusial_inv in H as [H | (c & Hc & H)]; [now left|].
      right. split; [reflexivity|]. exists c. split; [|exact H].
      apply elem_of_app. now left.
    + right. split; [exact Ha|]. exists c. split; [|exact H].
      apply elem_of_app. now right.
Qed.

Lemma contig_passes_crusial_inv (k s : Z) (primary : list (list (contig M)))
    (addi : option (list (list (contig M)))) (x : list Z) (v : Z) :
  crusial_kmers (contig_passes convert_multiplicity k s primary addi) !! x
  = Some v ->
  exists c, c ∈ concat primary /\ crusial_entry k s (seq c) x v.
Proof.
  unfold contig_passes. intros H.
  assert (crusial_kmers
            (ReadContigsAndBuildHash convert_multiplicity k s false primary
                                     InitGlobalData) !! x = Some v) as H'.
  { destruct addi as [packages|]; [|exact H].
    unfold ReadContigsAndBuildHash at 1 in H.
    now rewrite addi_rounds_crusial in H. }
  unfold ReadContigsAndBuildHash in H'.
  apply contig_rounds_crusial_inv in H' as [H' | (_ & H')]; [|exact H'].
  cbn in H'. now rewrite lookup_empty in H'.
Qed.

End CrucialOnly.

(** ** The hint when [step] is 30 *)

Lemma pack_hint_30 (base : Z -> Z) :
  (forall j, 0 <= base j < 4) ->
  exists X', 0 <= X'
    /\ pack_hint 30 30 base = Z.lor (X' * 2 ^ 6 + 16 * base 29) 30.
Proof.
  intros Hb. unfold pack_hint. rewrite Z.min_r by lia.
  change 30 with (Z.of_nat 30) at 1.
  rewrite pack_loop_value by (auto; lia).
  set (X := le4 (rev (base <$> seqZ 0 (Z.of_nat 30)))).
  assert (0 <= X) as HX.
  { subst X. apply le4_bound. apply Forall_rev, Forall_fmap, Forall_forall.
    intros j _. apply Hb. }
  pose proof (packed_base_digit base 30 29 Hb ltac:(lia)) as Hd.
  change (2 * (Z.of_nat 30 - 1 - 29)) with 0 in Hd.
  rewrite Z.pow_0_r, Z.div_1_r in Hd. fold X in Hd.
  exists (X / 4). split; [apply Z.div_pos; lia|].
  f_equal. change (64 - 2 * Z.of_nat 30) with 4.
  change (2 ^ 4) with 16. change (2 ^ 6) with 64.
  rewrite <- Hd. pose proof (Z.div_mod X 4 ltac:(lia)). lia.
Qed.

Lemma lor_small_cases (b : Z) :
  0 <= b < 4 ->
  Z.lor (16 * b) 30 = (if 2 <=? b then 62 else 30)
  /\ Z.lor (16 * b) 30 < 64.
Proof.
  intros Hb.
  assert (b = 0 \/ b = 1 \/ b = 2 \/ b = 3) as [-> | [-> | [-> | ->]]] by lia;
    split; reflexivity.
Qed.

Lemma hint_length_30 (base : Z -> Z) :
  (forall j, 0 <= base j < 4) ->
  hint_length (pack_hint 30 30 base) = (if 2 <=? base 29 then 62 else 30).
Proof.
  intros Hb. destruct (pack_hint_30 base Hb) as (X' & HX' & ->).
  pose proof (Hb 29) as Hb29.
  destruct (lor_small_cases (base 29) Hb29) as [Hc Hlt].
  unfold hint_length.
  rewrite <- lor_disjoint by lia. rewrite <- Z.lor_assoc, Hc.
  rewrite Z.land_lor_distr_l.
  change 63 with (Z.ones 6) at 1. rewrite Z.land_ones by lia.
  rewrite Z.mod_mul by lia. rewrite Z.lor_0_l.
  destruct (2 <=? base 29); reflexivity.
Qed.

Lemma hint_base_30 (base : Z -> Z) :
  (forall j, 0 <= base j < 4) ->
  hint_base (pack_hint 30 30 base) 29 = Z.lor (base 29) 1.
Proof.
  intros Hb. destruct (pack_hint_30 base Hb) as (X' & HX' & ->).
  pose proof (Hb 29) as Hb29.
  unfold hint_base. change ((31 - 29) * 2) with 4.
  rewrite Z.shiftr_lor. change (Z.shiftr 30 4) with 1.
  rewrite Z.shiftr_div_pow2 by lia.
  replace (X' * 2 ^ 6 + 16 * base 29) with ((X' * 4 + base 29) * 2 ^ 4)
    by (change (2 ^ 6) with 64; change (2 ^ 4) with 16; lia).
  rewrite Z.div_mul by lia.
  rewrite Z.land_lor_distr_l. change (Z.land 1 3) with 1.
  change 3 with (Z.ones 2). rewrite Z.land_ones by lia. change (2 ^ 2) with 4.
  rewrite Z.add_comm, Z.mod_add by lia.
  rewrite Z.mod_small by lia. reflexivity.
Qed.

(** ** Phase 1: the forward loop in full *)

Lemma forward_match_spec (fuel : nat) (k : Z) (R : list Z) (p s_seq j : Z)
    (exist : list bool) :
  0 < k -> 0 <= p -> 0 <= j ->
  length exist = length R ->
  hint_length s_seq - j < Z.of_nat fuel ->
  exists j' exist',
    forward_match fuel k R p s_seq j exist = Done (j', exist')
    /\ j <= j'
    /\ (forall i, j <= i < j' ->
          i < hint_length s_seq /\ p + k + i < Z.of_nat (length R)
          /\ hint_base s_seq i = CharAt R (p + k + i))
    /\ (hint_length s_seq <= j' \/ Z.of_nat (length R) <= p + k + j'
        \/ hint_base s_seq j' <> CharAt R (p + k + j'))
    /\ length exist' = length R
    /\ (forall i : nat,
          nth i exist' false
          = (if decide (p + j + 1 <= Z.of_nat i <= p + j') then true
             else nth i exist false)).
Proof.
  intros Hk Hp. revert j exist.
  induction fuel as [|fuel IH]; intros j exist Hj Hlen Hfuel.
  - cbn [forward_match].
    destruct (Z.ltb_spec j (hint_length s_seq)); [lia|]. cbn.
    exists j, exist. repeat split; auto; try lia.
    intros i. destruct (decide _); [lia | reflexivity].
  - cbn [forward_match].
    destruct ((j <? hint_length s_seq) && (p + k + j <? Z.of_nat (length R)))
      eqn:Hcond.
    2:{ exists j, exist. apply andb_false_iff in Hcond.
        split; [reflexivity|]. split; [lia|]. split; [intros; lia|].
        split; [destruct Hcond as [H%Z.ltb_ge|H%Z.ltb_ge]; lia|].
        split; [exact Hlen|].
        intros i. destruct (decide _); [lia | reflexivity]. }
    apply andb_true_iff in Hcond as [Hjl%Z.ltb_lt Hin%Z.ltb_lt].
    rewrite read_CharAt_in by lia. cbn.
    destruct (Z.eqb_spec (CharAt R (p + k + j)) (hint_base s_seq j))
      as [Heq|Hne].
    2:{ exists j, exist.
        split; [reflexivity|]. split; [lia|]. split; [intros; lia|].
        split; [right; right; congruence|].
        split; [exact Hlen|].
        intros i. destruct (decide _); [lia | reflexivity]. }
    rewrite exist_set_in by lia. cbn.
    destruct (IH (j + 1) (<[Z.to_nat (p + j + 1) := true]> exist))
      as (j' & exist' & Hrun & Hle & Hall & Hstop & Hlen' & Hnth);
      [lia | now rewrite length_insert | lia |].
    exists j', exist'.
    split; [exact Hrun|]. split; [lia|]. split.
    { intros i Hi. destruct (decide (i = j)) as [->|Hne].
      - repeat split; [lia | lia | congruence].
      - apply Hall; lia. }
    split; [exact Hstop|]. split; [exact Hlen'|].
    intros i. rewrite Hnth, nth_insert_true by lia.
    repeat destruct (decide _); try reflexivity; lia.
Qed.

(** ** Phase 1 on a read without anchors *)

Lemma probe_miss (k : Z) (crusial : gmap (list Z) Z) (R : list Z)
    (st : scan_state) :
  0 < k -> scan_inv k R st ->
  crusial !! kmer st = None -> crusial !! rev_kmer st = None ->
  probe k crusial R st = Done (st, cur_pos st + 1).
Proof.
  intros Hk [[Hp HL] Hlm Hlen Hfresh Hkm Hrev] H1 H2.
  unfold probe. rewrite exist_get_in by lia.
  rewrite Hfresh by lia. cbn [mbind outcome_bind].
  now rewrite H1, H2.
Qed.

Lemma anchor_round_miss (k : Z) (crusial : gmap (list Z) Z) (R : list Z)
    (st : scan_state) :
  0 < k -> scan_inv k R st -> no_anchor k crusial R ->
  exists r, anchor_round k crusial R st = Done r
    /\ match r with
       | Continue st' =>
           scan_inv k R st' /\ cur_pos st < cur_pos st'
           /\ kmer_exist st' = kmer_exist st
       | Break st' => kmer_exist st' = kmer_exist st
       end.
Proof.
  intros Hk Hinv Hno.
  destruct (anchor_round_inv k crusial R st Hk Hinv) as (r & Hr & Hpost).
  exists r. split; [exact Hr|].
  pose proof Hinv as [[Hp HL] Hlm Hlen Hfresh Hkm Hrev].
  destruct (Hno (cur_pos st) Hp HL) as [H1 H2].
  unfold anchor_round in Hr.
  assert (crusial !! kmer st = None) as E1 by (rewrite Hkm; exact H1).
  assert (crusial !! rev_kmer st = None) as E2
      by (rewrite Hrev, Hkm; exact H2).
  rewrite (probe_miss k crusial R st Hk Hinv E1 E2) in Hr.
  cbn [mbind outcome_bind] in Hr.
  destruct (Z.leb_spec (cur_pos st + 1 + k) (Z.of_nat (length R))).
  - rewrite advance_spec in Hr by (try assumption; lia).
    cbn [mbind outcome_bind] in Hr. injection Hr as <-.
    cbn in Hpost |- *. destruct Hpost as [Hinv' Hlt].
    split; [exact Hinv'|]. split; [exact Hlt | reflexivity].
  - injection Hr as <-. reflexivity.
Qed.

Lemma label_anchors_miss (fuel : nat) (k : Z) (crusial : gmap (list Z) Z)
    (R : list Z) (st : scan_state) :
  0 < k -> scan_inv k R st -> no_anchor k crusial R ->
  Z.of_nat (length R) - k - cur_pos st < Z.of_nat fuel ->
  exists st', label_anchors fuel k crusial R st = Done st'
    /\ kmer_exist st' = kmer_exist st.
Proof.
  intros Hk. revert st.
  induction fuel as [|fuel IH]; intros st Hinv Hno Hfuel.
  - destruct Hinv as [[Hp HL] _ _ _ _ _]. lia.
  - cbn [label_anchors].
    destruct (Z.leb_spec (cur_pos st + k) (Z.of_nat (length R))) as [Hin|Hout].
    2:{ destruct Hinv as [[Hp HL] _ _ _ _ _]. lia. }
    destruct (anchor_round_miss k crusial R st Hk Hinv Hno) as (r & Hr & Hpost).
    rewrite Hr. cbn. destruct r as [st'|st'].
    + destruct Hpost as (Hinv' & Hlt & He).
      destruct (IH st' Hinv' Hno ltac:(lia)) as (st'' & Hrun & He').
      exists st''. split; [exact Hrun | congruence].
    + eexists. split; [reflexivity|exact Hpost].
Qed.

Lemma phase1_miss (k : Z) (crusial : gmap (list Z) Z) (R : list Z) :
  0 < k -> k <= Z.of_nat (length R) -> no_anchor k crusial R ->
  exists sc, phase1 k crusial R = Done sc
    /\ kmer_exist sc = replicate (length R) false.
Proof.
  intros Hk HL Hno. unfold phase1.
  destruct (scan_init_inv k R Hk HL) as (st & Hst & Hinv).
  rewrite Hst. cbn [mbind outcome_bind].
  destruct (label_anchors_miss (S (length R)) k crusial R st Hk Hinv Hno)
    as (st' & Hrun & He).
  { destruct Hinv as [[Hp _] _ _ _ _ _]. lia. }
  exists st'. split; [exact Hrun|]. rewrite He.
  unfold scan_init in Hst.
  destruct (append_chars R (seqZ 0 k) (Kmer.make k)); cbn in Hst;
    try discriminate.
  now injection Hst as <-.
Qed.

Lemma emit_positions_unlabelled (s : Z) (n : nat) (js : list Z) :
  0 <= s -> emit_positions s (replicate n false) js 0 = [].
Proof.
  intros Hs. induction js as [|j js IH]; [reflexivity|].
  cbn [emit_positions].
  assert (nth (Z.to_nat j) (replicate n false) false = false) as ->.
  { destruct (decide (Z.to_nat j < n)%nat).
    - apply nth_lookup_Some with (d := false), lookup_replicate_2. lia.
    - apply nth_overflow. rewrite length_replicate. lia. }
  destruct (Z.leb_spec (s + 2) 0); [lia | exact IH].
Qed.

Lemma process_read_miss (k s : Z) (crusial iter_edges : gmap (list Z) Z)
    (R : list Z) :
  0 < k -> 0 <= s -> no_anchor k crusial R ->
  process_read k s crusial iter_edges R = Done (iter_edges, false, []).
Proof.
  intros Hk Hs Hno.
  destruct (Z.ltb_spec (Z.of_nat (length R)) (k + s + 1)) as [Hshort|Hlong].
  { unfold process_read.
    destruct (Z.ltb_spec (Z.of_nat (length R)) (k + s + 1)); [reflexivity|lia]. }
  destruct (process_read_spec k s crusial iter_edges R Hk Hs Hlong)
    as (sc & Hsc & Hlen & Hrun).
  destruct (phase1_miss k crusial R Hk ltac:(lia) Hno) as (sc' & Hsc' & He).
  assert (sc' = sc) as -> by congruence.
  cbv zeta in Hrun. rewrite He, emit_positions_unlabelled in Hrun by lia.
  exact Hrun.
Qed.

(** ** The read pass, read by read *)

Lemma process_read_short (k s : Z) (crusial iter_edges : gmap (list Z) Z)
    (R : list Z) :
  Z.of_nat (length R) < k + s + 1 ->
  process_read k s crusial iter_edges R = Done (iter_edges, false, []).
Proof.
  intros H. unfold process_read.
  destruct (Z.ltb_spec (Z.of_nat (length R)) (k + s + 1)); [reflexivity|lia].
Qed.

Lemma process_read_exact (k s : Z) (crusial iter_edges : gmap (list Z) Z)
    (R : list Z) :
  0 < k -> 0 <= s ->
  let keys := read_increments k s crusial R in
  process_read k s crusial iter_edges R
  = Done (foldl increment_edge iter_edges keys,
          match keys with [] => false | _ => true end, keys).
Proof.
  intros Hk Hs. cbv zeta. unfold read_increments.
  destruct (Z.ltb_spec (Z.of_nat (length R)) (k + s + 1)) as [Hshort|Hlong].
  { now rewrite !process_read_short by lia. }
  destruct (process_read_spec k s crusial iter_edges R Hk Hs Hlong)
    as (sc & Hsc & _ & Hrun).
  destruct (process_read_spec k s crusial ∅ R Hk Hs Hlong)
    as (sc' & Hsc' & _ & Hrun').
  assert (sc' = sc) as -> by congruence.
  cbv zeta in Hrun, Hrun'. rewrite Hrun'. exact Hrun.
Qed.

Lemma read_increments_short (k s : Z) (crusial : gmap (list Z) Z)
    (R : list Z) :
  Z.of_nat (length R) < k + s + 1 -> read_increments k s crusial R = [].
Proof.
  intros H. unfold read_increments. now rewrite process_read_short.
Qed.


Lemma emit_positions_sublist (s : Z) (exist : list bool) (js : list Z) :
  forall acc, emit_positions s exist js acc `sublist_of` js.
Proof.
  induction js as [|j js IH]; intros acc; cbn [emit_positions].
  - constructor.
  - destruct (_ <=? _); [apply sublist_skip | apply sublist_cons]; apply IH.
Qed.

Lemma length_emit_positions (s : Z) (exist : list bool) (n : Z) :
  0 <= s ->
  Z.of_nat (length (emit_positions s exist (seqZ 0 n) 0))
  <= Z.max 0 (n - (s + 1)).
Proof.
  intros Hs.
  destruct (Z.le_gt_cases n 0) as [Hn|Hn].
  { rewrite seqZ_nil by lia. cbn. lia. }
  set (l := emit_positions s exist (seqZ 0 n) 0).
  assert (NoDup l) as Hnd.
  { eapply sublist_NoDup; [apply NoDup_seqZ | apply emit_positions_sublist]. }
  assert (forall j, j ∈ l -> j ∈ seqZ (s + 1) (n - (s + 1))) as Hin.
  { intros j Hj. subst l.
    rewrite <- (Z2Nat.id n) in Hj by lia.
    apply emit_positions_range in Hj; [|lia].
    apply elem_of_seqZ. lia. }
  pose proof (submseteq_length _ _ (NoDup_submseteq _ _ Hnd Hin)) as Hle.
  rewrite length_seqZ in Hle. lia.
Qed.

Lemma length_read_increments (k s : Z) (crusial : gmap (list Z) Z)
    (R : list Z) :
  0 < k -> 0 <= s ->
  Z.of_nat (length (read_increments k s crusial R))
  <= Z.max 0 (Z.of_nat (length R) - (k + s)).
Proof.
  intros Hk Hs.
  destruct (Z.ltb_spec (Z.of_nat (length R)) (k + s + 1)) as [Hshort|Hlong].
  { rewrite read_increments_short by lia. cbn. lia. }
  destruct (process_read_spec k s crusial ∅ R Hk Hs Hlong)
    as (sc & _ & _ & Hrun).
  cbv zeta in Hrun. unfold read_increments. rewrite Hrun.
  rewrite length_fmap.
  pose proof (length_emit_positions s (kmer_exist sc)
                (Z.of_nat (length R) - k + 1) Hs). lia.
Qed.

(** ** The read pass, package by package *)

Lemma process_read_package_exact (k s : Z) (crusial : gmap (list Z) Z)
    (cur_package : list (list Z)) (iter_edges : gmap (list Z) Z) :
  0 < k -> 0 <= s ->
  process_read_package k s crusial cur_package iter_edges
  = Done (foldl increment_edge iter_edges
                (cur_package ≫= read_increments k s crusial),
          filter (fun R => read_increments k s crusial R <> []) cur_package).
Proof.
  intros Hk Hs. revert iter_edges.
  induction cur_package as [|R rest IH]; intros iter_edges.
  - reflexivity.
  - cbn [process_read_package].
    rewrite process_read_exact by assumption. cbn [mbind outcome_bind].
    rewrite IH. cbn [mbind outcome_bind].
    rewrite bind_cons, foldl_app, filter_cons.
    destruct (read_increments k s crusial R) as [|key keys];
      destruct (decide _) as [Hd|Hd]; try reflexivity;
      exfalso; [now apply Hd | apply Hd; discriminate].
Qed.

Lemma read_rounds_exact (k s : Z) (packages : list (list (list Z)))
    (g : IterateGlobalData) :
  0 < k -> 0 <= s ->
  let reads := concat (packages_read packages) in
  read_rounds k s packages g
  = Done (mkGlobals
            (crusial_kmers g)
            (foldl increment_edge (iterative_edges g)
                   (reads ≫= read_increments k s (crusial_kmers g)))
            (output_edge_file g)
            (output_read_file g
               ++ filter (fun R => read_increments k s (crusial_kmers g) R
                                   <> []) reads)).
Proof.
  intros Hk Hs. cbv zeta. revert g.
  induction packages as [|p rest IH]; intros g.
  - cbn. rewrite app_nil_r. now destruct g.
  - destruct p as [|R p].
    + cbn. rewrite app_nil_r. now destruct g.
    + cbn [read_rounds packages_read concat].
      rewrite process_read_package_exact by assumption.
      cbn [mbind outcome_bind]. rewrite IH. cbn [crusial_kmers iterative_edges
        output_edge_file output_read_file].
      rewrite bind_app, foldl_app, filter_app, app_assoc. reflexivity.
Qed.

Lemma packages_read_sublist (packages : list (list (list Z))) :
  concat (packages_read packages) `sublist_of` concat packages.
Proof.
  induction packages as [|p rest IH]; [constructor|].
  destruct p as [|R p]; [apply sublist_nil_l|].
  cbn [packages_read concat]. now apply sublist_app.
Qed.

(** ** Counting increments *)

Lemma increment_edge_value (m : gmap (list Z) Z) (key x : list Z) :
  0 <= default 0 (m !! x) <= kMaxMulti_t ->
  default 0 (increment_edge m key !! x)
  = Z.min (default 0 (m !! x) + (if decide (key = x) then 1 else 0))
          kMaxMulti_t.
Proof.
  intros Hb. rewrite increment_edge_lookup.
  destruct (decide (key = x)) as [->|Hne]; cbn.
  - destruct (Z.ltb_spec (default 0 (m !! x)) kMaxMulti_t); lia.
  - lia.
Qed.

Lemma occurrences_cons (x y : list Z) (keys : list (list Z)) :
  occurrences x (y :: keys)
  = (if decide (y = x) then 1 else 0) + occurrences x keys.
Proof.
  unfold occurrences. rewrite filter_cons.
  destruct (decide (y = x)); cbn [length]; lia.
Qed.

Lemma occurrences_nonneg (x : list Z) (keys : list (list Z)) :
  0 <= occurrences x keys.
Proof. unfold occurrences. lia. Qed.

Lemma occurrences_pos (x : list Z) (keys : list (list Z)) :
  0 < occurrences x keys <-> x ∈ keys.
Proof.
  induction keys as [|y keys IH].
  - unfold occurrences. cbn. split; [lia | intros H; inversion H].
  - rewrite occurrences_cons, elem_of_cons.
    pose proof (occurrences_nonneg x keys).
    destruct (decide (y = x)) as [->|Hne].
    + split; [now left | lia].
    + rewrite Z.add_0_l, IH. split; [now right | intros [->|]; congruence].
Qed.

Lemma increments_value (keys : list (list Z)) :
  forall (m : gmap (list Z) Z) (x : list Z),
    0 <= default 0 (m !! x) <= kMaxMulti_t ->
    default 0 (foldl increment_edge m keys !! x)
    = Z.min (default 0 (m !! x) + occurrences x keys) kMaxMulti_t.
Proof.
  induction keys as [|y keys IH]; intros m x Hb.
  - cbn. unfold occurrences. cbn. lia.
  - cbn [foldl]. pose proof (increment_edge_value m y x Hb) as H1.
    pose proof (occurrences_nonneg x keys).
    rewrite IH, H1, occurrences_cons
      by (rewrite H1; unfold kMaxMulti_t in *; destruct (decide (y = x)); lia).
    unfold kMaxMulti_t in *. destruct (decide (y = x)); lia.
Qed.

Lemma increments_from_empty (keys : list (list Z)) (x : list Z) :
  foldl increment_edge ∅ keys !! x
  = if decide (x ∈ keys)
    then Some (Z.min (occurrences x keys) kMaxMulti_t)
    else None.
Proof.
  pose proof (increments_value keys ∅ x) as Hv.
  rewrite lookup_empty in Hv. cbn in Hv.
  specialize (Hv ltac:(unfold kMaxMulti_t; lia)).
  pose proof (increment_edges_is_Some keys ∅ x) as Hs.
  rewrite lookup_empty in Hs.
  destruct (decide (x ∈ keys)) as [Hin|Hout].
  - destruct (proj2 Hs (or_intror Hin)) as [v Hx].
    rewrite Hx in Hv |- *. cbn in Hv. now rewrite Hv.
  - destruct (foldl increment_edge ∅ keys !! x) as [v|] eqn:Hx;
      [|reflexivity].
    destruct (proj1 Hs (mk_is_Some _ _ eq_refl)) as [[? H]|H];
      [discriminate | contradiction].
Qed.

(** ** The order of the increments *)

Lemma increment_edge_comm (m : gmap (list Z) Z) (a b : list Z) :
  increment_edge (increment_edge m a) b
  = increment_edge (increment_edge m b) a.
Proof.
  destruct (decide (a = b)) as [->|Hab]; [reflexivity|].
  apply map_eq. intros x. rewrite !increment_edge_lookup.
  repeat destruct (decide _); try congruence; reflexivity.
Qed.

Lemma increments_permutation (keys keys' : list (list Z)) :
  keys ≡ₚ keys' ->
  forall m, foldl increment_edge m keys = foldl increment_edge m keys'.
Proof.
  induction 1 as [|x l l' _ IH|x y l|l l' l'' _ IH1 _ IH2]; intros m.
  - reflexivity.
  - cbn. apply IH.
  - cbn. now rewrite increment_edge_comm.
  - now rewrite IH1.
Qed.

(** ** The whole run, exactly *)

Lemma contig_passes_output_read_file {M : Type}
    (convert_multiplicity : Z -> Z -> Z -> M -> Z)
    (k s : Z) (primary : list (list (contig M)))
    (addi : option (list (list (contig M)))) :
  output_read_file (contig_passes convert_multiplicity k s primary addi) = [].
Proof.
  unfold contig_passes, ReadContigsAndBuildHash.
  destruct addi; now rewrite !contig_rounds_output_read_file.
Qed.

Lemma run_exact {M : Type} (convert_multiplicity : Z -> Z -> Z -> M -> Z)
    (k s : Z) (primary : list (list (contig M)))
    (addi : option (list (list (contig M))))
    (reads : list (list (list Z))) :
  0 < k -> 0 <= s ->
  let g0 := contig_passes convert_multiplicity k s primary addi in
  let rs := concat (packages_read reads) in
  let m := foldl increment_edge ∅
                 (rs ≫= read_increments k s (crusial_kmers g0)) in
  run convert_multiplicity k s primary addi reads
  = Done (mkGlobals
            (crusial_kmers g0) m
            (output_edge_file g0
               ++ ((fun kv => EdgeWords (assemble_edge k s kv.1 0 kv.2))
                     <$> map_to_list m))
            (filter (fun R => read_increments k s (crusial_kmers g0) R <> [])
                    rs)).
Proof.
  intros Hk Hs. cbv zeta. unfold run, ReadReadsAndProcess.
  rewrite read_rounds_exact by assumption. cbn [mbind outcome_bind].
  unfold write_iterative_edges.
  cbn [crusial_kmers iterative_edges output_edge_file output_read_file].
  rewrite contig_passes_iterative_edges, contig_passes_output_read_file.
  reflexivity.
Qed.





Lemma contig_passes_records {M : Type}
    (convert_multiplicity : Z -> Z -> Z -> M -> Z)
    (k s : Z) (primary : list (list (contig M)))
    (addi : option (list (list (contig M)))) :
  output_edge_file (contig_passes convert_multiplicity k s primary addi)
  = match primary with
    | [] => []
    | _ :: _ => [HeaderWord (u32 (k + s));
                 HeaderWord (u32 (kWordsPerEdge k s))]
    end
    ++ (EdgeWords
          <$> contig_records convert_multiplicity k s
                (concat primary
                 ++ match addi with
                    | Some packages => concat packages
                    | None => []
                    end)).
Proof.
  unfold contig_passes, ReadContigsAndBuildHash. cbn [negb].
  destruct addi as [packages|].
  - rewrite !contig_rounds_records. cbn [InitGlobalData output_edge_file app].
    rewrite contig_records_app, fmap_app.
    destruct packages; rewrite <- !app_assoc; reflexivity.
  - rewrite contig_rounds_records. cbn [InitGlobalData output_edge_file app].
    now rewrite app_nil_r.
Qed.

(** ** The emission rule of phase 2 *)

Lemma emit_positions_iff (s : Z) (exist : list bool) (m : nat) :
  0 <= s ->
  forall (j0 acc j : Z),
    0 <= j0 -> run_before exist j0 acc ->
    j ∈ emit_positions s exist (seqZ j0 (Z.of_nat m)) acc
    <-> j0 <= j < j0 + Z.of_nat m /\ s + 1 <= j /\ run_labelled exist s j.
Proof.
  intros Hs. induction m as [|m IH]; intros j0 acc j Hj0 (Hacc & Hrun & Hstop).
  - rewrite seqZ_nil by lia. split; [intros H; inversion H | lia].
  - rewrite seqZ_cons by lia.
    replace (Z.pred (Z.of_nat (S m))) with (Z.of_nat m) by lia.
    cbn [emit_positions].
    set (acc' := if nth (Z.to_nat j0) exist false then acc + 1 else 0).
    assert (run_before exist (Z.succ j0) acc') as Hinv'.
    { subst acc'. destruct (nth (Z.to_nat j0) exist false) eqn:He.
      - split; [lia|]. split.
        + intros i Hi. destruct (Z.eq_dec i j0) as [->|Hne]; [exact He|].
          apply Hrun. lia.
        + intros Hlt.
          replace (Z.succ j0 - (acc + 1) - 1) with (j0 - acc - 1) by lia.
          apply Hstop. lia.
      - split; [lia|]. split; [intros; lia|].
        intros _. replace (Z.succ j0 - 0 - 1) with j0 by lia. exact He. }
    assert (s + 2 <= acc' <-> s + 1 <= j0 /\ run_labelled exist s j0) as Hemit.
    { subst acc'. destruct (nth (Z.to_nat j0) exist false) eqn:He.
      - split.
        + intros Hge. split; [lia|]. intros i Hi.
          destruct (Z.eq_dec i j0) as [->|Hne]; [exact He|].
          apply Hrun. lia.
        + intros [Hge Hlab].
          destruct (Z.le_gt_cases (s + 2) (acc + 1)) as [|Hlt]; [assumption|].
          specialize (Hstop ltac:(lia)).
          rewrite (Hlab (j0 - acc - 1)) in Hstop by lia. discriminate.
      - split; [lia|]. intros [_ Hlab].
        rewrite (Hlab j0) in He by lia. discriminate. }
    specialize (IH (Z.succ j0) acc' j ltac:(lia) Hinv').
    destruct (Z.leb_spec (s + 2) acc') as [Hge|Hlt].
    + rewrite elem_of_cons, IH. split.
      * intros [->|(Hr & Hsj & Hlab)].
        { split; [lia|]. now apply Hemit. }
        split; [lia|]. split; assumption.
      * intros (Hr & Hsj & Hlab).
        destruct (Z.eq_dec j j0) as [->|Hne]; [now left|]. right.
        split; [lia|]. split; assumption.
    + rewrite IH. split.
      * intros (Hr & Hsj & Hlab). split; [lia|]. split; assumption.
      * intros (Hr & Hsj & Hlab).
        destruct (Z.eq_dec j j0) as [->|Hne].
        { exfalso. assert (s + 2 <= acc') by (apply Hemit; auto). lia. }
        split; [lia|]. split; assumption.
Qed.

(** ** Windows compared base by base *)

Lemma fmap_seqZ_eq (f g : Z -> Z) (n : nat) :
  f <$> seqZ 0 (Z.of_nat n) = g <$> seqZ 0 (Z.of_nat n)
  <-> forall t, 0 <= t < Z.of_nat n -> f t = g t.
Proof.
  split.
  - intros H t Ht.
    apply (f_equal (fun l => l !! Z.to_nat t)) in H.
    rewrite !list_lookup_fmap, lookup_seqZ_lt in H by lia.
    cbn in H. injection H as H. now rewrite Z2Nat.id in H by lia.
  - intros H. apply list_fmap_ext. intros i t Ht.
    apply lookup_seqZ in Ht as [-> Hi]. apply H. lia.
Qed.

Lemma window_as_fmap (R : list Z) (a n : Z) :
  window R a n = (fun t => CharAt R (a + t)) <$> seqZ 0 n.
Proof.
  unfold window. change (seqZ a n) with (seqZ (0 + a) n).
  rewrite <- (fmap_shift_seqZ a 0 n), <- list_fmap_compose.
  apply list_fmap_ext. intros i t _. cbn. f_equal. lia.
Qed.

Lemma ReverseComplement_window (c : list Z) (b n : Z) :
  0 <= n ->
  Kmer.ReverseComplement (window c b n)
  = (fun t => 3 - CharAt c (b + (n - 1 - t))) <$> seqZ 0 n.
Proof.
  intros Hn. unfold Kmer.ReverseComplement. rewrite rev_window by lia.
  change (map ?f ?l) with (f <$> l). now rewrite <- list_fmap_compose.
Qed.

Lemma window_eq_iff (R c : list Z) (a b n : Z) :
  0 <= n ->
  window R a n = window c b n
  <-> forall t, 0 <= t < n -> CharAt R (a + t) = CharAt c (b + t).
Proof.
  intros Hn. rewrite !window_as_fmap.
  rewrite <- (Z2Nat.id n) by lia. apply fmap_seqZ_eq.
Qed.

Lemma window_rc_eq_iff (R c : list Z) (a b n : Z) :
  0 <= n ->
  window R a n = Kmer.ReverseComplement (window c b n)
  <-> forall t, 0 <= t < n ->
        CharAt R (a + t) = 3 - CharAt c (b + (n - 1 - t)).
Proof.
  intros Hn. rewrite window_as_fmap, ReverseComplement_window by lia.
  rewrite <- (Z2Nat.id n) at 1 2 by lia. rewrite fmap_seqZ_eq.
  rewrite Z2Nat.id by lia. reflexivity.
Qed.

(** ** Phase 1: what a label stands for *)

Lemma crusial_entry_decode (k s : Z) (seq x : list Z) (v : Z) :
  0 <= k -> 0 <= s <= 29 -> bases_ok seq -> crusial_entry k s seq x v ->
  let L := Z.of_nat (length seq) in
  k <= L /\ hint_length v = Z.min s (L - k)
  /\ ((x = window seq 0 k
       /\ forall j, 0 <= j < hint_length v ->
            hint_base v j = CharAt seq (k + j))
      \/ (x = Kmer.ReverseComplement (window seq (L - k) k)
          /\ forall j, 0 <= j < hint_length v ->
               hint_base v j = 3 - CharAt seq (L - k - 1 - j))).
Proof.
  intros Hk Hs Hb [(HL & -> & ->) | (HL & -> & ->)]; cbv zeta.
  - destruct (prefix_hint_decode k s seq Hs Hb HL) as [Hlen Hdec].
    cbv zeta in Hlen, Hdec.
    split; [exact HL|]. split; [exact Hlen|]. left.
    split; [apply prefix_kmer_window|].
    intros j Hj. apply Hdec. lia.
  - destruct (suffix_rc_hint_decode k s seq Hs Hb ltac:(lia)) as [Hlen Hdec].
    cbv zeta in Hlen, Hdec.
    split; [lia|]. split; [exact Hlen|]. right.
    split; [apply suffix_rc_kmer_window; lia|].
    intros j Hj. apply Hdec. lia.
Qed.

Lemma probe_cases (k : Z) (crusial : gmap (list Z) Z) (R : list Z)
    (st : scan_state) :
  0 < k -> scan_inv k R st ->
  let p := cur_pos st in
  (crusial !! window R p k = None
   /\ crusial !! Kmer.ReverseComplement (window R p k) = None
   /\ probe k crusial R st = Done (st, p + 1))
  \/ (exists s_seq jstar exist',
        crusial !! window R p k = Some s_seq
        /\ probe k crusial R st
           = Done (mkScan p (p + jstar) exist' (kmer st) (rev_kmer st),
                   p + jstar + 1)
        /\ 0 <= jstar <= hint_length s_seq
        /\ p + k + jstar <= Z.of_nat (length R)
        /\ (forall j, 0 <= j < jstar ->
              hint_base s_seq j = CharAt R (p + k + j))
        /\ (forall i : nat,
              nth i exist' false
              = (if decide (p <= Z.of_nat i <= p + jstar) then true
                 else nth i (kmer_exist st) false)))
  \/ (exists s_seq jstar exist',
        crusial !! Kmer.ReverseComplement (window R p k) = Some s_seq
        /\ probe k crusial R st
           = Done (mkScan p (last_marked_pos st) exist' (kmer st)
                          (rev_kmer st),
                   p + 1)
        /\ 0 <= jstar <= hint_length s_seq
        /\ jstar <= p
        /\ (forall j, 0 <= j < jstar ->
              hint_base s_seq j = 3 - CharAt R (p - 1 - j))
        /\ (forall i : nat,
              nth i exist' false
              = (if decide (p - jstar <= Z.of_nat i <= p) then true
                 else nth i (kmer_exist st) false))).
Proof.
  intros Hk Hinv p.
  pose proof Hinv as [[Hp HpL] Hlm Hlen Hfresh Hkm Hrv].
  fold p in Hp, HpL, Hlm, Hfresh, Hkm.
  destruct (crusial !! window R p k) as [s_seq|] eqn:Hfwd.
  - right. left.
    unfold probe. fold p. rewrite exist_get_in by lia.
    rewrite Hfresh by lia. cbn [mbind outcome_bind].
    rewrite Hkm, Hfwd.
    rewrite exist_set_in by lia. cbn [mbind outcome_bind].
    pose proof (hint_length_bound s_seq) as Hhl.
    destruct (forward_match_spec 64 k R p s_seq 0
                (<[Z.to_nat p := true]> (kmer_exist st)))
      as (j' & exist' & Hrun & Hle & Hall & Hstop & Hlen' & Hnth); try lia.
    { now rewrite length_insert. }
    rewrite Hrun. cbn [mbind outcome_bind].
    exists s_seq, j', exist'. split; [reflexivity|].
    split; [now rewrite <- Hkm|].
    assert (j' <= hint_length s_seq /\ p + k + j' <= Z.of_nat (length R))
      as [Hj1 Hj2].
    { destruct (Z.eq_dec j' 0) as [->|Hne]; [lia|].
      destruct (Hall (j' - 1)); lia. }
    split; [lia|]. split; [exact Hj2|].
    split; [intros j Hj; destruct (Hall j Hj) as (_ & _ & ?); auto|].
    intros i. rewrite Hnth, nth_insert_true by lia.
    repeat destruct (decide _); try reflexivity; lia.
  - destruct (crusial !! Kmer.ReverseComplement (window R p k)) as [s_seq|]
      eqn:Hrev.
    + right. right.
      unfold probe. fold p. rewrite exist_get_in by lia.
      rewrite Hfresh by lia. cbn [mbind outcome_bind].
      rewrite Hkm, Hfwd. rewrite Hrv, Hkm, Hrev.
      rewrite exist_set_in by lia. cbn [mbind outcome_bind].
      pose proof (hint_length_bound s_seq) as Hhl.
      destruct (backward_match_spec 64 R p (last_marked_pos st) s_seq 0
                  (<[Z.to_nat p := true]> (kmer_exist st)))
        as (j' & exist' & Hrun & Hle & Hall & Hstop & Hlen' & Hnth); try lia.
      { now rewrite length_insert. }
      rewrite Hrun. cbn [mbind outcome_bind].
      exists s_seq, j', exist'. split; [reflexivity|].
      split; [now rewrite <- Hkm|].
      assert (j' <= hint_length s_seq /\ j' <= p) as [Hj1 Hj2].
      { destruct (Z.eq_dec j' 0) as [->|Hne]; [lia|].
        destruct (Hall (j' - 1)); lia. }
      split; [lia|]. split; [exact Hj2|].
      split; [intros j Hj; destruct (Hall j Hj) as (_ & _ & ?); auto|].
      intros i. rewrite Hnth, nth_insert_true by lia.
      repeat destruct (decide _); try reflexivity; lia.
    + left. split; [reflexivity|]. split; [reflexivity|].
      apply probe_miss; try assumption.
      * now rewrite Hkm.
      * now rewrite Hrv, Hkm.
Qed.

Section LabelsSound.

Context {M : Type} (k s : Z) (contigs : list (contig M))
        (crusial : gmap (list Z) Z) (R : list Z).
Hypothesis Hk : 0 < k.
Hypothesis Hs : 0 <= s <= 29.
Hypothesis Hfrom : crusial_from k s contigs crusial.

Lemma forward_labels_sound (p s_seq jstar i : Z) :
  crusial !! window R p k = Some s_seq ->
  0 <= jstar <= hint_length s_seq ->
  (forall j, 0 <= j < jstar -> hint_base s_seq j = CharAt R (p + k + j)) ->
  0 <= i <= jstar ->
  contig_kmer k contigs (window R (p + i) k).
Proof.
  intros Hx Hj Hmatch Hi.
  destruct (Hfrom _ _ Hx) as (c & Hc & Hb & Hentry).
  destruct (crusial_entry_decode k s (seq c) _ _ ltac:(lia) Hs Hb Hentry)
    as (HL & Hlen & [[Heq Hdec] | [Heq Hdec]]).
  - exists c, i. split; [exact Hc|]. split; [lia|]. split; [lia|]. left.
    apply window_eq_iff; [lia|]. intros t Ht.
    pose proof (proj1 (window_eq_iff R (seq c) p 0 k ltac:(lia)) Heq) as Hw.
    destruct (Z.lt_ge_cases (i + t) k).
    + rewrite <- Z.add_assoc. rewrite Hw by lia. f_equal.
    + replace (p + i + t) with (p + k + (i + t - k)) by lia.
      rewrite <- Hmatch, Hdec by lia. f_equal. lia.
  - exists c, (Z.of_nat (length (seq c)) - k - i).
    split; [exact Hc|]. split; [lia|]. split; [lia|]. right.
    apply window_rc_eq_iff; [lia|]. intros t Ht.
    pose proof (proj1 (window_rc_eq_iff R (seq c) p _ k ltac:(lia)) Heq) as Hw.
    destruct (Z.lt_ge_cases (i + t) k).
    + rewrite <- Z.add_assoc. rewrite Hw by lia. do 2 f_equal. lia.
    + replace (p + i + t) with (p + k + (i + t - k)) by lia.
      rewrite <- Hmatch, Hdec by lia. do 2 f_equal. lia.
Qed.

Lemma backward_labels_sound (p s_seq jstar i : Z) :
  crusial !! Kmer.ReverseComplement (window R p k) = Some s_seq ->
  0 <= jstar <= hint_length s_seq ->
  (forall j, 0 <= j < jstar -> hint_base s_seq j = 3 - CharAt R (p - 1 - j)) ->
  0 <= i <= jstar ->
  contig_kmer k contigs (window R (p - i) k).
Proof.
  intros Hx Hj Hmatch Hi.
  destruct (Hfrom _ _ Hx) as (c & Hc & Hb & Hentry).
  destruct (crusial_entry_decode k s (seq c) _ _ ltac:(lia) Hs Hb Hentry)
    as (HL & Hlen & [[Heq Hdec] | [Heq Hdec]]).
  - apply (f_equal Kmer.ReverseComplement) in Heq.
    rewrite ReverseComplement_involutive in Heq.
    exists c, i. split; [exact Hc|]. split; [lia|]. split; [lia|]. right.
    apply window_rc_eq_iff; [lia|]. intros t Ht.
    pose proof (proj1 (window_rc_eq_iff R (seq c) p 0 k ltac:(lia)) Heq) as Hw.
    destruct (Z.le_gt_cases i t).
    + replace (p - i + t) with (p + (t - i)) by lia.
      rewrite Hw by lia. do 2 f_equal. lia.
    + replace (p - i + t) with (p - 1 - (i - 1 - t)) by lia.
      assert (3 - CharAt R (p - 1 - (i - 1 - t))
              = CharAt (seq c) (k + (i - 1 - t))) as Hm
          by (rewrite <- Hmatch, Hdec by lia; reflexivity).
      replace (i + (k - 1 - t)) with (k + (i - 1 - t)) by lia. lia.
  - apply (f_equal Kmer.ReverseComplement) in Heq.
    rewrite !ReverseComplement_involutive in Heq.
    exists c, (Z.of_nat (length (seq c)) - k - i).
    split; [exact Hc|]. split; [lia|]. split; [lia|]. left.
    apply window_eq_iff; [lia|]. intros t Ht.
    pose proof (proj1 (window_eq_iff R (seq c) p _ k ltac:(lia)) Heq) as Hw.
    destruct (Z.le_gt_cases i t).
    + replace (p - i + t) with (p + (t - i)) by lia.
      rewrite Hw by lia. f_equal. lia.
    + replace (p - i + t) with (p - 1 - (i - 1 - t)) by lia.
      assert (3 - CharAt R (p - 1 - (i - 1 - t))
              = 3 - CharAt (seq c)
                      (Z.of_nat (length (seq c)) - k - 1 - (i - 1 - t))) as Hm
          by (rewrite <- Hmatch, Hdec by lia; reflexivity).
      replace (Z.of_nat (length (seq c)) - k - i + t)
        with (Z.of_nat (length (seq c)) - k - 1 - (i - 1 - t)) by lia.
      lia.
Qed.

Lemma anchor_round_sound (st : scan_state) :
  scan_inv k R st ->
  labels_sound k contigs R (kmer_exist st) ->
  exists r, anchor_round k crusial R st = Done r
    /\ match r with
       | Continue st' =>
           scan_inv k R st' /\ cur_pos st < cur_pos st'
           /\ labels_sound k contigs R (kmer_exist st')
       | Break st' => labels_sound k contigs R (kmer_exist st')
       end.
Proof.
  intros Hinv Hsound.
  destruct (anchor_round_inv k crusial R st Hk Hinv) as (r & Hr & Hpost).
  exists r. split; [exact Hr|].
  assert (forall st' np, probe k crusial R st = Done (st', np) ->
            labels_sound k contigs R (kmer_exist st')) as Hprobe.
  { intros st' np Hp.
    destruct (probe_cases k crusial R st Hk Hinv)
      as [(_ & _ & H) | [(s_seq & j & e & Hx & H & Hj & _ & Hm & Hnth)
                        | (s_seq & j & e & Hx & H & Hj & Hjp & Hm & Hnth)]];
      rewrite H in Hp; injection Hp as <- <-; cbn [kmer_exist].
    - exact Hsound.
    - intros q Hq. rewrite Hnth in Hq.
      destruct (decide _) as [Hin|_]; [|now apply Hsound].
      replace (Z.of_nat q) with (cur_pos st + (Z.of_nat q - cur_pos st)) by lia.
      eapply forward_labels_sound; [exact Hx | exact Hj | exact Hm | lia].
    - intros q Hq. rewrite Hnth in Hq.
      destruct (decide _) as [Hin|_]; [|now apply Hsound].
      replace (Z.of_nat q) with (cur_pos st - (cur_pos st - Z.of_nat q)) by lia.
      eapply backward_labels_sound; [exact Hx | exact Hj | exact Hm | lia]. }
  destruct (probe_total k crusial R st Hk Hinv)
    as (e' & lm' & np & Hp & Hnp & Hlm' & Hlen' & _).
  specialize (Hprobe _ _ Hp). cbn [kmer_exist] in Hprobe.
  pose proof Hinv as [[Hp0 HpL] _ _ _ Hkm Hrv].
  unfold anchor_round in Hr. rewrite Hp in Hr.
  cbn [mbind outcome_bind] in Hr.
  destruct (Z.leb_spec (np + k) (Z.of_nat (length R))).
  - rewrite advance_spec in Hr by (cbn; try assumption; lia).
    cbn [mbind outcome_bind] in Hr. injection Hr as <-.
    cbn in Hpost |- *. destruct Hpost as [Hinv' Hlt].
    split; [exact Hinv'|]. split; [exact Hlt | exact Hprobe].
  - injection Hr as <-. exact Hprobe.
Qed.

Lemma label_anchors_sound (fuel : nat) (st : scan_state) :
  scan_inv k R st ->
  labels_sound k contigs R (kmer_exist st) ->
  Z.of_nat (length R) - k - cur_pos st < Z.of_nat fuel ->
  exists st', label_anchors fuel k crusial R st = Done st'
    /\ labels_sound k contigs R (kmer_exist st').
Proof.
  revert st. induction fuel as [|fuel IH]; intros st Hinv Hsound Hfuel.
  - destruct Hinv as [[Hp HL] _ _ _ _ _]. lia.
  - cbn [label_anchors].
    destruct (Z.leb_spec (cur_pos st + k) (Z.of_nat (length R))) as [Hin|Hout].
    2:{ destruct Hinv as [[Hp HL] _ _ _ _ _]. lia. }
    destruct (anchor_round_sound st Hinv Hsound) as (r & Hr & Hpost).
    rewrite Hr. cbn. destruct r as [st'|st'].
    + destruct Hpost as (Hinv' & Hlt & Hsound').
      apply IH; [exact Hinv' | exact Hsound' | lia].
    + eexists. split; [reflexivity | exact Hpost].
Qed.

Lemma phase1_sound :
  k <= Z.of_nat (length R) ->
  exists sc, phase1 k crusial R = Done sc
    /\ labels_sound k contigs R (kmer_exist sc).
Proof.
  intros HL. unfold phase1.
  destruct (scan_init_inv k R Hk HL) as (st & Hst & Hinv).
  rewrite Hst. cbn [mbind outcome_bind].
  apply label_anchors_sound; [exact Hinv | |].
  - intros q Hq. pose proof Hinv as [[Hp _] _ _ Hfresh _ _].
    assert (cur_pos st = 0) as H0.
    { unfold scan_init in Hst.
      destruct (append_chars R (seqZ 0 k) (Kmer.make k)); cbn in Hst;
        try discriminate.
      now injection Hst as <-. }
    rewrite Hfresh in Hq by lia. discriminate.
  - destruct Hinv as [[Hp _] _ _ _ _ _]. lia.
Qed.

End LabelsSound.

Lemma contig_passes_crusial_from {M : Type}
    (convert_multiplicity : Z -> Z -> Z -> M -> Z)
    (k s : Z) (primary : list (list (contig M)))
    (addi : option (list (list (contig M)))) :
  Forall (fun c => bases_ok (seq c)) (concat primary) ->
  crusial_from k s (concat primary)
    (crusial_kmers (contig_passes convert_multiplicity k s primary addi)).
Proof.
  intros Hb x v Hx.
  apply contig_passes_crusial_inv in Hx as (c & Hc & He).
  exists c. split; [exact Hc|]. split; [|exact He].
  exact (proj1 (Forall_forall _ _) Hb c Hc).
Qed.

Lemma read_increments_supported {M : Type} (k s : Z)
    (contigs : list (contig M)) (crusial : gmap (list Z) Z) (R key : list Z) :
  0 < k -> 0 <= s <= 29 -> crusial_from k s contigs crusial ->
  key ∈ read_increments k s crusial R ->
  exists p, 0 <= p /\ p + (k + s + 1) <= Z.of_nat (length R)
    /\ key = canonical (window R p (k + s + 1))
    /\ forall i, 0 <= i <= s + 1 ->
         contig_kmer k contigs (window R (p + i) k).
Proof.
  intros Hk Hs Hfrom Hkey.
  destruct (Z.ltb_spec (Z.of_nat (length R)) (k + s + 1)) as [Hshort|Hlong].
  { rewrite read_increments_short in Hkey by lia. inversion Hkey. }
  destruct (process_read_spec k s crusial ∅ R Hk ltac:(lia) Hlong)
    as (sc & Hsc & Hlen & Hrun).
  cbv zeta in Hrun. unfold read_increments in Hkey. rewrite Hrun in Hkey.
  apply list_elem_of_fmap in Hkey as (j & -> & Hj).
  replace (Z.of_nat (length R) - k + 1)
    with (Z.of_nat (Z.to_nat (Z.of_nat (length R) - k + 1))) in Hj by lia.
  apply emit_positions_iff in Hj as (Hr & Hsj & Hlab); [|lia|lia|].
  2:{ split; [lia|]. split; intros; lia. }
  destruct (phase1_sound k s contigs crusial R Hk Hs Hfrom ltac:(lia))
    as (sc' & Hsc' & Hsound).
  assert (sc' = sc) as -> by congruence.
  exists (j - s - 1). split; [lia|]. split; [lia|]. split; [reflexivity|].
  intros i Hi.
  replace (j - s - 1 + i) with (Z.of_nat (Z.to_nat (j - s - 1 + i))) by lia.
  apply Hsound. apply Hlab. lia.
Qed.

(** * The claims on the crucial k-mers and on the multiplicity *)

(** ** The crucial k-mers of the primary contigs *)

(** C4 as stated fails for a contig of exactly [k] bases: [AAC] with
    [k = 3] stores its leading k-mer, but the reverse complement [GTT] of
    its trailing k-mer is not a key, since the second write is guarded by
    [length > k]. *)
Lemma exact_length_contig_one_key :
  Z.of_nat (length contig_AAC) = 3
  /\ crusial_of 3 1 contig_AAC !! take 3 contig_AAC = Some 0
  /\ crusial_of 3 1 contig_AAC
       !! Kmer.ReverseComplement (drop (length contig_AAC - 3) contig_AAC)
     = None.
Proof. repeat split; vm_compute; reflexivity. Qed.

(** C4, amended: for [step <= 29] and contigs over the four bases.  The
    iteration of a primary contig of length [L] writes nothing when
    [L < k], its leading k-mer with the forward hint and no second key when
    [L = k], and when [L > k] its leading k-mer with the forward hint and
    then the reverse complement of its trailing k-mer with the complemented
    hint; both hints have length [min(s, L - k)] and hold the bases after
    the leading k-mer and the complements of the bases before the trailing
    k-mer, nearest first.  After the contig passes the leading k-mer (for
    [L >= k]) and the reverse complement of the trailing k-mer (for
    [L > k]) are keys of the map, and the value each holds is the hint
    packed for an end, with that key, of a primary contig: the contig
    itself or, when keys collide, another one; its length is
    [min(s, L' - k)] for that contig's length [L']. *)
Theorem crusial_kmers_of_primary_contigs {M : Type}
    (convert_multiplicity : Z -> Z -> Z -> M -> Z)
    (k s : Z) (primary : list (list (contig M)))
    (addi : option (list (list (contig M)))) (c : contig M) :
  0 <= k -> 0 <= s <= 29 ->
  Forall (fun c => bases_ok (seq c)) (concat primary) ->
  c ∈ concat primary ->
  let L := Z.of_nat (length (seq c)) in
  let prefix := take (Z.to_nat k) (seq c) in
  let suffix_rc :=
    Kmer.ReverseComplement (drop (length (seq c) - Z.to_nat k) (seq c)) in
  let crusial :=
    crusial_kmers (contig_passes convert_multiplicity k s primary addi) in
  let holds_hint_of_an_end (x : list Z) :=
    exists v c',
      crusial !! x = Some v
      /\ c' ∈ concat primary
      /\ crusial_entry k s (seq c') x v
      /\ hint_length v = Z.min s (Z.of_nat (length (seq c')) - k) in
  (forall m : gmap (list Z) Z,
     (L < k -> add_crusial_kmers k s m (seq c) = m)
     /\ (L = k ->
         add_crusial_kmers k s m (seq c)
         = <[prefix := prefix_hint k s (seq c)]> m)
     /\ (k < L ->
         add_crusial_kmers k s m (seq c)
         = <[suffix_rc := suffix_rc_hint k s (seq c)]>
             (<[prefix := prefix_hint k s (seq c)]> m)))
  /\ (k <= L ->
      hint_length (prefix_hint k s (seq c)) = Z.min s (L - k)
      /\ hint_length (suffix_rc_hint k s (seq c)) = Z.min s (L - k)
      /\ forall j, 0 <= j < Z.min s (L - k) ->
           hint_base (prefix_hint k s (seq c)) j = CharAt (seq c) (k + j)
           /\ hint_base (suffix_rc_hint k s (seq c)) j
              = 3 - CharAt (seq c) (L - k - 1 - j))
  /\ (k <= L -> holds_hint_of_an_end prefix)
  /\ (k < L -> holds_hint_of_an_end suffix_rc).
Proof.
  intros Hk Hs Hbases Hc L prefix suffix_rc crusial holds.
  pose proof (proj1 (Forall_forall _ _) Hbases c Hc) as Hb. cbn in Hb.
  assert (k <= L -> prefix_kmer k (seq c) = prefix) as Hpre.
  { intros HL. rewrite prefix_kmer_window.
    rewrite window_substring by (fold L; lia). reflexivity. }
  assert (k <= L -> suffix_rc_kmer k (seq c) = suffix_rc) as Hsuf.
  { intros HL. rewrite suffix_rc_kmer_window by lia. unfold suffix_rc.
    rewrite window_substring by (fold L; lia). fold L.
    replace (Z.to_nat (L - k)) with (length (seq c) - Z.to_nat k)%nat
      by (subst L; lia).
    now rewrite take_ge by (rewrite length_drop; subst L; lia). }
  assert (forall x, is_Some (crusial !! x) -> holds x) as Hheld.
  { intros x [v Hv]. subst holds. cbv beta.
    destruct (contig_passes_crusial_inv convert_multiplicity k s primary addi
                x v Hv) as (c' & Hc' & He).
    exists v, c'. split; [exact Hv|]. split; [exact Hc'|].
    split; [exact He|].
    pose proof (proj1 (Forall_forall _ _) Hbases c' Hc') as Hb'. cbn in Hb'.
    now destruct (crusial_entry_decode k s (seq c') x v Hk Hs Hb' He)
      as (_ & Hlen & _). }
  destruct (contig_passes_crusial_keys convert_multiplicity k s primary addi
              c Hc) as [H1 H2].
  split; [|split; [|split]].
  - intros m. unfold add_crusial_kmers. fold L.
    split; [|split]; intros HL.
    + destruct (Z.ltb_spec L k); [reflexivity|lia].
    + destruct (Z.ltb_spec L k); [lia|].
      destruct (Z.ltb_spec k L); [lia|]. now rewrite Hpre by lia.
    + destruct (Z.ltb_spec L k); [lia|].
      destruct (Z.ltb_spec k L); [|lia].
      now rewrite Hpre, Hsuf by lia.
  - intros HL.
    destruct (prefix_hint_decode k s (seq c) Hs Hb HL) as [Hl1 Hd1].
    destruct (suffix_rc_hint_decode k s (seq c) Hs Hb HL) as [Hl2 Hd2].
    cbv zeta in Hl1, Hd1, Hl2, Hd2. fold L in Hl1, Hd1, Hl2, Hd2.
    split; [exact Hl1|]. split; [exact Hl2|].
    intros j Hj. split; [now apply Hd1 | now apply Hd2].
  - intros HL. apply Hheld. rewrite <- Hpre by exact HL. now apply H1.
  - intros HL. apply Hheld. rewrite <- Hsuf by lia. now apply H2.
Qed.

Lemma crusial_kmers_of_primary_contigs_witness :
  (0 <= 3 /\ 0 <= 1 <= 29
   /\ Forall (fun c : contig Z => bases_ok (seq c))
             (concat [[mkContig contig_ACTGAA 5]])
   /\ mkContig contig_ACTGAA 5 ∈ concat [[mkContig contig_ACTGAA 5]])
  /\ let c := mkContig contig_ACTGAA 5 in
     let L := Z.of_nat (length (seq c)) in
     let prefix := take (Z.to_nat 3) (seq c) in
     let suffix_rc :=
       Kmer.ReverseComplement (drop (length (seq c) - Z.to_nat 3) (seq c)) in
     let crusial :=
       crusial_kmers
         (contig_passes keep_multiplicity 3 1 [[mkContig contig_ACTGAA 5]]
                        None) in
     let holds_hint_of_an_end (x : list Z) :=
       exists v c',
         crusial !! x = Some v
         /\ c' ∈ concat [[mkContig contig_ACTGAA 5]]
         /\ crusial_entry 3 1 (seq c') x v
         /\ hint_length v = Z.min 1 (Z.of_nat (length (seq c')) - 3) in
     (forall m : gmap (list Z) Z,
        (L < 3 -> add_crusial_kmers 3 1 m (seq c) = m)
        /\ (L = 3 ->
            add_crusial_kmers 3 1 m (seq c)
            = <[prefix := prefix_hint 3 1 (seq c)]> m)
        /\ (3 < L ->
            add_crusial_kmers 3 1 m (seq c)
            = <[suffix_rc := suffix_rc_hint 3 1 (seq c)]>
                (<[prefix := prefix_hint 3 1 (seq c)]> m)))
     /\ (3 <= L ->
         hint_length (prefix_hint 3 1 (seq c)) = Z.min 1 (L - 3)
         /\ hint_length (suffix_rc_hint 3 1 (seq c)) = Z.min 1 (L - 3)
         /\ forall j, 0 <= j < Z.min 1 (L - 3) ->
              hint_base (prefix_hint 3 1 (seq c)) j = CharAt (seq c) (3 + j)
              /\ hint_base (suffix_rc_hint 3 1 (seq c)) j
                 = 3 - CharAt (seq c) (L - 3 - 1 - j))
     /\ (3 <= L -> holds_hint_of_an_end prefix)
     /\ (3 < L -> holds_hint_of_an_end suffix_rc).
Proof.
  assert (Forall (fun c : contig Z => bases_ok (seq c))
                 (concat [[mkContig contig_ACTGAA 5]])) as Hb
      by (repeat constructor; cbn; lia).
  assert (mkContig contig_ACTGAA 5 ∈ concat [[mkContig contig_ACTGAA 5]])
    as Hin by (cbn; constructor).
  split; [split; [lia | split; [lia | split; [exact Hb | exact Hin]]]|].
  exact (crusial_kmers_of_primary_contigs keep_multiplicity 3 1
           [[mkContig contig_ACTGAA 5]] None (mkContig contig_ACTGAA 5)
           ltac:(lia) ltac:(lia) Hb Hin).
Defined.

(** ** The converted multiplicity *)

(** C2 as stated fails: the multiplicity is not the rounded value of the
    formula.  For [k = 1], [s = 4], a contig of 7 bases and multiplicity 9
    the formula gives exactly 3/2, which rounds to 2, and both edges of the
    contig carry 1: line 335 divides 2 by 6 and multiplies by 5 in binary64,
    which leaves a value just below 2 before the truncation of line 338.
    For [k = 1], [s = 2], a contig of 4 bases and multiplicity 6 the
    formula gives 3/2 again and the code computes 2, so no rule for halves
    reconciles the two. *)
Lemma multiplicity_not_the_rounded_formula :
  (spec_expected 1 4 7 9%Q == 3 # 2)%Q
  /\ spec_multiplicity 1 4 7 9%Q = 2
  /\ converted_multiplicity 1 4 7 9%float = Some 1
  /\ edge_multiplicity
       <$> contig_edges 1 4 contig_ACGTACG
             (convert_multiplicity_binary64 1 4 7 9%float)
     = [1; 1]
  /\ (spec_expected 1 2 4 6%Q == 3 # 2)%Q
  /\ converted_multiplicity 1 2 4 6%float = Some 2.
Proof. repeat split; vm_compute; reflexivity. Qed.

(** C2, amended: for a contig [C] of length [L] with multiplicity [m_k],
    with [n_k = L - k + 1], [n' = L - (k + s + 1) + 1], [W = s + 2],
    [M = min(W, n')], [E = M - 1] and [I = n_k - 2 E] as in the claim.  When
    [n' <= 0] no edge is written for [C].  When [n' > 0] exactly [n'] edges
    are written, and each carries in its multiplicity field the value
    [min(t, MULTI_MAX)] kept to 16 bits, where [t] is the integer part of
    [((E * (E + 1)) / W + (M / W) * I) * m_k * k / (k + s + 1) / n' + 0.5]
    evaluated in binary64, one rounded operation after the other in this
    order, provided that integer part fits an [int]; for [t >= 0] that is
    [min(t, MULTI_MAX)] itself. *)
Theorem edges_carry_binary64_multiplicity (k s : Z) (c : contig float)
    (out : list edge_write) :
  0 < k -> 0 < s -> bases_ok (seq c) ->
  let L := Z.of_nat (length (seq c)) in
  let n_k := L - k + 1 in
  let n' := L - (k + s + 1) + 1 in
  let W := s + 2 in
  let M := Z.min W n' in
  let E := M - 1 in
  let I := n_k - 2 * E in
  let d := double_of_int in
  exists es,
    write_contig_edges convert_multiplicity_binary64 k s out c
    = out ++ (EdgeWords <$> es)
    /\ (n' <= 0 -> es = [])
    /\ (0 < n' ->
        Z.of_nat (length es) = n'
        /\ forall t,
             int_of_double
               ((d E * d (E + 1)%Z / d W + d M / d W * d I)
                * multiplicity_prev c
                * d k / d (k + s + 1)%Z / d n' + 0.5)%float
             = Some t ->
             forall e, e ∈ es ->
               edge_multiplicity e = u16 (Z.min t kMaxMulti_t)
               /\ (0 <= t -> edge_multiplicity e = Z.min t kMaxMulti_t)).
Proof.
  intros Hk Hs Hb L n_k n' W M E I d.
  eexists. split; [reflexivity|]. fold L.
  split.
  - intros Hn. apply contig_edges_short. fold L. lia.
  - intros Hn. split.
    + rewrite length_contig_edges. fold L. lia.
    + intros t Ht.
      assert (convert_multiplicity_binary64 k s L (multiplicity_prev c)
              = u16 (Z.min t kMaxMulti_t)) as Hconv.
      { unfold convert_multiplicity_binary64, converted_multiplicity,
          multiplicity_before_truncation, exp_num_kmer.
        replace (num_external k s L) with E
          by (unfold num_external, internal_max, num_nextk1;
              subst E M W n'; f_equal; f_equal; lia).
        replace (internal_max k s L) with M
          by (unfold internal_max, num_nextk1; subst M W n'; f_equal; lia).
        replace (num_internal k s L) with I
          by (unfold num_internal, num_kmer, num_external, internal_max,
                num_nextk1; subst I n_k E M W n';
              replace (k + s + 1 - k + 1) with (s + 2) by lia; lia).
        replace (num_nextk1 k s L) with n' by reflexivity.
        replace (k + s + 1 - k + 1) with W by (subst W; lia).
        fold d. rewrite Ht. reflexivity. }
      rewrite Hconv.
      assert (0 <= u16 (Z.min t kMaxMulti_t) < 2 ^ 16) as Hrange
          by (unfold u16; apply Z.mod_pos_bound; lia).
      intros e He.
      rewrite contig_edges_assembled in He by (try assumption; fold L; lia).
      apply list_elem_of_fmap in He as (p & -> & Hp).
      assert (edge_multiplicity
                (assemble_edge k s (seq c) p (u16 (Z.min t kMaxMulti_t)))
              = u16 (Z.min t kMaxMulti_t)) as Hm.
      { apply assemble_edge_multiplicity;
          [lia | apply bases_ok_window, Hb | exact Hrange]. }
      split; [exact Hm|].
      intros Ht0. rewrite Hm. unfold u16. apply Z.mod_small.
      unfold kMaxMulti_t. change (2 ^ 16) with 65536. lia.
Qed.

Lemma edges_carry_binary64_multiplicity_witness :
  (0 < 1 /\ 0 < 4 /\ bases_ok contig_ACGTACG)
  /\ let c := mkContig contig_ACGTACG 9%float in
     let L := Z.of_nat (length (seq c)) in
     let n_k := L - 1 + 1 in
     let n' := L - (1 + 4 + 1) + 1 in
     let W := 4 + 2 in
     let M := Z.min W n' in
     let E := M - 1 in
     let I := n_k - 2 * E in
     let d := double_of_int in
     exists es,
       write_contig_edges convert_multiplicity_binary64 1 4 [] c
       = [] ++ (EdgeWords <$> es)
       /\ (n' <= 0 -> es = [])
       /\ (0 < n' ->
           Z.of_nat (length es) = n'
           /\ forall t,
                int_of_double
                  ((d E * d (E + 1)%Z / d W + d M / d W * d I)
                   * multiplicity_prev c
                   * d 1%Z / d (1 + 4 + 1)%Z / d n' + 0.5)%float
                = Some t ->
                forall e, e ∈ es ->
                  edge_multiplicity e = u16 (Z.min t kMaxMulti_t)
                  /\ (0 <= t -> edge_multiplicity e = Z.min t kMaxMulti_t)).
Proof.
  assert (bases_ok contig_ACGTACG) as Hb by (repeat constructor; lia).
  split; [split; [lia | split; [lia | exact Hb]]|].
  exact (edges_carry_binary64_multiplicity 1 4 (mkContig contig_ACGTACG 9%float)
           [] ltac:(lia) ltac:(lia) Hb).
Defined.
(** * Further properties of the code *)

(** ** Start-up: [ParseOptions], [InitGlobalData], [main] *)

(** X1: as long as the sum [step + kmer_k] of line 92 fits an [int],
    [ParseOptions] returns normally exactly when every check of lines
    92-112 passes: [step + kmer_k] below [max_size], the three input files
    and the output prefix non-empty, [kmer_k] and [step] positive, the read
    format one of [binary], [fasta], [fastq], and [max_read_len] not zero.
    The options it returns are the given ones, with [num_cpu_threads]
    replaced by [omp_get_max_threads()] when it was zero.  Nothing else is
    checked: no upper bound on [step], no sign of [max_read_len] or of
    [num_cpu_threads], nothing about the additional-contig files. *)
Theorem ParseOptions_accepts_exactly (max_size omp_max_threads : Z)
    (o o' : Options) :
  - 2 ^ 31 <= step o + kmer_k o < 2 ^ 31 ->
  ParseOptions max_size omp_max_threads o = Parsed o'
  <-> (step o + kmer_k o < max_size
       /\ contigs_file o <> EmptyString
       /\ contigs_multi_file o <> EmptyString
       /\ read_file o <> EmptyString
       /\ 0 < kmer_k o /\ 0 < step o
       /\ output_prefix o <> EmptyString
       /\ (read_format o = "binary" \/ read_format o = "fasta"
           \/ read_format o = "fastq")%string
       /\ max_read_len o <> 0)
      /\ o' = (if num_cpu_threads o =? 0
               then set_num_cpu_threads o omp_max_threads else o).
Proof.
  intros _. split.
  - apply ParseOptions_Parsed_inv.
  - intros [(H1 & H2 & H3 & H4 & H5 & H6 & H7 & H8 & H9) ->].
    now apply ParseOptions_Parsed_intro.
Qed.

Lemma ParseOptions_accepts_exactly_witness :
  - 2 ^ 31 <= step options_step_30 + kmer_k options_step_30 < 2 ^ 31
  /\ (ParseOptions 128 8 options_step_30 = Parsed options_step_30
      <-> (step options_step_30 + kmer_k options_step_30 < 128
           /\ contigs_file options_step_30 <> EmptyString
           /\ contigs_multi_file options_step_30 <> EmptyString
           /\ read_file options_step_30 <> EmptyString
           /\ 0 < kmer_k options_step_30 /\ 0 < step options_step_30
           /\ output_prefix options_step_30 <> EmptyString
           /\ (read_format options_step_30 = "binary"
               \/ read_format options_step_30 = "fasta"
               \/ read_format options_step_30 = "fastq")%string
           /\ max_read_len options_step_30 <> 0)
          /\ options_step_30
             = (if num_cpu_threads options_step_30 =? 0
                then set_num_cpu_threads options_step_30 8
                else options_step_30)).
Proof.
  split; [cbn; lia|].
  apply (ParseOptions_accepts_exactly 128 8 options_step_30 options_step_30).
  cbn; lia.
Defined.

(** X2: after [ParseOptions] has returned, [InitGlobalData] identifies the
    read format: the branch of lines 168-171 that prints
    [Cannot identify read format!] and exits is never taken, and the format
    chosen is the one the option names. *)
Theorem InitGlobalData_identifies_read_format (max_size omp_max_threads : Z)
    (o o' : Options) :
  ParseOptions max_size omp_max_threads o = Parsed o' ->
  exists f : ReadFormat,
    InitGlobalData_read_format (read_format o') = Some f
    /\ read_format o
       = match f with
         | kFastq => "fastq"
         | kFasta => "fasta"
         | kBinary => "binary"
         end%string.
Proof.
  intros H. destruct (Parsed_read_format _ _ _ _ H) as (-> & _).
  apply ParseOptions_Parsed_inv in H as [(_ & _ & _ & _ & _ & _ & _ & H8 & _) _].
  destruct H8 as [-> | [-> | ->]];
    [exists kBinary | exists kFasta | exists kFastq]; split; reflexivity.
Qed.

Lemma InitGlobalData_identifies_read_format_witness :
  ParseOptions 128 8 options_step_30 = Parsed options_step_30
  /\ exists f : ReadFormat,
       InitGlobalData_read_format (read_format options_step_30) = Some f
       /\ read_format options_step_30
          = match f with
            | kFastq => "fastq"
            | kFasta => "fasta"
            | kBinary => "binary"
            end%string.
Proof.
  split; [reflexivity|].
  apply (InitGlobalData_identifies_read_format 128 8 options_step_30
           options_step_30).
  reflexivity.
Defined.

(** X3: how [main] ends, for options whose sum [step + kmer_k] fits an
    [int].  Either [ParseOptions] leaves through its usage exit, with
    status 1; or the options are accepted and an assert fails, one of those
    of [InitGlobalData] on the files it opens (lines 181-198) or that of
    line 442 on a read longer than [max_read_len], and the process aborts;
    or the options are accepted, no assert fails, and both passes run to
    the end: no access of the read pass is out of bounds, every loop ends,
    and the exit of [InitGlobalData] on the read format is not taken.  In
    particular options that name [addi_contig_file] without
    [addi_multi_file] pass [ParseOptions] and abort in
    [InitGlobalData]. *)
Theorem main_exits_or_completes {M : Type}
    (convert_multiplicity : Z -> Z -> Z -> M -> Z) (files : Files)
    (max_size omp_max_threads : Z) (o : Options)
    (primary addi : list (list (contig M)))
    (reads : list (list (list Z))) :
  - 2 ^ 31 <= step o + kmer_k o < 2 ^ 31 ->
  let r := main convert_multiplicity files max_size omp_max_threads o
                primary addi reads in
  ((rejected (ParseOptions max_size omp_max_threads o) /\ r = Exited 1)
   \/ (exists o',
         ParseOptions max_size omp_max_threads o = Parsed o'
         /\ ((InitGlobalData_asserts files o' = false /\ r = Aborted)
             \/ (InitGlobalData_asserts files o' = true
                 /\ (exists R, R ∈ concat (packages_read reads)
                       /\ max_read_len o' < Z.of_nat (length R))
                 /\ r = Aborted)
             \/ (InitGlobalData_asserts files o' = true
                 /\ (forall R, R ∈ concat (packages_read reads) ->
                       Z.of_nat (length R) <= max_read_len o')
                 /\ exists g, r = Returned (Done g)))))
  /\ (forall o',
        ParseOptions max_size omp_max_threads o = Parsed o' ->
        addi_contig_file o' <> EmptyString ->
        addi_multi_file o' = EmptyString ->
        r = Aborted).
Proof.
  intros _ r. subst r. unfold main.
  destruct (ParseOptions max_size omp_max_threads o) as [o'|msg st] eqn:HP.
  - destruct (Parsed_read_format _ _ _ _ HP) as (Hf & Hk & Hs & _).
    apply ParseOptions_Parsed_inv in HP
      as [(_ & _ & _ & _ & H5 & H6 & _ & H8 & _) _].
    assert (is_Some (InitGlobalData_read_format (read_format o')))
      as [f ->].
    { rewrite Hf. destruct H8 as [-> | [-> | ->]]; eexists; reflexivity. }
    split.
    + right. exists o'. split; [reflexivity|].
      destruct (InitGlobalData_asserts files o') eqn:HA; cbn [negb].
      2: { left. split; reflexivity. }
      right.
      destruct (ReadReadsAndProcess_asserts (max_read_len o') reads) eqn:HR;
        cbn [negb].
      * right. split; [reflexivity|]. split.
        { intros R HR'. apply (assert_line_442_true _ _ HR R HR'). }
        destruct (run_spec convert_multiplicity (kmer_k o') (step o') primary
                    (if is_empty_string (addi_multi_file o') then None
                     else Some addi) reads)
          as (keys & drained & g & Hrun & _); [lia | lia |].
        exists g. now rewrite Hrun.
      * left. split; [reflexivity|]. split; [|reflexivity].
        apply assert_line_442_false, HR.
    + intros o'' [= <-] Hc Hm.
      rewrite (InitGlobalData_asserts_addi files o' Hc Hm). reflexivity.
  - split.
    + left. apply ParseOptions_status in HP as ->.
      split; [cbn; lia | reflexivity].
    + intros o'' [=].
Qed.

Lemma main_exits_or_completes_witness :
  - 2 ^ 31 <= step options_step_30 + kmer_k options_step_30 < 2 ^ 31
  /\ let r := main keep_multiplicity files_all_open 128 8 options_step_30
                   [[mkContig contig_AAACCCGGG 5]] [] [[read_AAACCCGG]] in
     ((rejected (ParseOptions 128 8 options_step_30) /\ r = Exited 1)
      \/ (exists o',
            ParseOptions 128 8 options_step_30 = Parsed o'
            /\ ((InitGlobalData_asserts files_all_open o' = false
                 /\ r = Aborted)
                \/ (InitGlobalData_asserts files_all_open o' = true
                    /\ (exists R,
                          R ∈ concat (packages_read [[read_AAACCCGG]])
                          /\ max_read_len o' < Z.of_nat (length R))
                    /\ r = Aborted)
                \/ (InitGlobalData_asserts files_all_open o' = true
                    /\ (forall R,
                          R ∈ concat (packages_read [[read_AAACCCGG]]) ->
                          Z.of_nat (length R) <= max_read_len o')
                    /\ exists g, r = Returned (Done g)))))
     /\ (forall o',
           ParseOptions 128 8 options_step_30 = Parsed o' ->
           addi_contig_file o' <> EmptyString ->
           addi_multi_file o' = EmptyString ->
           r = Aborted).
Proof.
  split; [cbn; lia|].
  apply (main_exits_or_completes keep_multiplicity files_all_open 128 8
           options_step_30 [[mkContig contig_AAACCCGGG 5]] []
           [[read_AAACCCGG]]).
  cbn; lia.
Defined.

(** X4: the table [dna_map] that [InitGlobalData] fills has an entry for
    every byte, each entry is one of the four base symbols, and every byte
    other than [A], [C] and [T] (lower-case letters and [N] included) is
    read as 2, the symbol of [G]. *)
Theorem dna_map_total (c : nat) :
  (c < 256)%nat ->
  exists b : Z,
    dna_map !! c = Some b /\ 0 <= b < 4
    /\ (b = 0 <-> c = nat_of_ascii "A")
    /\ (b = 1 <-> c = nat_of_ascii "C")
    /\ (b = 3 <-> c = nat_of_ascii "T").
Proof.
  intros Hc. eexists. split; [apply dna_map_table, Hc|].
  repeat destruct (decide _); subst; cbn;
    repeat split; intros; try lia; try congruence; try discriminate.
Qed.

Lemma dna_map_total_witness :
  (nat_of_ascii "n" < 256)%nat
  /\ exists b : Z,
       dna_map !! nat_of_ascii "n" = Some b /\ 0 <= b < 4
       /\ (b = 0 <-> nat_of_ascii "n" = nat_of_ascii "A")
       /\ (b = 1 <-> nat_of_ascii "n" = nat_of_ascii "C")
       /\ (b = 3 <-> nat_of_ascii "n" = nat_of_ascii "T").
Proof.
  split; [apply Nat.ltb_lt; reflexivity|].
  apply (dna_map_total (nat_of_ascii "n")). apply Nat.ltb_lt; reflexivity.
Defined.

(** X5: the output files [InitGlobalData] opens are named
    [output_prefix + ".edges.0"] and [output_prefix + ".rr.pb"]; for no
    prefix are these the names [Options::output_edges_file()] and
    [Options::output_read_file()] return, which lack the dot. *)
Theorem opened_files_are_not_the_Options_names (o : Options) :
  InitGlobalData_edge_file_name o <> Options_output_edges_file o
  /\ InitGlobalData_read_file_name o <> Options_output_read_file o.
Proof.
  unfold InitGlobalData_edge_file_name, Options_output_edges_file,
    InitGlobalData_read_file_name, Options_output_read_file.
  split; intros H; apply (f_equal String.length) in H;
    rewrite !string_length_append in H; cbn in H; lia.
Qed.

(** ** The contig pass *)

(** X6: a contig of length [L] yields [L - (k + s)] edge records when
    [L >= k + s + 1] and none otherwise, and every record has exactly
    [kWordsPerEdge] words, whatever the bases and the multiplicity. *)
Theorem contig_edges_count_and_size (k s : Z) (seq : list Z)
    (multiplicity : Z) :
  Z.of_nat (length (contig_edges k s seq multiplicity))
  = Z.max 0 (Z.of_nat (length seq) - (k + s))
  /\ Forall (fun packed_edge =>
               length packed_edge = Z.to_nat (kWordsPerEdge k s))
            (contig_edges k s seq multiplicity).
Proof. split; [apply length_contig_edges | apply contig_edges_lengths]. Qed.

(** X7: the integer quantities of the multiplicity conversion (lines
    329-333) for a contig that yields an edge, [len >= next_k + 1].  They
    are positive, so none of the divisors of lines 335-338 is zero, and
    they satisfy [num_external * (num_external + 1)
    + internal_max * num_internal = (s + 2) * num_nextk1]: both sides count
    the pairs of a window and a k-mer inside it. *)
Theorem conversion_counts (k s len : Z) :
  0 < k -> 0 < s -> k + s + 1 <= len ->
  1 <= num_nextk1 k s len
  /\ 1 <= internal_max k s len <= s + 2
  /\ 0 <= num_external k s len
  /\ 1 <= num_internal k s len
  /\ num_external k s len * (num_external k s len + 1)
     + internal_max k s len * num_internal k s len
     = (k + s + 1 - k + 1) * num_nextk1 k s len.
Proof.
  intros Hk Hs HL.
  unfold num_internal, num_external, internal_max, num_kmer, num_nextk1.
  destruct (Z.min_spec (k + s + 1 - k + 1) (len - (k + s + 1) + 1))
    as [[Hlt ->] | [Hle ->]]; repeat split; try lia; nia.
Qed.

Lemma conversion_counts_witness :
  (0 < 3 /\ 0 < 1 /\ 3 + 1 + 1 <= 9)
  /\ 1 <= num_nextk1 3 1 9
  /\ 1 <= internal_max 3 1 9 <= 1 + 2
  /\ 0 <= num_external 3 1 9
  /\ 1 <= num_internal 3 1 9
  /\ num_external 3 1 9 * (num_external 3 1 9 + 1)
     + internal_max 3 1 9 * num_internal 3 1 9
     = (3 + 1 + 1 - 3 + 1) * num_nextk1 3 1 9.
Proof.
  split; [lia|]. apply (conversion_counts 3 1 9); lia.
Defined.

(** X8: the packing loop of lines 343-355 stays inside [packed_edge]: it
    ends with [end_word = (k + s + 1) / 16], which is at most
    [kWordsPerEdge - 1], so the stores of lines 349 and 354 are in range;
    so is the word [next_k / 16] that line 361 clears, and the partial word
    [w] holds only the bases packed since the last full word. *)
Theorem packing_stays_in_packed_edge (k s : Z) (seq : list Z) (off : Z) :
  0 <= k + s ->
  bases_ok (window seq off (k + s + 1)) ->
  let W := kWordsPerEdge k s in
  exists (w : Z) (end_word : nat) (packed_edge : list Z),
    fill_words seq off (k + s) (Z.to_nat (k + s + 1)) 0 0 0%nat
               (replicate (Z.to_nat W) 0)
    = (w, end_word, packed_edge)
    /\ Z.of_nat end_word = (k + s + 1) / 16
    /\ Z.of_nat end_word <= W - 1
    /\ 0 <= (k + s) / 16 <= W - 1
    /\ 0 <= w < 2 ^ (2 * ((k + s + 1) mod 16))
    /\ length packed_edge = Z.to_nat W.
Proof.
  intros Hn Hbases W.
  destruct (kWordsPerEdge_room k s Hn) as [HW1 HW2]. fold W in HW1, HW2.
  set (n := k + s + 1) in *.
  assert (Hchars : forall t, 0 <= t < 0 + Z.of_nat (Z.to_nat n) ->
                     0 <= CharAt seq (off + (k + s - t)) < 4).
  { intros t Ht. unfold bases_ok, window in Hbases.
    rewrite Forall_fmap, Forall_seqZ in Hbases.
    apply (Hbases (off + (k + s - t))). subst n. lia. }
  assert (0 <= n / 16) as Hq by (apply Z.div_pos; subst n; lia).
  assert (Hroom : (0 + Z.of_nat (Z.to_nat n)) / 16
                  <= Z.of_nat (length (@nil Z) + Z.to_nat W) - 1).
  { cbn [length]. rewrite Z.add_0_l, Z2Nat.id by (subst n; lia). lia. }
  destruct (fill_words_spec seq off (k + s) (Z.to_nat n) 0 0 0 [] (Z.to_nat W)
              ltac:(lia) ltac:(cbn; lia) ltac:(cbn; lia) (Forall_nil_2 _)
              Hchars Hroom)
    as (w' & r' & D' & room' & Hrun & Hlen & Hr' & Hj' & Hw' & HD' & Hval).
  cbn [length app] in Hrun, Hlen.
  rewrite Z2Nat.id in Hj' by (subst n; lia).
  assert (n / 16 = Z.of_nat (length D') /\ n mod 16 = r') as [Hdiv Hmod].
  { split; [symmetry; apply (Z.div_unique _ _ _ r')
            | symmetry; apply (Z.mod_unique _ _ (Z.of_nat (length D')))];
      lia. }
  exists w', (length D'), (D' ++ replicate room' 0).
  split; [exact Hrun|]. split; [lia|]. split; [lia|].
  split.
  { split; [apply Z.div_pos; lia|].
    assert ((k + s) / 16 <= n / 16) by (apply Z.div_le_mono; subst n; lia).
    lia. }
  split; [rewrite Hmod; exact Hw'|].
  rewrite length_app, length_replicate. lia.
Qed.

Lemma packing_stays_in_packed_edge_witness :
  (0 <= 3 + 1 /\ bases_ok (window contig_AAACCCGGG 2 (3 + 1 + 1)))
  /\ let W := kWordsPerEdge 3 1 in
     exists (w : Z) (end_word : nat) (packed_edge : list Z),
       fill_words contig_AAACCCGGG 2 (3 + 1) (Z.to_nat (3 + 1 + 1)) 0 0 0%nat
                  (replicate (Z.to_nat W) 0)
       = (w, end_word, packed_edge)
       /\ Z.of_nat end_word = (3 + 1 + 1) / 16
       /\ Z.of_nat end_word <= W - 1
       /\ 0 <= (3 + 1) / 16 <= W - 1
       /\ 0 <= w < 2 ^ (2 * ((3 + 1 + 1) mod 16))
       /\ length packed_edge = Z.to_nat W.
Proof.
  assert (bases_ok (window contig_AAACCCGGG 2 (3 + 1 + 1))) as Hb
      by (apply bases_ok_window; repeat constructor; lia).
  split; [split; [lia | exact Hb]|].
  apply (packing_stays_in_packed_edge 3 1 contig_AAACCCGGG 2);
    [lia | exact Hb].
Defined.

(** X9: what is written can be read back.  The record of the window at
    position [p] of a contig holds, in the 2-bit field [i] (addressed as
    line 361 addresses a field), base [p + (k + s) - i] of the contig, so
    the window last base first, and in the low sixteen bits of its last
    word the multiplicity; the sliding updates lose nothing. *)
Theorem contig_edge_fields (k s : Z) (seq : list Z) (multiplicity p : Z) :
  0 <= k + s -> bases_ok seq ->
  0 <= multiplicity <= kMaxMulti_t ->
  0 <= p -> p + (k + s + 1) <= Z.of_nat (length seq) ->
  exists packed_edge,
    contig_edges k s seq multiplicity !! Z.to_nat p = Some packed_edge
    /\ (forall i, 0 <= i <= k + s ->
          edge_slot packed_edge i = CharAt seq (p + (k + s - i)))
    /\ edge_multiplicity packed_edge = multiplicity.
Proof.
  intros Hn Hseq Hm Hp HL. unfold kMaxMulti_t in Hm.
  assert (0 <= multiplicity < 2 ^ 16) as Hm' by (change (2 ^ 16) with 65536; lia).
  rewrite contig_edges_assembled by (try assumption; lia).
  exists (assemble_edge k s seq p multiplicity). split.
  - rewrite list_lookup_fmap, lookup_seqZ_lt by lia. cbn. do 2 f_equal. lia.
  - split.
    + intros i Hi. apply assemble_edge_slot; auto using bases_ok_window.
    + apply assemble_edge_multiplicity; auto using bases_ok_window.
Qed.

Lemma contig_edge_fields_witness :
  (0 <= 3 + 1 /\ bases_ok contig_AAACCCGGG /\ 0 <= 5 <= kMaxMulti_t
   /\ 0 <= 4 /\ 4 + (3 + 1 + 1) <= Z.of_nat (length contig_AAACCCGGG))
  /\ exists packed_edge,
       contig_edges 3 1 contig_AAACCCGGG 5 !! Z.to_nat 4 = Some packed_edge
       /\ (forall i, 0 <= i <= 3 + 1 ->
             edge_slot packed_edge i = CharAt contig_AAACCCGGG (4 + (3 + 1 - i)))
       /\ edge_multiplicity packed_edge = 5.
Proof.
  assert (bases_ok contig_AAACCCGGG) as Hb by (repeat constructor; lia).
  split.
  - split; [lia|]. split; [exact Hb|]. split; [unfold kMaxMulti_t; lia|].
    split; cbn; lia.
  - apply (contig_edge_fields 3 1 contig_AAACCCGGG 5 4);
      [lia | exact Hb | unfold kMaxMulti_t; lia | lia | cbn; lia].
Defined.

(** X10: what the contig passes leave in [edges.0], exactly: the two header
    words when the primary stream has at least one package and nothing in
    their place when it has none, then the records of every contig in input
    order, the primary contigs first and the additional ones after them. *)
Theorem contig_passes_output {M : Type}
    (convert_multiplicity : Z -> Z -> Z -> M -> Z)
    (k s : Z) (primary : list (list (contig M)))
    (addi : option (list (list (contig M)))) :
  output_edge_file (contig_passes convert_multiplicity k s primary addi)
  = match primary with
    | [] => []
    | _ :: _ => [HeaderWord (u32 (k + s));
                 HeaderWord (u32 (kWordsPerEdge k s))]
    end
    ++ (EdgeWords
          <$> contig_records convert_multiplicity k s
                (concat primary
                 ++ match addi with
                    | Some packages => concat packages
                    | None => []
                    end)).
Proof. apply contig_passes_records. Qed.

(** X11: the pass over the additional contigs only appends edge records:
    it writes no header, adds no crucial k-mer, and leaves the
    iterative-edge map and [rr.pb] as they are. *)
Theorem additional_contigs_only_append_edges {M : Type}
    (convert_multiplicity : Z -> Z -> Z -> M -> Z)
    (k s : Z) (packages : list (list (contig M))) (g : IterateGlobalData) :
  let g' := ReadContigsAndBuildHash convert_multiplicity k s true packages g in
  crusial_kmers g' = crusial_kmers g
  /\ iterative_edges g' = iterative_edges g
  /\ output_read_file g' = output_read_file g
  /\ output_edge_file g'
     = output_edge_file g
       ++ (EdgeWords
             <$> contig_records convert_multiplicity k s (concat packages)).
Proof.
  cbv zeta. unfold ReadContigsAndBuildHash. cbn [negb].
  split; [apply addi_rounds_crusial|].
  split; [apply contig_rounds_iterative_edges|].
  split; [apply contig_rounds_output_read_file|].
  rewrite contig_rounds_records. now destruct packages.
Qed.

(** ** The crucial k-mers *)

(** X12: the crucial-k-mer map holds nothing but contig ends.  Every key
    has [k] bases and is the leading k-mer of a primary contig of length at
    least [k], or the reverse complement of the trailing k-mer of a primary
    contig longer than [k]; the value stored with it is the hint packed for
    that end of that contig.  Additional contigs contribute no entry.
    Stated for [0 <= step <= 32], where every base of a hint is packed
    with a shift count that is not negative. *)
Theorem crusial_kmers_only_contig_ends {M : Type}
    (convert_multiplicity : Z -> Z -> Z -> M -> Z)
    (k s : Z) (primary : list (list (contig M)))
    (addi : option (list (list (contig M)))) (x : list Z) (v : Z) :
  0 <= k -> 0 <= s <= 32 ->
  crusial_kmers (contig_passes convert_multiplicity k s primary addi) !! x
  = Some v ->
  length x = Z.to_nat k
  /\ exists c, c ∈ concat primary
       /\ let L := length (seq c) in
          (k <= Z.of_nat L
           /\ x = take (Z.to_nat k) (seq c)
           /\ v = prefix_hint k s (seq c))
          \/ (k < Z.of_nat L
              /\ x = Kmer.ReverseComplement (drop (L - Z.to_nat k) (seq c))
              /\ v = suffix_rc_hint k s (seq c)).
Proof.
  intros Hk Hs H.
  apply contig_passes_crusial_inv in H as (c & Hc & [(HL & -> & ->) | (HL & -> & ->)]).
  - rewrite prefix_kmer_window. split; [apply length_window|].
    exists c. split; [exact Hc|]. left.
    rewrite window_substring by lia. auto.
  - rewrite suffix_rc_kmer_window by lia.
    split; [rewrite length_ReverseComplement; apply length_window|].
    exists c. split; [exact Hc|]. right.
    rewrite window_substring by lia.
    replace (Z.to_nat (Z.of_nat (length (seq c)) - k))
      with (length (seq c) - Z.to_nat k)%nat by lia.
    rewrite take_ge by (rewrite length_drop; lia). auto.
Qed.

Lemma crusial_kmers_only_contig_ends_witness :
  (0 <= 3 /\ 0 <= 1 <= 32
   /\ crusial_kmers
        (contig_passes keep_multiplicity 3 1 [[mkContig contig_ACTGAA 5]]
                       (Some [[mkContig contig_AAACCCGGG 7]]))
        !! [3; 3; 1]
      = Some (suffix_rc_hint 3 1 contig_ACTGAA))
  /\ length [3; 3; 1] = Z.to_nat 3
  /\ exists c, c ∈ concat [[mkContig contig_ACTGAA 5]]
       /\ let L := length (seq c) in
          (3 <= Z.of_nat L
           /\ [3; 3; 1] = take (Z.to_nat 3) (seq c)
           /\ suffix_rc_hint 3 1 contig_ACTGAA = prefix_hint 3 1 (seq c))
          \/ (3 < Z.of_nat L
              /\ [3; 3; 1]
                 = Kmer.ReverseComplement (drop (L - Z.to_nat 3) (seq c))
              /\ suffix_rc_hint 3 1 contig_ACTGAA
                 = suffix_rc_hint 3 1 (seq c)).
Proof.
  split; [split; [lia | split; [lia | vm_compute; reflexivity]]|].
  apply (crusial_kmers_only_contig_ends keep_multiplicity 3 1
           [[mkContig contig_ACTGAA 5]]
           (Some [[mkContig contig_AAACCCGGG 7]]) [3; 3; 1]
           (suffix_rc_hint 3 1 contig_ACTGAA));
    [lia | lia | vm_compute; reflexivity].
Defined.

(** X13: for [step <= 29] a stored hint reads back as it was packed.  The
    value under a key decodes (as lines 464 and 467, 479 and 482 decode it)
    to the length [min(step, L - k)] for a contig of length [L] that has the
    key at one of its ends, and its bases are the bases that follow the
    leading k-mer, or the complements of the bases that precede the
    trailing k-mer, nearest first. *)
Theorem stored_hint_decodes {M : Type}
    (convert_multiplicity : Z -> Z -> Z -> M -> Z)
    (k s : Z) (primary : list (list (contig M)))
    (addi : option (list (list (contig M)))) (x : list Z) (v : Z) :
  0 <= k -> 0 <= s <= 29 ->
  Forall (fun c => bases_ok (seq c)) (concat primary) ->
  crusial_kmers (contig_passes convert_multiplicity k s primary addi) !! x
  = Some v ->
  exists c, c ∈ concat primary
    /\ let L := Z.of_nat (length (seq c)) in
       k <= L
       /\ hint_length v = Z.min s (L - k)
       /\ ((x = window (seq c) 0 k
            /\ forall j, 0 <= j < hint_length v ->
                 hint_base v j = CharAt (seq c) (k + j))
           \/ (x = Kmer.ReverseComplement (window (seq c) (L - k) k)
               /\ forall j, 0 <= j < hint_length v ->
                    hint_base v j = 3 - CharAt (seq c) (L - k - 1 - j))).
Proof.
  intros Hk Hs Hbases H.
  apply contig_passes_crusial_inv in H
    as (c & Hc & [(HL & -> & ->) | (HL & -> & ->)]);
    exists c; (split; [exact Hc|]); cbv zeta;
    pose proof (proj1 (Forall_forall _ _) Hbases c Hc) as Hb; cbn in Hb.
  - destruct (prefix_hint_decode k s (seq c) Hs Hb HL) as [Hlen Hdec].
    cbv zeta in Hlen, Hdec.
    split; [exact HL|]. split; [exact Hlen|]. left.
    split; [apply prefix_kmer_window|].
    intros j Hj. apply Hdec. lia.
  - destruct (suffix_rc_hint_decode k s (seq c) Hs Hb ltac:(lia))
      as [Hlen Hdec].
    cbv zeta in Hlen, Hdec.
    split; [lia|]. split; [exact Hlen|]. right.
    split; [apply suffix_rc_kmer_window; lia|].
    intros j Hj. apply Hdec. lia.
Qed.

Lemma stored_hint_decodes_witness :
  (0 <= 3 /\ 0 <= 2 <= 29
   /\ Forall (fun c : contig Z => bases_ok (seq c))
             (concat [[mkContig contig_ACTGAA 5]])
   /\ crusial_kmers
        (contig_passes keep_multiplicity 3 2 [[mkContig contig_ACTGAA 5]] None)
        !! [0; 1; 3]
      = Some (prefix_hint 3 2 contig_ACTGAA))
  /\ exists c, c ∈ concat [[mkContig contig_ACTGAA 5]]
       /\ let v := prefix_hint 3 2 contig_ACTGAA in
          let L := Z.of_nat (length (seq c)) in
          3 <= L
          /\ hint_length v = Z.min 2 (L - 3)
          /\ (([0; 1; 3] = window (seq c) 0 3
               /\ forall j, 0 <= j < hint_length v ->
                    hint_base v j = CharAt (seq c) (3 + j))
              \/ ([0; 1; 3] = Kmer.ReverseComplement (window (seq c) (L - 3) 3)
                  /\ forall j, 0 <= j < hint_length v ->
                       hint_base v j = 3 - CharAt (seq c) (L - 3 - 1 - j))).
Proof.
  assert (Forall (fun c : contig Z => bases_ok (seq c))
                 (concat [[mkContig contig_ACTGAA 5]])) as Hb
      by (repeat constructor; cbn; lia).
  split.
  - split; [lia|]. split; [lia|]. split; [exact Hb|]. vm_compute; reflexivity.
  - apply (stored_hint_decodes keep_multiplicity 3 2
             [[mkContig contig_ACTGAA 5]] None [0; 1; 3]
             (prefix_hint 3 2 contig_ACTGAA));
      [lia | lia | exact Hb | vm_compute; reflexivity].
Defined.

(** X14: with [step = 30], which [ParseOptions] lets through, a hint no
    longer reads back.  Base 29 of the hint is packed at bits 4 and 5, inside
    the six bits that hold the length: for a contig with at least 30 bases
    after its leading k-mer, the length decodes to 62 instead of 30 when
    that base is [G] or [T], and base 29 decodes with its low bit set, so
    [A] reads as [C] and [G] as [T]. *)
Theorem hint_overlaps_length_at_step_30 (k : Z) (seq : list Z) :
  bases_ok seq -> k + 30 <= Z.of_nat (length seq) ->
  hint_length (prefix_hint k 30 seq)
  = (if 2 <=? CharAt seq (k + 29) then 62 else 30)
  /\ hint_base (prefix_hint k 30 seq) 29 = Z.lor (CharAt seq (k + 29)) 1.
Proof.
  intros Hb HL. unfold prefix_hint. rewrite Z.min_l by lia.
  assert (forall j, 0 <= CharAt seq (j + k) < 4) as Hc
      by (intros; now apply CharAt_base).
  rewrite (hint_length_30 _ Hc), (hint_base_30 _ Hc).
  replace (29 + k) with (k + 29) by lia. split; reflexivity.
Qed.

Lemma hint_overlaps_length_at_step_30_witness :
  (bases_ok (replicate 31 2)
   /\ 1 + 30 <= Z.of_nat (length (replicate 31 2)))
  /\ hint_length (prefix_hint 1 30 (replicate 31 2))
     = (if 2 <=? CharAt (replicate 31 2) (1 + 29) then 62 else 30)
  /\ hint_base (prefix_hint 1 30 (replicate 31 2)) 29
     = Z.lor (CharAt (replicate 31 2) (1 + 29)) 1.
Proof.
  assert (bases_ok (replicate 31 2)) as Hb
      by (apply Forall_replicate; lia).
  split; [split; [exact Hb | cbn; lia]|].
  apply (hint_overlaps_length_at_step_30 1 (replicate 31 2));
    [exact Hb | cbn; lia].
Defined.

(** ** The read pass: phase 1 *)

(** X15: at the head of the [while] loop of line 457 the position
    [cur_pos] is never labelled yet: labels are only ever set below the
    position the scan moves to next.  The test [!kmer_exist[cur_pos]] of
    line 459 therefore always succeeds, and every round looks the k-mer
    up. *)
Theorem cur_pos_unlabelled_at_loop_head (k : Z) (crusial : gmap (list Z) Z)
    (R : list Z) (st : scan_state) :
  0 < k -> k <= Z.of_nat (length R) ->
  reachable k crusial R st ->
  exist_get (kmer_exist st) (cur_pos st) = Done false
  /\ forall i : nat,
       cur_pos st <= Z.of_nat i -> nth i (kmer_exist st) false = false.
Proof.
  intros Hk HL Hreach.
  destruct (reachable_inv k crusial R st Hk HL Hreach)
    as [[Hp HpL] Hlm Hlen Hfresh Hkm Hrv].
  split; [|exact Hfresh].
  rewrite exist_get_in by lia. now rewrite Hfresh by lia.
Qed.

Lemma cur_pos_unlabelled_at_loop_head_witness :
  (0 < 3 /\ 3 <= Z.of_nat (length read_AAAAA)
   /\ reachable 3 (crusial_of 3 1 contig_AAAA) read_AAAAA
        (mkScan 2 1 [true; true; false; false; false] [0; 0; 0] [3; 3; 3]))
  /\ exist_get [true; true; false; false; false] 2 = Done false
  /\ forall i : nat,
       2 <= Z.of_nat i ->
       nth i [true; true; false; false; false] false = false.
Proof.
  assert (reachable 3 (crusial_of 3 1 contig_AAAA) read_AAAAA
            (mkScan 2 1 [true; true; false; false; false] [0; 0; 0] [3; 3; 3]))
    as Hreach.
  { apply (reachable_round _ _ _
             (mkScan 0 (-1) (replicate 5 false) [0; 0; 0] [3; 3; 3]));
      [|vm_compute; reflexivity].
    apply reachable_init. vm_compute; reflexivity. }
  split; [split; [lia | split; [cbn; lia | exact Hreach]]|].
  apply (cur_pos_unlabelled_at_loop_head 3 (crusial_of 3 1 contig_AAAA)
           read_AAAAA
           (mkScan 2 1 [true; true; false; false; false] [0; 0; 0] [3; 3; 3]));
    [lia | cbn; lia | exact Hreach].
Defined.

(** X16: the forward branch of the probe (lines 461-475).  When the k-mer
    at [cur_pos = p] is a key with hint [s_seq] of length at most 32 (so
    that every base the loop reads from the hint is read with a shift count
    that is not negative), the probe labels [p] and
    the positions [p + 1 .. p + j*], where [j*] counts the leading hint
    bases that agree with the read after the k-mer; it stops at the end of
    the hint, at the end of the read, or at the first base that differs.  It
    sets [last_marked_pos] to [p + j*] and continues at [p + j* + 1]; no
    other label changes and the two k-mers are left alone. *)
Theorem forward_anchor_branch (k : Z) (crusial : gmap (list Z) Z)
    (R : list Z) (st : scan_state) (s_seq : Z) :
  0 < k -> k <= Z.of_nat (length R) ->
  reachable k crusial R st ->
  let p := cur_pos st in
  crusial !! window R p k = Some s_seq ->
  hint_length s_seq <= 32 ->
  exists jstar exist',
    probe k crusial R st
    = Done (mkScan p (p + jstar) exist' (kmer st) (rev_kmer st),
            p + jstar + 1)
    /\ 0 <= jstar <= hint_length s_seq
    /\ p + k + jstar <= Z.of_nat (length R)
    /\ (forall j, 0 <= j < jstar ->
          hint_base s_seq j = CharAt R (p + k + j))
    /\ (jstar = hint_length s_seq
        \/ p + k + jstar = Z.of_nat (length R)
        \/ hint_base s_seq jstar <> CharAt R (p + k + jstar))
    /\ length exist' = length R
    /\ (forall i : nat,
          nth i exist' false
          = (if decide (p <= Z.of_nat i <= p + jstar) then true
             else nth i (kmer_exist st) false)).
Proof.
  intros Hk HL Hreach p Hfwd Hhint.
  destruct (reachable_inv k crusial R st Hk HL Hreach)
    as [[Hp HpL] Hlm Hlen Hfresh Hkm Hrv].
  fold p in Hp, HpL, Hlm, Hfresh, Hkm.
  unfold probe. fold p. rewrite exist_get_in by lia.
  rewrite Hfresh by lia. cbn [mbind outcome_bind].
  rewrite Hkm, Hfwd.
  rewrite exist_set_in by lia. cbn [mbind outcome_bind].
  pose proof (hint_length_bound s_seq) as Hhl.
  destruct (forward_match_spec 64 k R p s_seq 0
              (<[Z.to_nat p := true]> (kmer_exist st)))
    as (j' & exist' & Hrun & Hle & Hall & Hstop & Hlen' & Hnth); try lia.
  { now rewrite length_insert. }
  rewrite Hrun. cbn [mbind outcome_bind].
  exists j', exist'. split; [now rewrite <- Hkm|].
  assert (j' <= hint_length s_seq /\ p + k + j' <= Z.of_nat (length R))
    as [Hj1 Hj2].
  { destruct (Z.eq_dec j' 0) as [->|Hne]; [lia|].
    destruct (Hall (j' - 1)); lia. }
  split; [lia|]. split; [exact Hj2|].
  split; [intros j Hj; destruct (Hall j Hj) as (_ & _ & ?); auto|].
  split.
  { destruct Hstop as [H|[H|H]]; [left | right; left | right; right]; auto;
      lia. }
  split; [exact Hlen'|].
  intros i. rewrite Hnth, nth_insert_true by lia.
  repeat destruct (decide _); try reflexivity; lia.
Qed.

Lemma forward_anchor_branch_witness :
  (0 < 3 /\ 3 <= Z.of_nat (length read_AAAAA)
   /\ reachable 3 (crusial_of 3 1 contig_AAAA) read_AAAAA
        (mkScan 0 (-1) (replicate 5 false) [0; 0; 0] [3; 3; 3])
   /\ crusial_of 3 1 contig_AAAA !! window read_AAAAA 0 3 = Some 1
   /\ hint_length 1 <= 32)
  /\ exists jstar exist',
       probe 3 (crusial_of 3 1 contig_AAAA) read_AAAAA
             (mkScan 0 (-1) (replicate 5 false) [0; 0; 0] [3; 3; 3])
       = Done (mkScan 0 (0 + jstar) exist' [0; 0; 0] [3; 3; 3],
               0 + jstar + 1)
       /\ 0 <= jstar <= hint_length 1
       /\ 0 + 3 + jstar <= Z.of_nat (length read_AAAAA)
       /\ (forall j, 0 <= j < jstar ->
             hint_base 1 j = CharAt read_AAAAA (0 + 3 + j))
       /\ (jstar = hint_length 1
           \/ 0 + 3 + jstar = Z.of_nat (length read_AAAAA)
           \/ hint_base 1 jstar <> CharAt read_AAAAA (0 + 3 + jstar))
       /\ length exist' = length read_AAAAA
       /\ (forall i : nat,
             nth i exist' false
             = (if decide (0 <= Z.of_nat i <= 0 + jstar) then true
                else nth i (replicate 5 false) false)).
Proof.
  assert (reachable 3 (crusial_of 3 1 contig_AAAA) read_AAAAA
            (mkScan 0 (-1) (replicate 5 false) [0; 0; 0] [3; 3; 3]))
    as Hreach by (apply reachable_init; vm_compute; reflexivity).
  split.
  - split; [lia|]. split; [cbn; lia|]. split; [exact Hreach|].
    split; [vm_compute; reflexivity | change (hint_length 1) with 1; lia].
  - apply (forward_anchor_branch 3 (crusial_of 3 1 contig_AAAA) read_AAAAA
             (mkScan 0 (-1) (replicate 5 false) [0; 0; 0] [3; 3; 3]) 1);
      [lia | cbn; lia | exact Hreach | vm_compute; reflexivity
       | change (hint_length 1) with 1; lia].
Defined.

(** X17: a read none of whose k-mers is a key of the crucial-k-mer map, in
    either strand, gets no label: it is not aligned, increments nothing and
    is not written to [rr.pb].  With an empty map this is every read. *)
Theorem read_without_anchor_not_aligned (k s : Z)
    (crusial iter_edges : gmap (list Z) Z) (R : list Z) :
  0 < k -> 0 <= s ->
  (forall p, 0 <= p -> p + k <= Z.of_nat (length R) ->
     crusial !! window R p k = None
     /\ crusial !! Kmer.ReverseComplement (window R p k) = None) ->
  process_read k s crusial iter_edges R = Done (iter_edges, false, [])
  /\ process_read_package k s crusial [R] iter_edges = Done (iter_edges, []).
Proof.
  intros Hk Hs Hno.
  pose proof (process_read_miss k s crusial iter_edges R Hk Hs Hno) as H.
  split; [exact H|].
  cbn [process_read_package]. rewrite H. reflexivity.
Qed.

Lemma read_without_anchor_not_aligned_witness :
  (0 < 3 /\ 0 <= 1
   /\ forall p, 0 <= p -> p + 3 <= Z.of_nat (length read_AAACCCGG) ->
        (∅ : gmap (list Z) Z) !! window read_AAACCCGG p 3 = None
        /\ (∅ : gmap (list Z) Z)
             !! Kmer.ReverseComplement (window read_AAACCCGG p 3) = None)
  /\ process_read 3 1 ∅ ∅ read_AAACCCGG = Done (∅, false, [])
  /\ process_read_package 3 1 ∅ [read_AAACCCGG] ∅ = Done (∅, []).
Proof.
  assert (forall p, 0 <= p -> p + 3 <= Z.of_nat (length read_AAACCCGG) ->
            (∅ : gmap (list Z) Z) !! window read_AAACCCGG p 3 = None
            /\ (∅ : gmap (list Z) Z)
                 !! Kmer.ReverseComplement (window read_AAACCCGG p 3) = None)
    as Hno by (intros; split; apply lookup_empty).
  split; [split; [lia | split; [lia | exact Hno]]|].
  apply (read_without_anchor_not_aligned 3 1 ∅ ∅ read_AAACCCGG);
    [lia | lia | exact Hno].
Defined.

(** X18: every label of phase 1 stands on a k-mer of a primary contig.
    For [step <= 29] and contigs of base symbols, if phase 1 labels
    position [q] of a read then the k-mer of the read at [q] is a k-mer of
    some primary contig or the reverse complement of one: the hint bases
    that extend a label are bases of the contig next to its end k-mer. *)
Theorem labels_stand_on_contig_kmers {M : Type}
    (convert_multiplicity : Z -> Z -> Z -> M -> Z)
    (k s : Z) (primary : list (list (contig M)))
    (addi : option (list (list (contig M)))) (R : list Z) :
  0 < k -> 0 <= s <= 29 ->
  Forall (fun c => bases_ok (seq c)) (concat primary) ->
  k <= Z.of_nat (length R) ->
  exists sc,
    phase1 k (crusial_kmers
                (contig_passes convert_multiplicity k s primary addi)) R
    = Done sc
    /\ forall q : nat,
         nth q (kmer_exist sc) false = true ->
         exists c a,
           c ∈ concat primary /\ 0 <= a
           /\ a + k <= Z.of_nat (length (seq c))
           /\ (window R (Z.of_nat q) k = window (seq c) a k
               \/ window R (Z.of_nat q) k
                  = Kmer.ReverseComplement (window (seq c) a k)).
Proof.
  intros Hk Hs Hb HL.
  apply (phase1_sound k s (concat primary)); try assumption.
  now apply contig_passes_crusial_from.
Qed.

Lemma labels_stand_on_contig_kmers_witness :
  (0 < 3 /\ 0 <= 1 <= 29
   /\ Forall (fun c : contig Z => bases_ok (seq c))
             (concat [[mkContig contig_ACTGAA 5]])
   /\ 3 <= Z.of_nat (length read_CTGAAA))
  /\ exists sc,
       phase1 3 (crusial_kmers
                   (contig_passes keep_multiplicity 3 1
                                  [[mkContig contig_ACTGAA 5]] None))
              read_CTGAAA
       = Done sc
       /\ forall q : nat,
            nth q (kmer_exist sc) false = true ->
            exists c a,
              c ∈ concat [[mkContig contig_ACTGAA 5]] /\ 0 <= a
              /\ a + 3 <= Z.of_nat (length (seq c))
              /\ (window read_CTGAAA (Z.of_nat q) 3 = window (seq c) a 3
                  \/ window read_CTGAAA (Z.of_nat q) 3
                     = Kmer.ReverseComplement (window (seq c) a 3)).
Proof.
  assert (Forall (fun c : contig Z => bases_ok (seq c))
                 (concat [[mkContig contig_ACTGAA 5]])) as Hb
      by (repeat constructor; cbn; lia).
  split; [split; [lia | split; [lia | split; [exact Hb | cbn; lia]]]|].
  apply (labels_stand_on_contig_kmers keep_multiplicity 3 1
           [[mkContig contig_ACTGAA 5]] None read_CTGAAA);
    [lia | lia | exact Hb | cbn; lia].
Defined.

(** ** The read pass: phase 2 and the packages *)

(** X19: the emission rule of phase 2 (lines 506-509).  For a read of at
    least [k + s + 1] bases an edge is counted at index [j] exactly when
    the [s + 2] positions [j - s - 1 .. j] all carry a label of phase 1;
    the key counted there is the canonical form of the window of
    [k + s + 1] bases that starts at [j - s - 1], and the indices are
    visited in increasing order. *)
Theorem edge_counted_iff_run_labelled (k s : Z)
    (crusial iter_edges : gmap (list Z) Z) (R : list Z) :
  0 < k -> 0 <= s -> k + s + 1 <= Z.of_nat (length R) ->
  exists sc js,
    phase1 k crusial R = Done sc
    /\ process_read k s crusial iter_edges R
       = Done (foldl increment_edge iter_edges (key_at k s R <$> js),
               bool_decide (js <> []), key_at k s R <$> js)
    /\ js `sublist_of` seqZ 0 (Z.of_nat (length R) - k + 1)
    /\ forall j,
         j ∈ js
         <-> s + 1 <= j <= Z.of_nat (length R) - k
             /\ run_labelled (kmer_exist sc) s j.
Proof.
  intros Hk Hs HL.
  destruct (process_read_spec k s crusial iter_edges R Hk Hs HL)
    as (sc & Hsc & Hlen & Hrun).
  cbv zeta in Hrun.
  exists sc, (emit_positions s (kmer_exist sc)
                (seqZ 0 (Z.of_nat (length R) - k + 1)) 0).
  split; [exact Hsc|]. split.
  { rewrite Hrun. do 2 f_equal.
    now destruct (emit_positions _ _ _ _). }
  split; [apply emit_positions_sublist|].
  intros j.
  replace (Z.of_nat (length R) - k + 1)
    with (Z.of_nat (Z.to_nat (Z.of_nat (length R) - k + 1))) by lia.
  rewrite emit_positions_iff; [|lia|lia|].
  - split; intros (H1 & H2); [destruct H2|]; repeat split; try lia; tauto.
  - split; [lia|]. split; intros; lia.
Qed.

Lemma edge_counted_iff_run_labelled_witness :
  (0 < 3 /\ 0 <= 1 /\ 3 + 1 + 1 <= Z.of_nat (length read_AAAAA))
  /\ exists sc js,
       phase1 3 (crusial_of 3 1 contig_AAAA) read_AAAAA = Done sc
       /\ process_read 3 1 (crusial_of 3 1 contig_AAAA) ∅ read_AAAAA
          = Done (foldl increment_edge ∅ (key_at 3 1 read_AAAAA <$> js),
                  bool_decide (js <> []), key_at 3 1 read_AAAAA <$> js)
       /\ js `sublist_of` seqZ 0 (Z.of_nat (length read_AAAAA) - 3 + 1)
       /\ forall j,
            j ∈ js
            <-> 1 + 1 <= j <= Z.of_nat (length read_AAAAA) - 3
                /\ run_labelled (kmer_exist sc) 1 j.
Proof.
  split; [split; [lia | split; [lia | cbn; lia]]|].
  apply (edge_counted_iff_run_labelled 3 1 (crusial_of 3 1 contig_AAAA) ∅
           read_AAAAA); [lia | lia | cbn; lia].
Defined.

(** X20: a read is aligned exactly when it increments at least one edge,
    and it increments at most one edge per window of [k + s + 1] bases, so
    at most [L - (k + s)] for a read of [L] bases and none for a shorter
    read.  Which keys it increments depends on the read and on the crucial
    k-mers only, not on the state of the iterative-edge map. *)
Theorem process_read_increments (k s : Z) (crusial : gmap (list Z) Z)
    (R : list Z) :
  0 < k -> 0 <= s ->
  exists keys : list (list Z),
    (forall iter_edges,
       process_read k s crusial iter_edges R
       = Done (foldl increment_edge iter_edges keys,
               bool_decide (keys <> []), keys))
    /\ Z.of_nat (length keys) <= Z.max 0 (Z.of_nat (length R) - (k + s)).
Proof.
  intros Hk Hs. exists (read_increments k s crusial R). split.
  - intros iter_edges. rewrite process_read_exact by assumption.
    cbv zeta. now destruct (read_increments k s crusial R).
  - now apply length_read_increments.
Qed.

Lemma process_read_increments_witness :
  (0 < 3 /\ 0 <= 1)
  /\ exists keys : list (list Z),
       (forall iter_edges,
          process_read 3 1 (crusial_of 3 1 contig_AAAA) iter_edges read_AAAAA
          = Done (foldl increment_edge iter_edges keys,
                  bool_decide (keys <> []), keys))
       /\ Z.of_nat (length keys)
          <= Z.max 0 (Z.of_nat (length read_AAAAA) - (3 + 1)).
Proof.
  split; [lia|].
  apply (process_read_increments 3 1 (crusial_of 3 1 contig_AAAA) read_AAAAA);
    lia.
Defined.

(** X21: [rr.pb] after the run holds exactly the reads that incremented at
    least one edge, in input order, among the packages read before the
    first empty one; it is a subsequence of the input reads, and no read
    shorter than [k + s + 1] is in it. *)
Theorem aligned_reads_written_in_order {M : Type}
    (convert_multiplicity : Z -> Z -> Z -> M -> Z)
    (k s : Z) (primary : list (list (contig M)))
    (addi : option (list (list (contig M))))
    (reads : list (list (list Z))) :
  0 < k -> 0 < s ->
  exists g,
    run convert_multiplicity k s primary addi reads = Done g
    /\ output_read_file g
       = filter (fun R => read_increments k s (crusial_kmers g) R <> [])
                (concat (packages_read reads))
    /\ output_read_file g `sublist_of` concat reads
    /\ Forall (fun R => k + s + 1 <= Z.of_nat (length R)) (output_read_file g).
Proof.
  intros Hk Hs.
  pose proof (run_exact convert_multiplicity k s primary addi reads Hk
                ltac:(lia)) as Hrun.
  cbv zeta in Hrun. eexists. split; [exact Hrun|].
  cbn [output_read_file crusial_kmers]. split; [reflexivity|]. split.
  - etransitivity; [apply sublist_filter | apply packages_read_sublist].
  - apply Forall_forall. intros R [HR _]%list_elem_of_filter.
    destruct (Z.ltb_spec (Z.of_nat (length R)) (k + s + 1)); [|lia].
    exfalso. apply HR. apply read_increments_short. lia.
Qed.

Lemma aligned_reads_written_in_order_witness :
  (0 < 3 /\ 0 < 1)
  /\ exists g,
       run keep_multiplicity 3 1 [[mkContig contig_AAAA 5]] None
           [[read_AAACCCGG; read_AAAAA]; [[0; 0; 0]]] = Done g
       /\ output_read_file g
          = filter (fun R => read_increments 3 1 (crusial_kmers g) R <> [])
                   (concat (packages_read
                              [[read_AAACCCGG; read_AAAAA]; [[0; 0; 0]]]))
       /\ output_read_file g
            `sublist_of` concat [[read_AAACCCGG; read_AAAAA]; [[0; 0; 0]]]
       /\ Forall (fun R => 3 + 1 + 1 <= Z.of_nat (length R))
                 (output_read_file g).
Proof.
  split; [lia|].
  apply (aligned_reads_written_in_order keep_multiplicity 3 1
           [[mkContig contig_AAAA 5]] None
           [[read_AAACCCGG; read_AAAAA]; [[0; 0; 0]]]); lia.
Defined.

(** X22: the iterative-edge map after the run counts the increments: the
    counter of a key is the number of times the reads incremented it,
    capped at [kMaxMulti_t], and a key no read incremented is absent. *)
Theorem iterative_edges_count_increments {M : Type}
    (convert_multiplicity : Z -> Z -> Z -> M -> Z)
    (k s : Z) (primary : list (list (contig M)))
    (addi : option (list (list (contig M))))
    (reads : list (list (list Z))) :
  0 < k -> 0 < s ->
  exists g,
    run convert_multiplicity k s primary addi reads = Done g
    /\ let keys := concat (packages_read reads)
                     ≫= read_increments k s (crusial_kmers g) in
       forall x,
         iterative_edges g !! x
         = if decide (x ∈ keys)
           then Some (Z.min (occurrences x keys) kMaxMulti_t)
           else None.
Proof.
  intros Hk Hs.
  pose proof (run_exact convert_multiplicity k s primary addi reads Hk
                ltac:(lia)) as Hrun.
  cbv zeta in Hrun. eexists. split; [exact Hrun|].
  cbn [iterative_edges crusial_kmers]. intros x.
  apply increments_from_empty.
Qed.

Lemma iterative_edges_count_increments_witness :
  (0 < 3 /\ 0 < 1)
  /\ exists g,
       run keep_multiplicity 3 1 [[mkContig contig_AAAA 5]] None
           [[read_AAAAA; read_AAAAA]; [read_AAAAA]] = Done g
       /\ let keys := concat (packages_read
                                [[read_AAAAA; read_AAAAA]; [read_AAAAA]])
                        ≫= read_increments 3 1 (crusial_kmers g) in
          forall x,
            iterative_edges g !! x
            = if decide (x ∈ keys)
              then Some (Z.min (occurrences x keys) kMaxMulti_t)
              else None.
Proof.
  split; [lia|].
  apply (iterative_edges_count_increments keep_multiplicity 3 1
           [[mkContig contig_AAAA 5]] None
           [[read_AAAAA; read_AAAAA]; [read_AAAAA]]); lia.
Defined.

(** X23: only supported windows are counted.  For [step <= 29] and
    contigs of base symbols, every key of the iterative-edge map after the
    run is the canonical form of a window of [k + s + 1] bases of a read
    all of whose [s + 2] k-mers are k-mers of primary contigs, in one strand
    or the other. *)
Theorem counted_windows_are_supported {M : Type}
    (convert_multiplicity : Z -> Z -> Z -> M -> Z)
    (k s : Z) (primary : list (list (contig M)))
    (addi : option (list (list (contig M))))
    (reads : list (list (list Z))) :
  0 < k -> 0 < s <= 29 ->
  Forall (fun c => bases_ok (seq c)) (concat primary) ->
  exists g,
    run convert_multiplicity k s primary addi reads = Done g
    /\ forall key,
         is_Some (iterative_edges g !! key) ->
         exists R p,
           R ∈ concat reads /\ 0 <= p
           /\ p + (k + s + 1) <= Z.of_nat (length R)
           /\ key = canonical (window R p (k + s + 1))
           /\ forall i, 0 <= i <= s + 1 ->
                contig_kmer k (concat primary) (window R (p + i) k).
Proof.
  intros Hk Hs Hb.
  pose proof (run_exact convert_multiplicity k s primary addi reads Hk
                ltac:(lia)) as Hrun.
  cbv zeta in Hrun. eexists. split; [exact Hrun|].
  cbn [iterative_edges]. intros key Hkey.
  apply increment_edges_is_Some in Hkey as [[? H]|Hin];
    [now rewrite lookup_empty in H|].
  apply list_elem_of_bind in Hin as (R & Hin & HR).
  destruct (read_increments_supported k s (concat primary) _ R key Hk
              ltac:(lia)
              (contig_passes_crusial_from convert_multiplicity k s primary
                                          addi Hb) Hin)
    as (p & Hp & HpL & -> & Hsup).
  exists R, p. split.
  { eapply elem_of_sublist; [exact HR | apply packages_read_sublist]. }
  repeat split; auto.
Qed.

Lemma counted_windows_are_supported_witness :
  (0 < 3 /\ 0 < 1 <= 29
   /\ Forall (fun c : contig Z => bases_ok (seq c))
             (concat [[mkContig contig_AAAA 5]]))
  /\ exists g,
       run keep_multiplicity 3 1 [[mkContig contig_AAAA 5]] None
           [[read_AAAAA]] = Done g
       /\ forall key,
            is_Some (iterative_edges g !! key) ->
            exists R p,
              R ∈ concat [[read_AAAAA]] /\ 0 <= p
              /\ p + (3 + 1 + 1) <= Z.of_nat (length R)
              /\ key = canonical (window R p (3 + 1 + 1))
              /\ forall i, 0 <= i <= 1 + 1 ->
                   contig_kmer 3 (concat [[mkContig contig_AAAA 5]])
                               (window R (p + i) 3).
Proof.
  assert (Forall (fun c : contig Z => bases_ok (seq c))
                 (concat [[mkContig contig_AAAA 5]])) as Hb
      by (repeat constructor; cbn; lia).
  split; [split; [lia | split; [lia | exact Hb]]|].
  apply (counted_windows_are_supported keep_multiplicity 3 1
           [[mkContig contig_AAAA 5]] None [[read_AAAAA]]);
    [lia | lia | exact Hb].
Defined.

(** X24: the order in which the reads of a package are processed does not
    matter: for any reordering of the package the iterative-edge map comes
    out the same, and the same reads are marked aligned.  More finely, the
    increments of the package may take place in any order: those under the
    lock of lines 531-537 commute, which is what the parallel loop of line
    439 relies on. *)
Theorem read_order_is_irrelevant (k s : Z) (crusial : gmap (list Z) Z)
    (cur_package cur_package' : list (list Z))
    (iter_edges : gmap (list Z) Z) :
  0 < k -> 0 <= s -> cur_package ≡ₚ cur_package' ->
  exists iter_edges' written written',
    process_read_package k s crusial cur_package iter_edges
    = Done (iter_edges', written)
    /\ process_read_package k s crusial cur_package' iter_edges
       = Done (iter_edges', written')
    /\ written ≡ₚ written'
    /\ forall keys,
         keys ≡ₚ cur_package ≫= read_increments k s crusial ->
         foldl increment_edge iter_edges keys = iter_edges'.
Proof.
  intros Hk Hs Hperm.
  rewrite !process_read_package_exact by assumption.
  eexists _, _, _. split; [reflexivity|]. split.
  - do 2 f_equal. symmetry. apply increments_permutation.
    now rewrite Hperm.
  - split; [now rewrite Hperm|].
    intros keys Hkeys. now apply increments_permutation.
Qed.

Lemma read_order_is_irrelevant_witness :
  (0 < 3 /\ 0 <= 1
   /\ [read_AAAAA; read_AAACCCGG] ≡ₚ [read_AAACCCGG; read_AAAAA])
  /\ exists iter_edges' written written',
       process_read_package 3 1 (crusial_of 3 1 contig_AAAA)
                            [read_AAAAA; read_AAACCCGG] ∅
       = Done (iter_edges', written)
       /\ process_read_package 3 1 (crusial_of 3 1 contig_AAAA)
                               [read_AAACCCGG; read_AAAAA] ∅
          = Done (iter_edges', written')
       /\ written ≡ₚ written'
       /\ forall keys,
            keys ≡ₚ [read_AAAAA; read_AAACCCGG]
                     ≫= read_increments 3 1 (crusial_of 3 1 contig_AAAA) ->
            foldl increment_edge ∅ keys = iter_edges'.
Proof.
  split; [split; [lia | split; [lia | apply perm_swap]]|].
  apply (read_order_is_irrelevant 3 1 (crusial_of 3 1 contig_AAAA)
           [read_AAAAA; read_AAACCCGG] [read_AAACCCGG; read_AAAAA] ∅);
    [lia | lia | apply perm_swap].
Defined.

(** ** Writing the iterative edges *)



(** X26: the size of [edges.0].  After the run the file holds the two
    header words when there was a primary package, then records of
    [kWordsPerEdge] words each, one per edge of a contig and one per entry
    of the iterative-edge map, and nothing else. *)
Theorem edges_file_size {M : Type}
    (convert_multiplicity : Z -> Z -> Z -> M -> Z)
    (k s : Z) (primary : list (list (contig M)))
    (addi : option (list (list (contig M))))
    (reads : list (list (list Z))) :
  0 < k -> 0 < s ->
  exists g,
    run convert_multiplicity k s primary addi reads = Done g
    /\ Z.of_nat (length (edge_stream (output_edge_file g)))
       = match primary with [] => 0 | _ :: _ => 2 end
         + kWordsPerEdge k s
           * (Z.of_nat
                (length (contig_records convert_multiplicity k s
                           (concat primary
                            ++ match addi with
                               | Some packages => concat packages
                               | None => []
                               end)))
              + Z.of_nat (size (iterative_edges g))).
Proof.
  intros Hk Hs.
  pose proof (run_exact convert_multiplicity k s primary addi reads Hk
                ltac:(lia)) as Hrun.
  cbv zeta in Hrun. eexists. split; [exact Hrun|].
  cbn [output_edge_file iterative_edges].
  destruct (kWordsPerEdge_room k s ltac:(lia)) as [HW1 _].
  assert (0 <= (k + s + 1) / 16) by (apply Z.div_pos; lia).
  set (m := foldl increment_edge ∅ _).
  set (cs := concat primary ++ _).
  rewrite contig_passes_records. fold cs.
  set (es := contig_records convert_multiplicity k s cs).
  set (ds := (fun kv : list Z * Z => assemble_edge k s kv.1 0 kv.2)
               <$> map_to_list m).
  assert (Forall (fun e => length e = Z.to_nat (kWordsPerEdge k s)) (es ++ ds))
    as Hall.
  { apply Forall_app. split.
    - subst es. unfold contig_records. apply Forall_forall.
      intros e (c & He & _)%list_elem_of_bind.
      exact (proj1 (Forall_forall _ _) (contig_edges_lengths _ _ _ _) e He).
    - subst ds. apply Forall_fmap, Forall_forall. intros kv _. cbn.
      apply length_assemble_edge. }
  assert (edge_stream
            ((match primary with
              | [] => []
              | _ :: _ => [HeaderWord (u32 (k + s));
                           HeaderWord (u32 (kWordsPerEdge k s))]
              end ++ (EdgeWords <$> es))
             ++ ((fun kv : list Z * Z =>
                    EdgeWords (assemble_edge k s kv.1 0 kv.2))
                   <$> map_to_list m))
          = match primary with
            | [] => []
            | _ :: _ => [u32 (k + s); u32 (kWordsPerEdge k s)]
            end ++ concat (es ++ ds)) as ->.
  { unfold edge_stream. rewrite !fmap_app, !concat_app.
    rewrite <- app_assoc. f_equal; [now destruct primary|].
    subst ds. rewrite <- !list_fmap_compose.
    f_equal; try reflexivity. f_equal. apply list_fmap_id. }
  rewrite length_app, (length_concat_fixed _ _ Hall), length_app.
  subst ds. rewrite length_fmap, length_map_to_list.
  destruct primary; cbn [length]; lia.
Qed.

Lemma edges_file_size_witness :
  (0 < 3 /\ 0 < 1)
  /\ exists g,
       run keep_multiplicity 3 1 [[mkContig contig_AAACCCGGG 5]]
           (Some [[mkContig contig_ACTGAA 7]]) [[read_AAAAA]] = Done g
       /\ Z.of_nat (length (edge_stream (output_edge_file g)))
          = 2 + kWordsPerEdge 3 1
                * (Z.of_nat
                     (length (contig_records keep_multiplicity 3 1
                                (concat [[mkContig contig_AAACCCGGG 5]]
                                 ++ concat [[mkContig contig_ACTGAA 7]])))
                   + Z.of_nat (size (iterative_edges g))).
Proof.
  split; [lia|].
  apply (edges_file_size keep_multiplicity 3 1
           [[mkContig contig_AAACCCGGG 5]]
           (Some [[mkContig contig_ACTGAA 7]]) [[read_AAAAA]]); lia.
Defined.
